(** * Landmark extraction for audio fingerprinting

    A shallow embedding of [backend/src/spectogram.js] (the spectrogram
    builder, with its Hamming window) and [backend/src/peakfinder.js] (the
    peak detector), and the properties of both that the design document
    states.

    JavaScript numbers are IEEE 754 binary64 values; they are modelled by
    [spec_float], the library's executable specification of floating-point
    numbers, so that comparisons with NaN, the division 0/0 and the
    rounding of a [Float32Array] store are the ones the program performs.
    Array indices and the integer parameters are [Z].

    The last part adds the decoding of the samples, the handler of ['end']
    in [readAudioFile] of [backend/src/preprocessing.js]. *)

From Stdlib Require Import ZArith Bool Lia.
From Stdlib Require Import Reals Lra.
From Stdlib Require Import Floats.SpecFloat.
From Stdlib Require Strings.Byte.
From stdpp Require Import base option list list_numbers sorting.

Local Open Scope Z_scope.

(** ** Results of fallible code *)

(** The exceptions the two functions can raise, by the place that raises
    them. *)
Inductive error : Type :=
  | TypeError_row        (* peakfinder.js:44, [spectrogram[t].length] on a missing row *)
  | TypeError_neighbor   (* peakfinder.js:61, [spectrogram[t + dt][..]] on a missing row *)
  | RangeError           (* [new Float32Array(n)] with a negative length *)
  | TransformError.      (* raised inside the external transform *)

Inductive result (A : Type) : Type :=
  | Ok (a : A)
  | Err (e : error).
Arguments Ok {A} a.
Arguments Err {A} e.

Definition rbind {A B} (r : result A) (k : A -> result B) : result B :=
  match r with
  | Ok a => k a
  | Err e => Err e
  end.

Notation "'let*' x ':=' r 'in' k" := (rbind r (fun x => k))
  (at level 10, x pattern, r at level 100, k at level 200).

(** ** JavaScript values and operators *)

Module JS.

Definition number : Type := spec_float.

(** What an indexed read yields: a number, or [undefined] when the index
    names no element. *)
Inductive value : Type :=
  | undefined
  | Num (x : number).

Definition NaN : number := S754_nan.

Definition ToNumber (v : value) : number :=
  match v with
  | undefined => NaN
  | Num x => x
  end.

(** The abstract relational comparison [x < y]; [None] is its
    "undefined" answer, given when an operand is NaN. *)
Definition IsLessThan (x y : number) : option bool :=
  match SFcompare x y with
  | None => None
  | Some Lt => Some true
  | Some _ => Some false
  end.

(** [x < y], [x > y] and [x >= y] on numbers. *)
Definition lt (x y : number) : bool :=
  match IsLessThan x y with Some true => true | _ => false end.

Definition gt (x y : number) : bool :=
  match IsLessThan y x with Some true => true | _ => false end.

Definition ge (x y : number) : bool :=
  match IsLessThan x y with Some false => true | _ => false end.

(** binary64 arithmetic *)
Definition prec : Z := 53.
Definition emax : Z := 1024.

Definition add : number -> number -> number := SFadd prec emax.
Definition sub : number -> number -> number := SFsub prec emax.
Definition mul : number -> number -> number := SFmul prec emax.
Definition div : number -> number -> number := SFdiv prec emax.
Definition sqrt : number -> number := SFsqrt prec emax.

(** An integer loop counter used as a number. *)
Definition of_Z (z : Z) : number := binary_normalize prec emax z 0 false.

(** Rounding to binary32, as a store into a [Float32Array] does. The
    rounded value is a number again: it is written back with the
    mantissa and exponent of binary64, which loses nothing. *)
Definition fround (x : number) : number :=
  match x with
  | S754_finite s m e =>
      match binary_round 24 128 s m e with
      | S754_finite s' m' e' => binary_round prec emax s' m' e'
      | y => y
      end
  | _ => x
  end.

(** [a[i]] on an array: [None] when [i] is not an index of [a]. *)
Definition get {A} (a : list A) (i : Z) : option A :=
  if i <? 0 then None else a !! Z.to_nat i.

(** [a[i]] on an array of numbers. *)
Definition read (a : list number) (i : Z) : value :=
  match get a i with
  | Some x => Num x
  | None => undefined
  end.

(** [new Float32Array(n)]: [n] zeros, a [RangeError] for a negative [n]. *)
Definition Float32Array_new (n : Z) : result (list number) :=
  if n <? 0 then Err RangeError
  else Ok (replicate (Z.to_nat n) (S754_zero false)).

(** [a[i] = x] on a [Float32Array]: the value is rounded to binary32; a
    store outside the array is ignored. *)
Definition Float32Array_set (a : list number) (i : Z) (x : number) : list number :=
  if i <? 0 then a else <[Z.to_nat i := fround x]> a.

(** Literals of the two programs. *)
Definition c_0_54 : number := S754_finite false 0x1147ae147ae148 (-53).
Definition c_0_46 : number := S754_finite false 0x1d70a3d70a3d71 (-54).
Definition c_0_08 : number := S754_finite false 0x147ae147ae147b (-56).
Definition c_0_5 : number := S754_finite false 0x10000000000000 (-53).
Definition c_1 : number := S754_finite false 0x10000000000000 (-52).
Definition c_2 : number := S754_finite false 0x10000000000000 (-51).
Definition PI : number := S754_finite false 0x1921fb54442d18 (-51).

End JS.

(** ** The peak detector, [findPeaks] of peakfinder.js *)

Record peak : Type := Peak {
  time : Z;
  freq : Z;
  amplitude : JS.value
}.

Definition spectrogram : Type := list (list JS.number).

Section FindPeaks.

Variable spec : spectrogram.
Variables minFreq maxFreq : Z.
Variables timeNeighborhood freqNeighborhood : Z.
Variable threshold : JS.number.

(** Lines 57-63: one neighbor. The row [spectrogram[t + dt]] must exist;
    the cell in it need not. *)
Definition compare_neighbor (t f : Z) (value : JS.value) (dt df : Z)
    (isPeak : bool) : result bool :=
  if (dt =? 0) && (df =? 0) then Ok isPeak
  else
    match JS.get spec (t + dt) with
    | None => Err TypeError_neighbor
    | Some row =>
        if JS.ge (JS.ToNumber (JS.read row (f + df))) (JS.ToNumber value)
        then Ok false
        else Ok isPeak
    end.

(** Line 56: [for (df = ..; df <= freqNeighborhood && isPeak; df++)],
    over the values [dfs] that [df] still has to take. *)
Fixpoint df_loop (t f : Z) (value : JS.value) (dt : Z) (dfs : list Z)
    (isPeak : bool) : result bool :=
  match dfs with
  | [] => Ok isPeak
  | df :: dfs' =>
      if isPeak then
        let* isPeak' := compare_neighbor t f value dt df isPeak in
        df_loop t f value dt dfs' isPeak'
      else Ok isPeak
  end.

(** Line 55: [for (dt = ..; dt <= timeNeighborhood && isPeak; dt++)]. *)
Fixpoint dt_loop (t f : Z) (value : JS.value) (dts : list Z)
    (isPeak : bool) : result bool :=
  match dts with
  | [] => Ok isPeak
  | dt :: dts' =>
      if isPeak then
        let* isPeak' :=
          df_loop t f value dt
            (seqZ (- freqNeighborhood) (2 * freqNeighborhood + 1)) isPeak in
        dt_loop t f value dts' isPeak'
      else Ok isPeak
  end.

(** Lines 46-73: the body of the frequency loop. *)
Definition visit (t : Z) (row : list JS.number) (f : Z) (peaks : list peak)
    : result (list peak) :=
  let value := JS.read row f in
  let isPeak := JS.gt (JS.ToNumber value) threshold in
  let* isPeak :=
    (if isPeak then
       dt_loop t f value
         (seqZ (- timeNeighborhood) (2 * timeNeighborhood + 1)) isPeak
     else Ok isPeak) in
  if isPeak then Ok (peaks ++ [Peak t f value]) else Ok peaks.

(** Line 44: the frequency loop of one row. *)
Fixpoint f_loop (t : Z) (row : list JS.number) (fs : list Z)
    (peaks : list peak) : result (list peak) :=
  match fs with
  | [] => Ok peaks
  | f :: fs' =>
      let* peaks' := visit t row f peaks in
      f_loop t row fs' peaks'
  end.

(** The end of the frequency range,
    [Math.min(maxFreq, spectrogram[t].length - freqNeighborhood)]. *)
Definition freq_bound (row : list JS.number) : Z :=
  Z.min maxFreq (Z.of_nat (length row) - freqNeighborhood).

(** Line 40: the time loop. *)
Fixpoint t_loop (ts : list Z) (peaks : list peak) : result (list peak) :=
  match ts with
  | [] => Ok peaks
  | t :: ts' =>
      match JS.get spec t with
      | None => Err TypeError_row
      | Some row =>
          let* peaks' :=
            f_loop t row (seqZ minFreq (freq_bound row - minFreq)) peaks in
          t_loop ts' peaks'
      end
  end.

Definition findPeaks : result (list peak) :=
  t_loop
    (seqZ timeNeighborhood
       (Z.of_nat (length spec) - timeNeighborhood - timeNeighborhood))
    [].

End FindPeaks.

(** ** The declarative reading of the peak test *)

(** The value at [(t, f)]; [undefined] where the spectrogram has no cell. *)
Definition cell (spec : spectrogram) (t f : Z) : JS.value :=
  match JS.get spec t with
  | Some row => JS.read row f
  | None => JS.undefined
  end.

(** The offsets [-r, ..., r] of a neighborhood of radius [r]. *)
Definition offsets (r : Z) : list Z := seqZ (- r) (2 * r + 1).

Section Declarative.

Variable spec : spectrogram.
Variables minFreq maxFreq : Z.
Variables timeNeighborhood freqNeighborhood : Z.
Variable threshold : JS.number.

(** The neighbor at offset [(dt, df)] disqualifies the candidate: it is
    not the candidate itself and its value is [>=] the candidate's. *)
Definition disqualifies (t f : Z) (value : JS.value) (dt df : Z) : bool :=
  negb ((dt =? 0) && (df =? 0))
  && JS.ge (JS.ToNumber (cell spec (t + dt) (f + df))) (JS.ToNumber value).

(** No neighbor of the full neighborhood disqualifies the candidate;
    every neighbor is looked at. *)
Definition dominant (t f : Z) (value : JS.value) : bool :=
  forallb
    (fun dt =>
       forallb (fun df => negb (disqualifies t f value dt df))
         (offsets freqNeighborhood))
    (offsets timeNeighborhood).

(** The candidate exceeds the threshold and no neighbor disqualifies it. *)
Definition qualifies (t f : Z) : bool :=
  JS.gt (JS.ToNumber (cell spec t f)) threshold
  && dominant t f (cell spec t f).

(** The landmarks of row [t], in increasing frequency. *)
Definition row_landmarks (t : Z) (row : list JS.number) : list peak :=
  (fun f => Peak t f (JS.read row f))
    <$> filter (fun f => qualifies t f = true)
          (seqZ minFreq (freq_bound maxFreq freqNeighborhood row - minFreq)).

Fixpoint rows_landmarks (ts : list Z) : result (list peak) :=
  match ts with
  | [] => Ok []
  | t :: ts' =>
      match JS.get spec t with
      | None => Err TypeError_row
      | Some row =>
          let* rest := rows_landmarks ts' in
          Ok (row_landmarks t row ++ rest)
      end
  end.

(** The detector with the peak test read as a predicate. *)
Definition findPeaks_decl : result (list peak) :=
  rows_landmarks
    (seqZ timeNeighborhood
       (Z.of_nat (length spec) - timeNeighborhood - timeNeighborhood)).

End Declarative.

(** ** The spectrogram builder, [createSpectogram] of spectogram.js *)

(** The external transform ([FFT] of the required package). The program
    constructs one object per call and uses two of its methods. The object
    may keep tables and scratch space of its own ([fft]), and what the
    library does may depend on state that the program does not see
    ([world]). Each of the three entry points may throw. *)
Record Kernel : Type := {
  world : Type;
  fft : Type;
  FFT_new : world -> Z -> option fft;
  createComplexArray : fft -> list JS.number;
  realTransform : fft -> list JS.number -> list JS.number
                  -> option (fft * list JS.number)
}.

(** [for (j = lo; j < hi; j++)] with a body that updates [acc]. *)
Definition for_range {A} (lo hi : Z) (body : Z -> A -> A) (acc : A) : A :=
  foldl (fun a j => body j a) acc (seqZ lo (hi - lo)).

(** The least integer that is not below [w / 2]: the loop
    [for (j = 0; j < windowSize / 2; j++)] runs for [j] below it. *)
Definition ceil_half (w : Z) : Z := (w + 1) / 2.

Section Builder.

(** [Math.cos], which the language leaves to the platform. *)
Variable Math_cos : JS.number -> JS.number.
Variable K : Kernel.

(** Line 39: the coefficient at index [i] of a window of [windowSize]. *)
Definition hamming_coefficient (windowSize i : Z) : JS.number :=
  JS.sub JS.c_0_54
    (JS.mul JS.c_0_46
       (Math_cos
          (JS.div (JS.mul (JS.mul JS.c_2 JS.PI) (JS.of_Z i))
             (JS.of_Z (windowSize - 1))))).

(** Lines 36-40: the Hamming window. *)
Definition hammingWindow (windowSize : Z) : result (list JS.number) :=
  let* hammingWindow := JS.Float32Array_new windowSize in
  Ok (for_range 0 windowSize
        (fun i w => JS.Float32Array_set w i (hamming_coefficient windowSize i))
        hammingWindow).

(** Lines 48-51: the frame at [i], weighted by the window. *)
Definition windowed_frame (audioData hammingWindow : list JS.number)
    (windowSize i : Z) : result (list JS.number) :=
  let* windowData := JS.Float32Array_new windowSize in
  Ok (for_range 0 windowSize
        (fun j w =>
           JS.Float32Array_set w j
             (JS.mul (JS.ToNumber (JS.read audioData (i + j)))
                (JS.ToNumber (JS.read hammingWindow j))))
        windowData).

(** Lines 64-74: the magnitudes of the first half of the spectrum. The
    length [windowSize / 2] of the array is truncated to an integer. *)
Definition magnitude_row (spectrum : list JS.number) (windowSize : Z)
    : result (list JS.number) :=
  let* magnitudes := JS.Float32Array_new (Z.quot windowSize 2) in
  Ok (for_range 0 (ceil_half windowSize)
        (fun j m =>
           let real := JS.ToNumber (JS.read spectrum (2 * j)) in
           let imag := JS.ToNumber (JS.read spectrum (2 * j + 1)) in
           JS.Float32Array_set m j
             (JS.sqrt (JS.add (JS.mul real real) (JS.mul imag imag))))
        magnitudes).

(** Lines 46-78: the body of the frame loop. *)
Definition frame (f : fft K) (audioData hammingWindow : list JS.number)
    (windowSize i : Z) : result (fft K * list JS.number) :=
  let* windowData := windowed_frame audioData hammingWindow windowSize i in
  let spectrum := createComplexArray K f in
  match realTransform K f spectrum windowData with
  | None => Err TransformError
  | Some (f', spectrum') =>
      let* magnitudes := magnitude_row spectrum' windowSize in
      Ok (f', magnitudes)
  end.

(** Line 45: [for (i = 0; i < audioData.length - windowSize; i += hopSize)].
    The loop need not end, so it runs on [fuel]; [None] is "still
    running". *)
Fixpoint frame_loop (fuel : nat) (f : fft K)
    (audioData hammingWindow : list JS.number) (windowSize hopSize i : Z)
    (spectogram : spectrogram) : option (result spectrogram) :=
  if i <? Z.of_nat (length audioData) - windowSize then
    match fuel with
    | O => None
    | S fuel' =>
        match frame f audioData hammingWindow windowSize i with
        | Err e => Some (Err e)
        | Ok (f', magnitudes) =>
            frame_loop fuel' f' audioData hammingWindow windowSize hopSize
              (i + hopSize) (spectogram ++ [magnitudes])
        end
    end
  else Some (Ok spectogram).

Definition createSpectogram (w : world K) (fuel : nat)
    (audioData : list JS.number) (sampleRate windowSize hopSize : Z)
    : option (result spectrogram) :=
  match FFT_new K w windowSize with
  | None => Some (Err TransformError)
  | Some f =>
      match hammingWindow windowSize with
      | Err e => Some (Err e)
      | Ok window =>
          frame_loop fuel f audioData window windowSize hopSize 0 []
      end
  end.

End Builder.

(** The frame starts that the design document counts: the integers
    [start] with [0 <= start < L - W] met in steps of [H] from 0. *)
Definition frame_starts (L W H : Z) : list Z :=
  filter (fun start => start mod H = 0) (seqZ 0 (L - W)).

(** ** The scan region and the neighborhood *)

(** The length of row [t]; 0 where there is no such row. *)
Definition rowLength (spec : spectrogram) (t : Z) : Z :=
  match JS.get spec t with
  | Some row => Z.of_nat (length row)
  | None => 0
  end.

(** The region that the two outer loops scan. *)
Definition in_scan_region (spec : spectrogram)
    (minFreq maxFreq timeNeighborhood freqNeighborhood t f : Z) : Prop :=
  timeNeighborhood <= t < Z.of_nat (length spec) - timeNeighborhood
  /\ minFreq <= f < Z.min maxFreq (rowLength spec t - freqNeighborhood).

(** [(dt, df)] is the offset of a neighbor: within the neighborhood and
    not the candidate itself. *)
Definition neighbor_offset (timeNeighborhood freqNeighborhood dt df : Z) : Prop :=
  - timeNeighborhood <= dt <= timeNeighborhood
  /\ - freqNeighborhood <= df <= freqNeighborhood
  /\ ~ (dt = 0 /\ df = 0).

(** No neighbor holds a value that is [>=] the candidate's. *)
Definition undominated (spec : spectrogram)
    (timeNeighborhood freqNeighborhood t f : Z) (value : JS.value) : Prop :=
  forall dt df,
    neighbor_offset timeNeighborhood freqNeighborhood dt df ->
    JS.ge (JS.ToNumber (cell spec (t + dt) (f + df))) (JS.ToNumber value)
    = false.

(** The rows around row [t] that the scan reads all exist. *)
Definition rows_around (spec : spectrogram) (timeNeighborhood t : Z) : Prop :=
  forall dt, dt ∈ offsets timeNeighborhood -> is_Some (JS.get spec (t + dt)).

(** The landmarks of the rows [ts], row by row. *)
Definition landmarks_of (spec : spectrogram)
    (minFreq maxFreq timeNeighborhood freqNeighborhood : Z)
    (threshold : JS.number) (ts : list Z) : list peak :=
  ts ≫= (fun t =>
    match JS.get spec t with
    | Some row =>
        row_landmarks spec minFreq maxFreq timeNeighborhood freqNeighborhood
          threshold t row
    | None => []
    end).

(** The rows that the time loop visits. *)
Definition scanned_rows (spec : spectrogram) (timeNeighborhood : Z) : list Z :=
  seqZ timeNeighborhood
    (Z.of_nat (length spec) - timeNeighborhood - timeNeighborhood).

(** [p] comes before [q] in the scan: an earlier row, or the same row and
    a lower bin. *)
Definition scan_before (p q : peak) : Prop :=
  time p < time q \/ (time p = time q /\ freq p < freq q).

(** ** Readings of the peak test *)

(** Every neighbor position holds a value, and that value is strictly
    less than the candidate's: the peak test as the design document words
    it, [spectrogram[t+dt][f+df] < value] at every offset. *)
Definition neighbors_strictly_less (spec : spectrogram)
    (timeNeighborhood freqNeighborhood t f : Z) (value : JS.value) : Prop :=
  forall dt df,
    neighbor_offset timeNeighborhood freqNeighborhood dt df ->
    exists x,
      cell spec (t + dt) (f + df) = JS.Num x
      /\ JS.lt x (JS.ToNumber value) = true.

(** Every neighbor cell that exists and holds a number other than NaN is
    strictly less than the candidate. *)
Definition present_neighbors_strictly_less (spec : spectrogram)
    (timeNeighborhood freqNeighborhood t f : Z) (value : JS.value) : Prop :=
  forall dt df x,
    neighbor_offset timeNeighborhood freqNeighborhood dt df ->
    cell spec (t + dt) (f + df) = JS.Num x ->
    x <> JS.NaN ->
    JS.lt x (JS.ToNumber value) = true.

(** Every neighbor position of [(t, f)] holds a number: none lies outside
    the spectrogram and none holds NaN. *)
Definition full_neighborhood (spec : spectrogram)
    (timeNeighborhood freqNeighborhood t f : Z) : Prop :=
  forall dt df,
    neighbor_offset timeNeighborhood freqNeighborhood dt df ->
    exists x, cell spec (t + dt) (f + df) = JS.Num x /\ x <> JS.NaN.

(** Every row of the spectrogram has [bins] values. *)
Definition uniform (spec : spectrogram) (bins : Z) : Prop :=
  Forall (fun row => Z.of_nat (length row) = bins) spec.

(** No cell of the spectrogram is NaN. *)
Definition no_NaN (spec : spectrogram) : Prop :=
  forall t f, cell spec t f <> JS.Num JS.NaN.

(** NaN, or a number with the sign bit [s]. *)
Definition has_sign (s : bool) (x : JS.number) : Prop :=
  match x with
  | S754_nan => True
  | S754_zero s' | S754_infinity s' | S754_finite s' _ _ => s' = s
  end.

(** The cell at [(t, f)] exceeds the threshold and strictly exceeds every
    other value within its neighborhood. *)
Definition spike (spec : spectrogram) (timeNeighborhood freqNeighborhood : Z)
    (threshold : JS.number) (t f : Z) : Prop :=
  JS.gt (JS.ToNumber (cell spec t f)) threshold = true
  /\ forall dt df x,
       neighbor_offset timeNeighborhood freqNeighborhood dt df ->
       cell spec (t + dt) (f + df) = JS.Num x ->
       JS.gt (JS.ToNumber (cell spec t f)) x = true.

(** ** The transform and the frame starts *)

(** The transform never throws. *)
Definition transform_total (K : Kernel) : Prop :=
  forall f out data, is_Some (realTransform K f out data).

(** The frame starts that remain from [i] on. *)
Definition starts_from (L W H i : Z) : list Z :=
  filter (fun start => start mod H = 0) (seqZ i (L - W - i)).

(** The transform is a deterministic function of its input: whether the
    constructor accepts a size, the array that [createComplexArray]
    returns and the spectrum that [realTransform] writes are functions of
    the size and of the arrays passed in, whatever the state of the
    library ([world]) and of the object ([fft]). *)
Definition deterministic (K : Kernel) : Prop :=
  exists (built_for : Z -> fft K -> Prop)
         (accepts : Z -> bool)
         (fresh : Z -> list JS.number)
         (transform : Z -> list JS.number -> list JS.number
                      -> option (list JS.number)),
    (forall w size,
       match FFT_new K w size with
       | Some f => accepts size = true /\ built_for size f
       | None => accepts size = false
       end)
    /\ (forall size f, built_for size f -> createComplexArray K f = fresh size)
    /\ (forall size f out data,
          built_for size f ->
          match realTransform K f out data with
          | Some (f', out') =>
              built_for size f' /\ transform size out data = Some out'
          | None => transform size out data = None
          end).

(** One run of the pipeline: build the spectrogram, then detect. *)
Definition build_then_detect (cos : JS.number -> JS.number) (K : Kernel)
    (w : world K) (fuel : nat) (audioData : list JS.number)
    (sampleRate windowSize hopSize minFreq maxFreq tN fN : Z)
    (threshold : JS.number) : option (result (list peak)) :=
  match createSpectogram cos K w fuel audioData sampleRate windowSize hopSize with
  | None => None
  | Some (Err e) => Some (Err e)
  | Some (Ok spec) => Some (findPeaks spec minFreq maxFreq tN fN threshold)
  end.

(** ** The window, as designed and as stored *)

(** What the language fixes about [Math.cos]: its values at NaN, at the
    infinities and at the two zeros. Everywhere else the result is an
    approximation that the platform chooses. *)
Definition ECMAScript_cos (cos : JS.number -> JS.number) : Prop :=
  cos JS.NaN = JS.NaN
  /\ (forall s, cos (S754_infinity s) = JS.NaN)
  /\ (forall s, cos (S754_zero s) = JS.c_1).

(** Neither NaN nor an infinity. *)
Definition isFinite (x : JS.number) : bool :=
  match x with
  | S754_zero _ | S754_finite _ _ _ => true
  | S754_infinity _ | S754_nan => false
  end.

(** A binary64 number between -1 and 1. *)
Definition in_unit_range (c : JS.number) : Prop :=
  valid_binary JS.prec JS.emax c = true
  /\ JS.ge c (SFopp JS.c_1) = true
  /\ JS.ge JS.c_1 c = true.

(** What a cosine does beyond the fixed values, whatever its last digits:
    at an argument that is neither NaN nor infinite its result is a number
    between -1 and 1. *)
Definition cos_in_range (cos : JS.number -> JS.number) : Prop :=
  forall x, isFinite x = true -> in_unit_range (cos x).

(** The first coefficient as the array holds it: the binary32 number
    next below 0.08, 0.07999999821186066. *)
Definition first_coefficient : JS.number :=
  S754_finite false 0x147ae140000000 (-56).

(** All the values of a window lie in [0.08, 1.0]. *)
Definition in_hamming_range (w : list JS.number) : Prop :=
  Forall (fun x => JS.ge x JS.c_0_08 = true /\ JS.ge JS.c_1 x = true) w.

(** All the values of a window lie in [0.07999999821186066, 1.0]. *)
Definition in_stored_range (w : list JS.number) : Prop :=
  Forall (fun x => JS.ge x first_coefficient = true /\ JS.ge JS.c_1 x = true) w.

(** *** Line 39 in two arithmetics *)

(** The operations and the constants that line 39 uses, over a type of
    numbers. *)
Record arithmetic (N : Type) : Type := {
  a_sub : N -> N -> N;
  a_mul : N -> N -> N;
  a_div : N -> N -> N;
  a_cos : N -> N;
  a_of_Z : Z -> N;
  a_0_54 : N;
  a_0_46 : N;
  a_2 : N;
  a_PI : N
}.
Arguments a_sub {N} _ _ _.
Arguments a_mul {N} _ _ _.
Arguments a_div {N} _ _ _.
Arguments a_cos {N} _ _.
Arguments a_of_Z {N} _ _.
Arguments a_0_54 {N} _.
Arguments a_0_46 {N} _.
Arguments a_2 {N} _.
Arguments a_PI {N} _.

(** [2 * Math.PI * i / (windowSize - 1)], the argument of the cosine. *)
Definition angle_expression {N} (A : arithmetic N) (windowSize i : Z) : N :=
  a_div A (a_mul A (a_mul A (a_2 A) (a_PI A)) (a_of_Z A i))
    (a_of_Z A (windowSize - 1)).

(** [0.54 - 0.46 * Math.cos(2 * Math.PI * i / (windowSize - 1))] *)
Definition coefficient_expression {N} (A : arithmetic N) (windowSize i : Z)
    : N :=
  a_sub A (a_0_54 A)
    (a_mul A (a_0_46 A) (a_cos A (angle_expression A windowSize i))).

(** The arithmetic of the program: binary64, with the cosine of the
    platform. *)
Definition binary64 (Math_cos : JS.number -> JS.number)
    : arithmetic JS.number := {|
  a_sub := JS.sub;
  a_mul := JS.mul;
  a_div := JS.div;
  a_cos := Math_cos;
  a_of_Z := JS.of_Z;
  a_0_54 := JS.c_0_54;
  a_0_46 := JS.c_0_46;
  a_2 := JS.c_2;
  a_PI := JS.PI
|}.

(** The arithmetic of the design document: the real numbers. *)
Definition reals : arithmetic R := {|
  a_sub := Rminus;
  a_mul := Rmult;
  a_div := Rdiv;
  a_cos := cos;
  a_of_Z := IZR;
  a_0_54 := 0.54%R;
  a_0_46 := 0.46%R;
  a_2 := 2%R;
  a_PI := PI
|}.

(** *** Numbers as real numbers *)

Definition bpow (e : Z) : R := powerRZ 2 e.

(** The real number [m * 2^e]: what [S754_finite false m e] denotes. *)
Definition F2R (m e : Z) : R := (IZR m * bpow e)%R.

(** [x] is what the rounding to a format gives for the sign [s] and a
    magnitude whose rounded value is [v]: a zero, a number of the format
    that denotes [v], or an infinity when [v] is beyond the format. *)
Definition rounds_to (prec emax : Z) (x : spec_float) (s : bool) (v : R)
    : Prop :=
  (x = S754_zero s /\ v = 0%R)
  \/ (exists m e, x = S754_finite s m e
                  /\ bounded prec emax m e = true
                  /\ F2R (Zpos m) e = v)
  \/ (x = S754_infinity s /\ (bpow emax <= v)%R).

(** ** Reading the samples, [readAudioFile] of preprocessing.js *)

(** A byte of a [Buffer], as the integer it holds. *)
Definition byte_Z (b : Byte.byte) : Z := Z.of_N (Byte.to_N b).

(** [buffer.readInt16LE(offset)]: the signed 16-bit integer whose low byte
    is at [offset] and whose high byte follows ([val | (val & 2**15) *
    0x1fffe] in Node, which takes 65536 off a [val] of 32768 or more); a
    [RangeError] when one of the two bytes is not in the buffer. *)
Definition readInt16LE (buffer : list Byte.byte) (offset : Z) : result Z :=
  match JS.get buffer offset, JS.get buffer (offset + 1) with
  | Some low, Some high =>
      let val := byte_Z low + byte_Z high * 256 in
      Ok (if val <? 32768 then val else val - 65536)
  | _, _ => Err RangeError
  end.

(** The literal [32768.0]. *)
Definition c_32768 : JS.number := S754_finite false 0x10000000000000 (-37).

(** Lines 108-112: [for (i = 0; i < floatData.length; i++)], over the
    values [indices] that [i] still has to take. *)
Fixpoint convert_loop (buffer : list Byte.byte) (indices : list Z)
    (floatData : list JS.number) : result (list JS.number) :=
  match indices with
  | [] => Ok floatData
  | i :: indices' =>
      let* sample := readInt16LE buffer (i * 2) in
      convert_loop buffer indices'
        (JS.Float32Array_set floatData i (JS.div (JS.of_Z sample) c_32768))
  end.

(** What the promise resolves with. *)
Record audio : Type := Audio {
  sampleRate : Z;
  data : list JS.number
}.

(** Lines 100-119: the handler of ['end'], on the sample rate of the
    format and the chunks collected so far. The length of the array,
    [buffer.length / 2], is truncated to an integer. *)
Definition readAudioFile_end (format_sampleRate : Z)
    (audioData : list (list Byte.byte)) : result audio :=
  let buffer := concat audioData in
  let* floatData := JS.Float32Array_new (Z.quot (Z.of_nat (length buffer)) 2) in
  let* floatData :=
    convert_loop buffer (seqZ 0 (Z.of_nat (length floatData))) floatData in
  Ok (Audio format_sampleRate floatData).

(** The 16-bit sample of index [i]: the integer that the bytes [2 * i] and
    [2 * i + 1] hold; 0 where the buffer has no such bytes. *)
Definition int16_at (buffer : list Byte.byte) (i : Z) : Z :=
  match readInt16LE buffer (i * 2) with
  | Ok sample => sample
  | Err _ => 0
  end.

(** The real number that a number denotes; 0 for what is no number. *)
Definition to_R (x : JS.number) : R :=
  match x with
  | S754_finite s m e => if s then (- F2R (Zpos m) e)%R else F2R (Zpos m) e
  | _ => 0%R
  end.

(** ** Stand-ins for the platform and examples *)

(** A function with these values, and 1 at every other argument. It stands
    for the platform's cosine where only the fixed values are looked at. *)
Definition cos_fixed_values (x : JS.number) : JS.number :=
  match x with
  | S754_zero _ | S754_finite _ _ _ => JS.c_1
  | S754_infinity _ | S754_nan => JS.NaN
  end.

(** The window of 59168 coefficients, at the indices 19370 and
    39797 = 59167 - 19370. The two arguments of the cosine, as binary64
    computes them, are 2.0569793871595414 and 4.226205920020044. *)
Definition angle_19370 : JS.number := S754_finite false 0x1074b19be32bbb (-51).
Definition angle_39797 : JS.number := S754_finite false 0x10e7a28652973a (-50).

(** The cosines of these two numbers are -0.4672546568124184522873... and
    -0.4672546568124190614643...; the binary64 numbers nearest to them
    are -0.46725465681241846 and -0.46725465681241907. *)
Definition cos_19370 : JS.number := S754_finite true 0x1de780137a6f43 (-54).
Definition cos_39797 : JS.number := S754_finite true 0x1de780137a6f4e (-54).

(** [x] is the negative number of mantissa [m] or one of its two
    neighbors. *)
Definition within_one_ulp (x : JS.number) (m : positive) (e : Z) : Prop :=
  x = S754_finite true (m - 1) e
  \/ x = S754_finite true m e
  \/ x = S754_finite true (m + 1) e.

(** A cosine whose error at the two arguments is at most one unit in the
    last place. *)
Definition faithful_at_59168 (cos : JS.number -> JS.number) : Prop :=
  within_one_ulp (cos angle_19370) 0x1de780137a6f43 (-54)
  /\ within_one_ulp (cos angle_39797) 0x1de780137a6f4e (-54).

Definition is_number (x y : JS.number) : bool :=
  match x, y with
  | S754_finite sx mx ex, S754_finite sy my ey =>
      Bool.eqb sx sy && (mx =? my)%positive && (ex =? ey)
  | _, _ => false
  end.

(** A function with the nearest values at the two arguments, and the
    values of [cos_fixed_values] elsewhere. *)
Definition cos_nearest_at_59168 (x : JS.number) : JS.number :=
  if is_number x angle_19370 then cos_19370
  else if is_number x angle_39797 then cos_39797
  else cos_fixed_values x.

(** A transform to run the builder on: its constructor takes the sizes
    that are powers of two above 1, and it returns every sample as the
    real part of a bin. Its object counts the transforms it has done,
    starting from a number that the state of the library gives: hidden
    state that changes from run to run and call to call. *)
Definition power_of_two_above_1 (size : Z) : bool :=
  (1 <? size) && (Z.land size (size - 1) =? 0).

Definition passthrough : Kernel := {|
  world := nat;
  fft := Z * nat;
  FFT_new := fun w size =>
    if power_of_two_above_1 size then Some (size, w) else None;
  createComplexArray := fun f =>
    replicate (Z.to_nat (2 * fst f)) (S754_zero false);
  realTransform := fun f out data =>
    Some ((fst f, S (snd f)), data ≫= (fun x => [x; S754_zero false]))
|}.

(** A small integer as a number. *)
Definition num (z : Z) : JS.number := JS.of_Z z.

Definition six_samples : list JS.number :=
  [num 1; num 2; num 3; num 4; num 5; num 6].

(** Seven samples: three frames of size 2 at hop 2. *)
Definition seven_samples : list JS.number :=
  [num 1; num 2; num 5; num 4; num 3; num 6; num 7].

(** Row 0 is shorter than row 1. *)
Definition ragged : spectrogram :=
  [ [num 0; num 0];
    [num 0; num 0; num 5; num 0];
    [num 0; num 0; num 0; num 0] ].

(** One row, its maximum in the lowest bin. *)
Definition low_edge : spectrogram := [ [num 1; num 0; num 0] ].

(** A single spike, in the first row. *)
Definition edge_spike : spectrogram :=
  [ [num 0; num 9; num 0];
    [num 0; num 0; num 0];
    [num 0; num 0; num 0] ].

(** A single spike, in the interior. *)
Definition one_spike : spectrogram :=
  [ [num 0; num 0; num 0; num 0];
    [num 0; num 9; num 0; num 0];
    [num 0; num 0; num 0; num 0] ].

(** Two equal maxima side by side. *)
Definition tied : spectrogram :=
  [ [num 0; num 0; num 0; num 0];
    [num 0; num 7; num 7; num 0];
    [num 0; num 0; num 0; num 0] ].

(** Two equal maxima one above the other. *)
Definition stacked : spectrogram :=
  [ [num 0; num 7; num 0];
    [num 0; num 7; num 0] ].

(** A recording in three chunks: the first sample lies across two chunks,
    the last byte is half a sample. *)
Definition three_chunks : list (list Byte.byte) :=
  [[Byte.x00]; [Byte.x80; Byte.xff]; [Byte.x7f; Byte.x01]].

(** * Properties *)

(** ** The literals *)

(** The literals are the binary64 numbers that the program text denotes:
    the decimal ones are the correctly rounded quotients, [Math.PI] lies
    between 3.14159265358979 and 3.14159265358980. *)
Lemma literals_exact :
  JS.div (JS.of_Z 54) (JS.of_Z 100) = JS.c_0_54
  /\ JS.div (JS.of_Z 46) (JS.of_Z 100) = JS.c_0_46
  /\ JS.div (JS.of_Z 8) (JS.of_Z 100) = JS.c_0_08
  /\ JS.div (JS.of_Z 1) (JS.of_Z 2) = JS.c_0_5
  /\ JS.of_Z 1 = JS.c_1
  /\ JS.of_Z 2 = JS.c_2
  /\ valid_binary JS.prec JS.emax JS.PI = true
  /\ JS.lt (JS.div (JS.of_Z 314159265358979) (JS.of_Z 100000000000000)) JS.PI
     = true
  /\ JS.lt JS.PI (JS.div (JS.of_Z 314159265358980) (JS.of_Z 100000000000000))
     = true.
Proof. repeat split; now vm_compute. Qed.

(** ** Array reads *)

Lemma get_Some_bounds {A} (a : list A) (i : Z) (x : A) :
  JS.get a i = Some x -> 0 <= i < Z.of_nat (length a).
Proof.
  unfold JS.get. destruct (Z.ltb_spec i 0) as [Hneg | Hpos]; [discriminate |].
  intros Hx. apply lookup_lt_Some in Hx. lia.
Qed.

Lemma get_is_Some {A} (a : list A) (i : Z) :
  is_Some (JS.get a i) <-> 0 <= i < Z.of_nat (length a).
Proof.
  split.
  - intros [x Hx]. eapply get_Some_bounds, Hx.
  - intros [Hlo Hhi]. unfold JS.get.
    destruct (Z.ltb_spec i 0) as [Hneg | _]; [lia |].
    apply lookup_lt_is_Some. lia.
Qed.

Lemma get_None {A} (a : list A) (i : Z) :
  JS.get a i = None <-> i < 0 \/ Z.of_nat (length a) <= i.
Proof.
  rewrite eq_None_not_Some, get_is_Some. lia.
Qed.

Lemma cell_row (spec : spectrogram) (t f : Z) (row : list JS.number) :
  JS.get spec t = Some row -> cell spec t f = JS.read row f.
Proof. unfold cell. intros ->. reflexivity. Qed.

(** ** The neighbor scan computes the declarative predicate *)

Section Refinement.

Variable spec : spectrogram.
Variables minFreq maxFreq : Z.
Variables timeNeighborhood freqNeighborhood : Z.
Variable threshold : JS.number.

Lemma compare_neighbor_decl t f value dt df isPeak :
  is_Some (JS.get spec (t + dt)) ->
  compare_neighbor spec t f value dt df isPeak
  = Ok (isPeak && negb (disqualifies spec t f value dt df)).
Proof.
  intros [row Hrow]. unfold compare_neighbor, disqualifies.
  rewrite (cell_row _ _ _ _ Hrow), Hrow.
  destruct ((dt =? 0) && (df =? 0)); simpl.
  - now rewrite andb_true_r.
  - destruct (JS.ge _ _); simpl; [now rewrite andb_false_r | now rewrite andb_true_r].
Qed.

Lemma df_loop_decl t f value dt dfs isPeak :
  is_Some (JS.get spec (t + dt)) ->
  df_loop spec t f value dt dfs isPeak
  = Ok (isPeak
        && forallb (fun df => negb (disqualifies spec t f value dt df)) dfs).
Proof.
  intros Hrow. revert isPeak.
  induction dfs as [| df dfs IH]; intros isPeak; simpl.
  - now rewrite andb_true_r.
  - destruct isPeak; [| reflexivity].
    rewrite compare_neighbor_decl by assumption. simpl. apply IH.
Qed.

Lemma dt_loop_decl t f value dts isPeak :
  (forall dt, dt ∈ dts -> is_Some (JS.get spec (t + dt))) ->
  dt_loop spec freqNeighborhood t f value dts isPeak
  = Ok (isPeak
        && forallb
             (fun dt =>
                forallb (fun df => negb (disqualifies spec t f value dt df))
                  (offsets freqNeighborhood))
             dts).
Proof.
  revert isPeak.
  induction dts as [| dt dts IH]; intros isPeak Hrows; simpl.
  - now rewrite andb_true_r.
  - destruct isPeak; [| reflexivity].
    rewrite df_loop_decl by (apply Hrows; left).
    simpl. fold (offsets freqNeighborhood). apply IH.
    intros dt' Hin. apply Hrows. now right.
Qed.

Lemma visit_decl t row f peaks :
  JS.get spec t = Some row ->
  rows_around spec timeNeighborhood t ->
  visit spec timeNeighborhood freqNeighborhood threshold t row f peaks
  = Ok (if qualifies spec timeNeighborhood freqNeighborhood threshold t f
        then peaks ++ [Peak t f (JS.read row f)]
        else peaks).
Proof.
  intros Hrow Hrows. unfold visit, qualifies, dominant.
  rewrite (cell_row _ _ _ _ Hrow).
  destruct (JS.gt _ threshold); simpl; [| reflexivity].
  fold (offsets timeNeighborhood).
  rewrite dt_loop_decl by exact Hrows. simpl.
  now destruct (forallb _ _).
Qed.

Lemma f_loop_decl t row fs peaks :
  JS.get spec t = Some row ->
  rows_around spec timeNeighborhood t ->
  f_loop spec timeNeighborhood freqNeighborhood threshold t row fs peaks
  = Ok (peaks
        ++ ((fun f => Peak t f (JS.read row f))
              <$> filter
                    (fun f =>
                       qualifies spec timeNeighborhood freqNeighborhood
                         threshold t f = true)
                    fs)).
Proof.
  intros Hrow Hrows. revert peaks.
  induction fs as [| f fs IH]; intros peaks; simpl.
  - now rewrite app_nil_r.
  - rewrite visit_decl by assumption. simpl. rewrite IH, filter_cons.
    destruct (qualifies _ _ _ _ t f) eqn:Hq.
    + rewrite decide_True by reflexivity. now rewrite <- app_assoc.
    + rewrite decide_False by discriminate. reflexivity.
Qed.

Lemma t_loop_decl ts peaks :
  (forall t, t ∈ ts -> is_Some (JS.get spec t) ->
   rows_around spec timeNeighborhood t) ->
  t_loop spec minFreq maxFreq timeNeighborhood freqNeighborhood threshold
    ts peaks
  = let* found :=
      rows_landmarks spec minFreq maxFreq timeNeighborhood freqNeighborhood
        threshold ts in
    Ok (peaks ++ found).
Proof.
  revert peaks.
  induction ts as [| t ts IH]; intros peaks Hts; simpl.
  - now rewrite app_nil_r.
  - destruct (JS.get spec t) as [row |] eqn:Hrow; [| reflexivity].
    rewrite f_loop_decl; [| assumption | apply Hts; [left | eauto]].
    simpl. rewrite IH by (intros t' Hin; apply Hts; now right).
    unfold row_landmarks.
    destruct (rows_landmarks _ _ _ _ _ _ ts); simpl; [| reflexivity].
    now rewrite app_assoc.
Qed.

(** Around every row of the scanned time range the neighbor rows exist:
    the range keeps [timeNeighborhood] rows away from both ends. *)
Lemma scanned_rows_around t :
  t ∈ seqZ timeNeighborhood
        (Z.of_nat (length spec) - timeNeighborhood - timeNeighborhood) ->
  rows_around spec timeNeighborhood t.
Proof.
  intros Ht dt Hdt. unfold offsets in Hdt.
  apply elem_of_seqZ in Ht. apply elem_of_seqZ in Hdt.
  apply get_is_Some. lia.
Qed.

Lemma findPeaks_findPeaks_decl :
  findPeaks spec minFreq maxFreq timeNeighborhood freqNeighborhood threshold
  = findPeaks_decl spec minFreq maxFreq timeNeighborhood freqNeighborhood
      threshold.
Proof.
  unfold findPeaks, findPeaks_decl.
  rewrite t_loop_decl by (intros t Ht _; now apply scanned_rows_around).
  destruct (rows_landmarks _ _ _ _ _ _ _); reflexivity.
Qed.

End Refinement.

(** ** Comparisons *)

Lemma gt_is_number (x y : JS.number) : JS.gt x y = true -> x <> JS.NaN.
Proof.
  unfold JS.gt, JS.IsLessThan. intros H ->.
  destruct y; simpl in H; discriminate.
Qed.

Lemma SFcompare_refl (x : JS.number) : x <> JS.NaN -> SFcompare x x = Some Eq.
Proof.
  destruct x as [s | s | | s m e]; intros Hx; simpl;
    try (destruct s; reflexivity); [now contradict Hx |].
  rewrite Z.compare_refl, Pos.compare_cont_refl. now destruct s.
Qed.

Lemma SFcompare_Eq_sym (x y : JS.number) :
  SFcompare x y = Some Eq -> SFcompare y x = Some Eq.
Proof.
  destruct x as [s1 | s1 | | s1 m1 e1], y as [s2 | s2 | | s2 m2 e2]; simpl;
    try discriminate; try reflexivity;
    try (destruct s1; discriminate); try (destruct s2; discriminate);
    try (destruct s1, s2; (reflexivity || discriminate)).
  intros H.
  assert (e1 = e2 /\ m1 = m2) as [-> ->].
  { destruct s1, s2; try discriminate;
      (destruct (Z.compare_spec e1 e2); try discriminate);
      (split; [assumption |]).
    - destruct (Pos.compare_cont Eq m1 m2) eqn:Hm; try discriminate.
      now apply Pos.compare_eq.
    - injection H as H. now apply Pos.compare_eq. }
  rewrite Z.compare_refl, Pos.compare_cont_refl. now destruct s1, s2.
Qed.

(** Values that compare equal disqualify each other. *)
Lemma ge_of_equal (x y : JS.number) : SFcompare x y = Some Eq -> JS.ge x y = true.
Proof. unfold JS.ge, JS.IsLessThan. now intros ->. Qed.

(** [x >= y] fails exactly when [x < y] or one of the two is NaN. *)
Lemma ge_false_iff (x y : JS.number) :
  JS.ge x y = false <-> x = JS.NaN \/ y = JS.NaN \/ JS.lt x y = true.
Proof.
  assert (Hnan : forall z, SFcompare z JS.NaN = None) by (now intros []).
  unfold JS.ge, JS.lt, JS.IsLessThan.
  destruct (SFcompare x y) as [[| |] |] eqn:Hc.
  - split; [discriminate |].
    intros [Hx | [Hy | H]]; [subst x | subst y | discriminate].
    + discriminate.
    + now rewrite Hnan in Hc.
  - split; auto.
  - split; [discriminate |].
    intros [Hx | [Hy | H]]; [subst x | subst y | discriminate].
    + discriminate.
    + now rewrite Hnan in Hc.
  - split; [intros _ | reflexivity].
    destruct x; auto; destruct y; auto; discriminate.
Qed.

(** ** The neighborhood and the scan region *)

Lemma elem_of_offsets (r d : Z) : d ∈ offsets r <-> - r <= d <= r.
Proof. unfold offsets. rewrite elem_of_seqZ. lia. Qed.

Lemma dominant_iff spec tN fN t f value :
  dominant spec tN fN t f value = true <-> undominated spec tN fN t f value.
Proof.
  unfold dominant, undominated, neighbor_offset, disqualifies.
  rewrite forallb_forall. split.
  - intros H dt df (Hdt & Hdf & Hne).
    specialize (H dt). rewrite <- list_elem_of_In, elem_of_offsets in H.
    specialize (H Hdt). rewrite forallb_forall in H.
    specialize (H df). rewrite <- list_elem_of_In, elem_of_offsets in H.
    specialize (H Hdf). apply negb_true_iff, andb_false_iff in H.
    destruct H as [H | H]; [| exact H].
    apply negb_false_iff, andb_true_iff in H. lia.
  - intros H dt Hdt. rewrite <- list_elem_of_In, elem_of_offsets in Hdt.
    apply forallb_forall. intros df Hdf.
    rewrite <- list_elem_of_In, elem_of_offsets in Hdf.
    apply negb_true_iff, andb_false_iff.
    destruct (Z.eqb_spec dt 0) as [-> |]; [destruct (Z.eqb_spec df 0) as [-> |] |]; simpl;
      [now left | right; apply H; lia | right; apply H; lia].
Qed.

(** ** What the detector returns *)

Section Detector.

Variable spec : spectrogram.
Variables minFreq maxFreq : Z.
Variables timeNeighborhood freqNeighborhood : Z.
Variable threshold : JS.number.

Lemma rows_landmarks_total ts :
  (forall t, t ∈ ts -> is_Some (JS.get spec t)) ->
  rows_landmarks spec minFreq maxFreq timeNeighborhood freqNeighborhood
    threshold ts
  = Ok (landmarks_of spec minFreq maxFreq timeNeighborhood freqNeighborhood
          threshold ts).
Proof.
  induction ts as [| t ts IH]; intros Hts; [reflexivity |].
  simpl. destruct (Hts t) as [row Hrow]; [left |].
  rewrite IH by (intros t' Hin; apply Hts; now right).
  unfold landmarks_of. simpl. now rewrite Hrow.
Qed.

Lemma scanned_rows_exist t :
  0 <= timeNeighborhood ->
  t ∈ scanned_rows spec timeNeighborhood -> is_Some (JS.get spec t).
Proof.
  intros HtN Ht. apply elem_of_seqZ in Ht. apply get_is_Some. lia.
Qed.

(** With a time radius that is not negative the detector returns, and
    returns the landmarks of the scanned rows in scan order. *)
Lemma findPeaks_total :
  0 <= timeNeighborhood ->
  findPeaks spec minFreq maxFreq timeNeighborhood freqNeighborhood threshold
  = Ok (landmarks_of spec minFreq maxFreq timeNeighborhood freqNeighborhood
          threshold (scanned_rows spec timeNeighborhood)).
Proof.
  intros HtN. rewrite findPeaks_findPeaks_decl. unfold findPeaks_decl.
  apply rows_landmarks_total. intros t Ht. now apply scanned_rows_exist.
Qed.

Lemma elem_of_landmarks t f value :
  0 <= timeNeighborhood ->
  Peak t f value
    ∈ landmarks_of spec minFreq maxFreq timeNeighborhood freqNeighborhood
        threshold (scanned_rows spec timeNeighborhood)
  <-> in_scan_region spec minFreq maxFreq timeNeighborhood freqNeighborhood
        t f
      /\ value = cell spec t f
      /\ JS.gt (JS.ToNumber value) threshold = true
      /\ undominated spec timeNeighborhood freqNeighborhood t f value.
Proof.
  intros HtN. unfold landmarks_of, in_scan_region, rowLength.
  rewrite list_elem_of_bind. split.
  - intros (t' & Hin & Ht').
    destruct (scanned_rows_exist t' HtN Ht') as [row Hrow].
    rewrite Hrow in Hin. unfold row_landmarks in Hin.
    apply list_elem_of_fmap in Hin as (f' & Heq & Hf').
    injection Heq as -> -> ->.
    apply list_elem_of_filter in Hf' as [Hq Hf'].
    apply elem_of_seqZ in Hf'. apply elem_of_seqZ in Ht'.
    unfold freq_bound in Hf'. rewrite Hrow.
    unfold qualifies in Hq. apply andb_true_iff in Hq as [Hgt Hdom].
    rewrite (cell_row _ _ _ _ Hrow) in Hgt, Hdom.
    rewrite dominant_iff in Hdom.
    rewrite (cell_row _ _ _ _ Hrow).
    repeat split; (lia || assumption).
  - intros ((Ht & Hf) & -> & Hgt & Hdom).
    exists t. assert (Hin : t ∈ scanned_rows spec timeNeighborhood)
      by (apply elem_of_seqZ; lia).
    split; [| exact Hin].
    destruct (scanned_rows_exist t HtN Hin) as [row Hrow].
    rewrite Hrow in Hf |- *. unfold row_landmarks.
    apply list_elem_of_fmap. exists f.
    rewrite (cell_row _ _ _ _ Hrow). split; [reflexivity |].
    apply list_elem_of_filter. split.
    + unfold qualifies. apply andb_true_iff. split; [exact Hgt |].
      now apply dominant_iff.
    + apply elem_of_seqZ. unfold freq_bound. lia.
Qed.

End Detector.

(** ** Statements about neighbors *)

Lemma undominated_iff_present spec tN fN t f value :
  JS.ToNumber value <> JS.NaN ->
  undominated spec tN fN t f value
  <-> present_neighbors_strictly_less spec tN fN t f value.
Proof.
  intros Hvalue. unfold undominated, present_neighbors_strictly_less. split.
  - intros H dt df x Hoff Hcell Hx. specialize (H dt df Hoff).
    rewrite Hcell in H. simpl in H.
    apply ge_false_iff in H as [H | [H | H]]; [contradiction | contradiction | exact H].
  - intros H dt df Hoff. apply ge_false_iff.
    destruct (cell spec (t + dt) (f + df)) as [| x] eqn:Hcell; [now left |].
    simpl. destruct x as [s | s | | s m e] eqn:Hx; [| | now left |];
      right; right; rewrite <- Hx; (eapply H; [exact Hoff | now rewrite Hcell, Hx | now rewrite Hx]).
Qed.

Lemma undominated_iff_spike spec tN fN thr t f :
  no_NaN spec ->
  JS.gt (JS.ToNumber (cell spec t f)) thr = true
  /\ undominated spec tN fN t f (cell spec t f)
  <-> spike spec tN fN thr t f.
Proof.
  intros Hnan. unfold spike. split.
  - intros [Hgt Hdom]. split; [exact Hgt |].
    apply undominated_iff_present in Hdom; [| eapply gt_is_number, Hgt].
    intros dt df x Hoff Hcell. unfold JS.gt. fold (JS.lt x (JS.ToNumber (cell spec t f))).
    eapply Hdom; [exact Hoff | exact Hcell |].
    intros ->. now apply (Hnan (t + dt) (f + df)).
  - intros [Hgt Hall]. split; [exact Hgt |].
    apply undominated_iff_present; [eapply gt_is_number, Hgt |].
    intros dt df x Hoff Hcell _. apply (Hall dt df x Hoff Hcell).
Qed.

(** In a spectrogram whose rows have one length and hold no NaN, scanned
    from a lowest bin that is not below the frequency radius, every
    position of the scan region has its whole neighborhood. *)
Lemma scan_region_full_neighborhood spec bins minFreq maxFreq tN fN t f :
  uniform spec bins -> no_NaN spec -> fN <= minFreq ->
  in_scan_region spec minFreq maxFreq tN fN t f ->
  full_neighborhood spec tN fN t f.
Proof.
  intros Hrows Hnan Hlow [Ht Hf] dt df (Hdt & Hdf & _).
  assert (Hlen : forall u, 0 <= u < Z.of_nat (length spec) ->
                           rowLength spec u = bins).
  { intros u Hu. unfold rowLength.
    destruct (proj2 (get_is_Some spec u) Hu) as [row Hrow]. rewrite Hrow.
    unfold JS.get in Hrow. destruct (u <? 0); [discriminate |].
    apply list_elem_of_lookup_2 in Hrow.
    unfold uniform in Hrows. rewrite Forall_forall in Hrows.
    now apply Hrows. }
  pose proof (Hlen t ltac:(lia)) as Hbins.
  pose proof (Hlen (t + dt) ltac:(lia)) as Hbins'.
  unfold rowLength in Hbins'. unfold cell.
  destruct (JS.get spec (t + dt)) as [row |] eqn:Hrow.
  - destruct (proj2 (get_is_Some row (f + df))) as [x Hx]; [lia |].
    exists x. unfold JS.read. rewrite Hx. split; [reflexivity |].
    intros ->. apply (Hnan (t + dt) (f + df)).
    unfold cell, JS.read. now rewrite Hrow, Hx.
  - apply get_None in Hrow. lia.
Qed.

(** A list without repetition whose members all equal [x], and that has
    [x], is [[x]]. *)
Lemma NoDup_all_equal {A} (l : list A) (x : A) :
  NoDup l -> x ∈ l -> (forall y, y ∈ l -> y = x) -> l = [x].
Proof.
  intros Hnd Hx Hall. destruct l as [| y l]; [now apply elem_of_nil in Hx |].
  assert (y = x) as -> by (apply Hall; left).
  f_equal. destruct l as [| z l]; [reflexivity |].
  apply NoDup_cons in Hnd as [Hnotin _]. exfalso. apply Hnotin.
  assert (z = x) as -> by (apply Hall; right; left). left.
Qed.

Lemma landmarks_NoDup spec minFreq maxFreq tN fN thr ts :
  NoDup ts -> NoDup (landmarks_of spec minFreq maxFreq tN fN thr ts).
Proof.
  intros Hts. unfold landmarks_of. apply NoDup_bind; [| | exact Hts].
  - intros t1 t2 p _ _ H1 H2.
    destruct (JS.get spec t1); [| now apply elem_of_nil in H1].
    destruct (JS.get spec t2); [| now apply elem_of_nil in H2].
    unfold row_landmarks in H1, H2.
    apply list_elem_of_fmap in H1 as (f1 & -> & _).
    apply list_elem_of_fmap in H2 as (f2 & Heq & _). now injection Heq.
  - intros t _. destruct (JS.get spec t); [| apply NoDup_nil_2].
    unfold row_landmarks. apply NoDup_fmap_2_strong.
    + intros f1 f2 _ _ Heq. now injection Heq.
    + apply NoDup_filter, NoDup_seqZ.
Qed.

(** ** The peak test (C1) *)

(** C1, as stated, fails in two ways. On the ragged spectrogram the
    detector returns the cell (1, 2) as a landmark although the neighbor
    position (0, 2) holds no value at all, so not every neighbor has a
    value strictly less than the amplitude. And with a time radius of 0
    the two equal maxima of [stacked], vertically adjacent and each the
    maximum of its row, are both returned. *)
Lemma findPeaks_peak_test_counterexample :
  (findPeaks ragged 1 10 1 1 JS.c_0_5 = Ok [Peak 1 2 (JS.Num (num 5))]
   /\ ~ neighbors_strictly_less ragged 1 1 1 2 (JS.Num (num 5)))
  /\ (findPeaks stacked 1 2 0 1 JS.c_0_5
      = Ok [Peak 0 1 (JS.Num (num 7)); Peak 1 1 (JS.Num (num 7))]
      /\ cell stacked 0 1 = cell stacked (0 + 1) 1).
Proof.
  split; split.
  - vm_compute. reflexivity.
  - intros H.
    destruct (H (-1) 0) as (x & Hx & _); [unfold neighbor_offset; lia |].
    vm_compute in Hx. discriminate Hx.
  - vm_compute. reflexivity.
  - reflexivity.
Qed.

(** C1, amended. With a time radius that is not negative, the detector
    returns a list of landmarks. For a position [(t, f)] whose neighbor
    positions all hold numbers (none is outside the spectrogram, none is
    NaN), [(t, f, amplitude)] is among the landmarks if and only if
    [(t, f)] lies in the scan region, [amplitude] is the value of the cell
    and exceeds the threshold, and every neighbor has a value strictly
    less than [amplitude]. Two cells within each other's neighborhood
    that hold equal values are both left out: a tie disqualifies both. *)
Theorem findPeaks_landmark_iff spec minFreq maxFreq tN fN thr :
  0 <= tN ->
  exists peaks,
    findPeaks spec minFreq maxFreq tN fN thr = Ok peaks
    /\ (forall t f a,
          full_neighborhood spec tN fN t f ->
          (Peak t f a ∈ peaks
           <-> in_scan_region spec minFreq maxFreq tN fN t f
               /\ a = cell spec t f
               /\ JS.gt (JS.ToNumber a) thr = true
               /\ neighbors_strictly_less spec tN fN t f a))
    /\ (forall t f dt df x y a,
          neighbor_offset tN fN dt df ->
          cell spec t f = JS.Num x ->
          cell spec (t + dt) (f + df) = JS.Num y ->
          SFcompare x y = Some Eq ->
          (Peak t f a ∉ peaks) /\ (Peak (t + dt) (f + df) a ∉ peaks)).
Proof.
  intros HtN. eexists. split; [now apply findPeaks_total |]. split.
  - intros t f a Hfull. rewrite elem_of_landmarks by assumption.
    split; intros (Hreg & Ha & Hgt & Hdom);
      (split; [exact Hreg | split; [exact Ha | split; [exact Hgt |]]]).
    + intros dt df Hoff. destruct (Hfull dt df Hoff) as (x & Hx & Hnum).
      exists x. split; [exact Hx |].
      apply (undominated_iff_present spec tN fN t f a (gt_is_number _ _ Hgt))
        in Hdom.
      now apply (Hdom dt df x).
    + intros dt df Hoff. destruct (Hdom dt df Hoff) as (x & -> & Hlt).
      apply ge_false_iff. auto.
  - intros t f dt df x y a Hoff Hx Hy Heq. split; intros Hin;
      apply elem_of_landmarks in Hin as (_ & -> & _ & Hdom); try assumption.
    + specialize (Hdom dt df Hoff). rewrite Hx, Hy in Hdom. simpl in Hdom.
      rewrite ge_of_equal in Hdom by now apply SFcompare_Eq_sym.
      discriminate.
    + specialize (Hdom (- dt) (- df)).
      replace (t + dt + - dt) with t in Hdom by lia.
      replace (f + df + - df) with f in Hdom by lia.
      rewrite Hx, Hy in Hdom. simpl in Hdom.
      rewrite ge_of_equal in Hdom by assumption.
      assert (false = true) by (symmetry; apply Hdom; unfold neighbor_offset in *; lia).
      discriminate.
Qed.

Lemma findPeaks_landmark_iff_witness :
  0 <= 1
  /\ exists peaks,
       findPeaks tied 1 3 1 1 JS.c_0_5 = Ok peaks
       /\ (forall t f a,
             full_neighborhood tied 1 1 t f ->
             (Peak t f a ∈ peaks
              <-> in_scan_region tied 1 3 1 1 t f
                  /\ a = cell tied t f
                  /\ JS.gt (JS.ToNumber a) JS.c_0_5 = true
                  /\ neighbors_strictly_less tied 1 1 t f a))
       /\ (forall t f dt df x y a,
             neighbor_offset 1 1 dt df ->
             cell tied t f = JS.Num x ->
             cell tied (t + dt) (f + df) = JS.Num y ->
             SFcompare x y = Some Eq ->
             (Peak t f a ∉ peaks) /\ (Peak (t + dt) (f + df) a ∉ peaks)).
Proof.
  split; [lia |]. apply (findPeaks_landmark_iff tied 1 3 1 1 JS.c_0_5). lia.
Defined.

(** ** Landmarks and the edges of the spectrogram (C4) *)

(** What the loop bounds give: a landmark lies in the scan region, every
    row of its neighborhood exists, and its neighborhood stays below the
    end of its own row. Nothing keeps [f + df] from falling below 0 or
    beyond the end of another row. *)
Lemma landmark_in_scan_region spec minFreq maxFreq tN fN thr peaks t f a :
  0 <= tN ->
  findPeaks spec minFreq maxFreq tN fN thr = Ok peaks ->
  Peak t f a ∈ peaks ->
  in_scan_region spec minFreq maxFreq tN fN t f
  /\ (forall dt, - tN <= dt <= tN -> is_Some (JS.get spec (t + dt)))
  /\ (forall df, df <= fN -> f + df < rowLength spec t).
Proof.
  intros HtN Hrun Hin. rewrite findPeaks_total in Hrun by assumption.
  injection Hrun as <-.
  apply elem_of_landmarks in Hin as (Hreg & _); [| assumption].
  split; [exact Hreg |]. destruct Hreg as [Ht Hf]. split.
  - intros dt Hdt. apply get_is_Some. lia.
  - intros df Hdf. lia.
Qed.

(** C4 fails on the code. With [minFreq = 0] below the frequency radius 1,
    the detector returns the cell (0, 0) of [low_edge] as a landmark; the
    offset (0, -1) belongs to its neighborhood and names no cell. *)
Theorem findPeaks_landmark_at_low_edge :
  findPeaks low_edge 0 3 0 1 JS.c_0_5 = Ok [Peak 0 0 (JS.Num (num 1))]
  /\ neighbor_offset 0 1 0 (-1)
  /\ cell low_edge (0 + 0) (0 + -1) = JS.undefined.
Proof.
  split; [now vm_compute |]. split; [unfold neighbor_offset; lia | reflexivity].
Qed.

(** ** A single spike (C5) *)

(** C5, as stated, fails for a spike outside the scan region: the cell
    (0, 1) of [edge_spike] is the only cell above the threshold and it
    exceeds every other value, yet the detector returns nothing. *)
Lemma findPeaks_edge_spike_counterexample :
  spike edge_spike 1 1 JS.c_0_5 0 1
  /\ (forall t f, spike edge_spike 1 1 JS.c_0_5 t f -> t = 0 /\ f = 1)
  /\ findPeaks edge_spike 1 2 1 1 JS.c_0_5 = Ok [].
Proof.
  assert (Hcells : forall t f,
            JS.gt (JS.ToNumber (cell edge_spike t f)) JS.c_0_5 = true ->
            t = 0 /\ f = 1).
  { intros t f. unfold cell, JS.read, JS.get.
    destruct (Z.ltb_spec t 0); [discriminate |].
    destruct (Z.to_nat t) as [| [| [| k]]] eqn:Ht; simpl;
      try discriminate;
      (destruct (Z.ltb_spec f 0); [discriminate |]);
      (destruct (Z.to_nat f) as [| [| [| j]]] eqn:Hf; simpl; try discriminate);
      vm_compute; try discriminate.
    intros _. lia. }
  split; [| split].
  - split; [now vm_compute |].
    intros dt df x (Hdt & Hdf & Hne) Hcell.
    assert (Hc : (dt = -1 \/ dt = 0 \/ dt = 1) /\ (df = -1 \/ df = 0 \/ df = 1)) by lia.
    destruct Hc as [[-> | [-> | ->]] [-> | [-> | ->]]];
      vm_compute in Hcell; try discriminate; try lia;
      injection Hcell as <-; now vm_compute.
  - intros t f [Hgt _]. now apply Hcells.
  - now vm_compute.
Qed.

(** C5, amended. In a spectrogram without NaN, when exactly one cell of
    the scan region exceeds the threshold and strictly exceeds every other
    value within its neighborhood, the detector returns exactly one
    landmark: the coordinates and the value of that cell. *)
Theorem findPeaks_single_spike spec minFreq maxFreq tN fN thr t0 f0 :
  0 <= tN ->
  no_NaN spec ->
  in_scan_region spec minFreq maxFreq tN fN t0 f0 ->
  spike spec tN fN thr t0 f0 ->
  (forall t f,
     in_scan_region spec minFreq maxFreq tN fN t f ->
     spike spec tN fN thr t f -> t = t0 /\ f = f0) ->
  findPeaks spec minFreq maxFreq tN fN thr
  = Ok [Peak t0 f0 (cell spec t0 f0)].
Proof.
  intros HtN Hnan Hreg Hspike Huniq.
  rewrite findPeaks_total by assumption. f_equal.
  apply NoDup_all_equal.
  - apply landmarks_NoDup, NoDup_seqZ.
  - apply elem_of_landmarks; [assumption |].
    apply (undominated_iff_spike spec tN fN thr t0 f0 Hnan) in Hspike as [Hgt Hdom].
    auto.
  - intros [t f a] Hin.
    apply elem_of_landmarks in Hin as (Hreg' & -> & Hgt & Hdom); [| assumption].
    destruct (Huniq t f Hreg') as [-> ->]; [| reflexivity].
    now apply undominated_iff_spike.
Qed.

Lemma no_NaN_Forall (spec : spectrogram) :
  Forall (Forall (fun x => x <> JS.NaN)) spec -> no_NaN spec.
Proof.
  intros Hall t f Hcell. unfold cell, JS.read in Hcell.
  destruct (JS.get spec t) as [row |] eqn:Hrow; [| discriminate].
  destruct (JS.get row f) as [x |] eqn:Hx; [| discriminate].
  injection Hcell as ->.
  unfold JS.get in Hrow, Hx.
  destruct (t <? 0); [discriminate |]. destruct (f <? 0); [discriminate |].
  apply list_elem_of_lookup_2 in Hrow, Hx.
  rewrite Forall_forall in Hall. specialize (Hall row Hrow).
  rewrite Forall_forall in Hall. now apply (Hall JS.NaN Hx).
Qed.

Lemma findPeaks_single_spike_witness :
  findPeaks one_spike 1 10 1 1 JS.c_0_5 = Ok [Peak 1 1 (cell one_spike 1 1)].
Proof.
  apply (findPeaks_single_spike one_spike 1 10 1 1 JS.c_0_5 1 1).
  - lia.
  - apply no_NaN_Forall. repeat constructor; vm_compute; discriminate.
  - split; [simpl; lia |]. change (rowLength one_spike 1) with 4. lia.
  - split; [now vm_compute |].
    intros dt df x (Hdt & Hdf & Hne) Hcell.
    assert (Hc : (dt = -1 \/ dt = 0 \/ dt = 1) /\ (df = -1 \/ df = 0 \/ df = 1)) by lia.
    destruct Hc as [[-> | [-> | ->]] [-> | [-> | ->]]];
      vm_compute in Hcell; try discriminate; try lia;
      injection Hcell as <-; now vm_compute.
  - intros t f [Ht Hf] [Hgt _]. simpl in Ht.
    assert (t = 1) as -> by lia. change (rowLength one_spike 1) with 4 in Hf.
    assert (Hc : f = 1 \/ f = 2) by lia.
    destruct Hc as [-> | ->]; [split; reflexivity |].
    vm_compute in Hgt. discriminate Hgt.
Defined.

(** ** Early exit (C8) *)

(** C8. The detector, whose neighbor scan stops at the first neighbor
    that disqualifies the candidate, returns the same landmarks (and the
    same error, when it raises one) as the detector whose peak test is the
    predicate [qualifies], evaluated on the whole neighborhood; and
    [qualifies] holds exactly when the candidate exceeds the threshold
    and no neighbor of the full neighborhood has a value [>=] the
    candidate's. *)
Theorem findPeaks_early_exit spec minFreq maxFreq tN fN thr :
  findPeaks spec minFreq maxFreq tN fN thr
  = findPeaks_decl spec minFreq maxFreq tN fN thr
  /\ forall t f,
       qualifies spec tN fN thr t f = true
       <-> JS.gt (JS.ToNumber (cell spec t f)) thr = true
           /\ forall dt df,
                neighbor_offset tN fN dt df ->
                JS.ge (JS.ToNumber (cell spec (t + dt) (f + df)))
                  (JS.ToNumber (cell spec t f)) = false.
Proof.
  split; [apply findPeaks_findPeaks_decl |].
  intros t f. unfold qualifies.
  rewrite andb_true_iff, dominant_iff. reflexivity.
Qed.

(** ** Missing neighbors (C10) *)

Lemma rows_landmarks_error spec minFreq maxFreq tN fN thr ts e :
  rows_landmarks spec minFreq maxFreq tN fN thr ts = Err e -> e = TypeError_row.
Proof.
  induction ts as [| t ts IH]; simpl; [discriminate |].
  destruct (JS.get spec t); [| now intros [= <-]].
  destruct (rows_landmarks _ _ _ _ _ _ ts); simpl; [discriminate |].
  intros [= <-]. now apply IH.
Qed.

(** C10. The detector never faults on a neighbor: the read of a neighbor
    row (line 61) never raises, whatever the spectrogram and the
    parameters. With a time radius that is not negative it returns, and a
    cell of the scan region above the threshold is a landmark exactly
    when each neighbor position either holds no cell (beyond the end of a
    shorter row, or at a frequency index below 0) or holds a value that
    is not [>=] the candidate's: a missing neighbor does not disqualify. *)
Theorem findPeaks_missing_neighbor spec minFreq maxFreq tN fN thr :
  findPeaks spec minFreq maxFreq tN fN thr <> Err TypeError_neighbor
  /\ (0 <= tN ->
      exists peaks,
        findPeaks spec minFreq maxFreq tN fN thr = Ok peaks
        /\ forall t f,
             in_scan_region spec minFreq maxFreq tN fN t f ->
             JS.gt (JS.ToNumber (cell spec t f)) thr = true ->
             (Peak t f (cell spec t f) ∈ peaks
              <-> forall dt df,
                    neighbor_offset tN fN dt df ->
                    cell spec (t + dt) (f + df) = JS.undefined
                    \/ JS.ge (JS.ToNumber (cell spec (t + dt) (f + df)))
                         (JS.ToNumber (cell spec t f)) = false)).
Proof.
  split.
  - rewrite findPeaks_findPeaks_decl. unfold findPeaks_decl. intros H.
    apply rows_landmarks_error in H. discriminate.
  - intros HtN. eexists. split; [now apply findPeaks_total |].
    intros t f Hreg Hgt. rewrite elem_of_landmarks by assumption.
    unfold undominated. split.
    + intros (_ & _ & _ & Hdom) dt df Hoff. right. now apply Hdom.
    + intros H. repeat (split; [assumption || reflexivity |]).
      intros dt df Hoff. destruct (H dt df Hoff) as [Hmiss | Hge]; [| exact Hge].
      rewrite Hmiss. reflexivity.
Qed.

Lemma findPeaks_missing_neighbor_witness :
  cell ragged (1 + -1) (2 + 0) = JS.undefined
  /\ exists peaks,
       findPeaks ragged 1 10 1 1 JS.c_0_5 = Ok peaks
       /\ Peak 1 2 (cell ragged 1 2) ∈ peaks.
Proof.
  split; [reflexivity |].
  destruct (findPeaks_missing_neighbor ragged 1 10 1 1 JS.c_0_5) as [_ H].
  destruct H as (peaks & Hrun & Hiff); [lia |].
  exists peaks. split; [exact Hrun |]. apply Hiff.
  - split; [simpl; lia |]. change (rowLength ragged 1) with 4. lia.
  - now vm_compute.
  - intros dt df (Hdt & Hdf & Hne).
    assert (Hc : (dt = -1 \/ dt = 0 \/ dt = 1) /\ (df = -1 \/ df = 0 \/ df = 1)) by lia.
    destruct Hc as [[-> | [-> | ->]] [-> | [-> | ->]]]; try lia;
      vm_compute; auto.
Defined.

(** ** Typed arrays and counted loops *)

Lemma Float32Array_set_length (a : list JS.number) (i : Z) (x : JS.number) :
  length (JS.Float32Array_set a i x) = length a.
Proof.
  unfold JS.Float32Array_set. destruct (i <? 0); [reflexivity |].
  apply length_insert.
Qed.

Lemma Float32Array_new_Ok (size : Z) :
  0 <= size ->
  JS.Float32Array_new size = Ok (replicate (Z.to_nat size) (S754_zero false)).
Proof.
  intros Hsize. unfold JS.Float32Array_new.
  destruct (Z.ltb_spec size 0); [lia | reflexivity].
Qed.

Lemma Float32Array_new_negative (size : Z) :
  size < 0 -> JS.Float32Array_new size = Err RangeError.
Proof.
  intros Hsize. unfold JS.Float32Array_new.
  destruct (Z.ltb_spec size 0); [reflexivity | lia].
Qed.

(** A loop that stores [g j] at every index [j] of a fresh array fills
    it with the rounded values of [g], in order. *)
Lemma fill_fresh_array (g : Z -> JS.number) (k : nat) (rest : list JS.number) :
  foldl (fun a j => JS.Float32Array_set a j (g j))
    (replicate k (S754_zero false) ++ rest) (seqZ 0 (Z.of_nat k))
  = ((fun j => JS.fround (g j)) <$> seqZ 0 (Z.of_nat k)) ++ rest.
Proof.
  revert rest. induction k as [| k IH]; intros rest; [reflexivity |].
  rewrite seqZ_S, foldl_app, fmap_app, replicate_S_end.
  rewrite <- (app_assoc (replicate k _)), IH. simpl.
  rewrite Z.add_0_l. unfold JS.Float32Array_set.
  destruct (Z.ltb_spec (Z.of_nat k) 0); [lia |].
  rewrite Nat2Z.id.
  rewrite insert_app_r_alt by (rewrite length_fmap, length_seqZ; lia).
  rewrite length_fmap, length_seqZ, Nat2Z.id, Nat.sub_diag. simpl.
  now rewrite <- app_assoc.
Qed.

Lemma for_range_fill (g : Z -> JS.number) (size : Z) :
  0 <= size ->
  for_range 0 size (fun j a => JS.Float32Array_set a j (g j))
    (replicate (Z.to_nat size) (S754_zero false))
  = (fun j => JS.fround (g j)) <$> seqZ 0 size.
Proof.
  intros Hsize. unfold for_range. rewrite Z.sub_0_r.
  pose proof (fill_fresh_array g (Z.to_nat size) []) as H.
  rewrite Z2Nat.id, !app_nil_r in H by assumption. exact H.
Qed.

(** ** The window and the frames *)

Lemma hammingWindow_Ok (cos : JS.number -> JS.number) (size : Z) :
  0 <= size ->
  hammingWindow cos size
  = Ok ((fun i => JS.fround (hamming_coefficient cos size i)) <$> seqZ 0 size).
Proof.
  intros Hsize. unfold hammingWindow.
  rewrite Float32Array_new_Ok by assumption. simpl.
  now rewrite for_range_fill.
Qed.

Lemma hammingWindow_negative (cos : JS.number -> JS.number) (size : Z) :
  size < 0 -> hammingWindow cos size = Err RangeError.
Proof.
  intros Hsize. unfold hammingWindow.
  now rewrite Float32Array_new_negative.
Qed.

Lemma windowed_frame_Ok (audioData window : list JS.number) (size i : Z) :
  0 <= size -> exists frame, windowed_frame audioData window size i = Ok frame.
Proof.
  intros Hsize. unfold windowed_frame.
  rewrite Float32Array_new_Ok by assumption. simpl. eauto.
Qed.

Lemma magnitude_row_Ok (spectrum : list JS.number) (size : Z) :
  0 <= size -> exists row, magnitude_row spectrum size = Ok row.
Proof.
  intros Hsize. unfold magnitude_row.
  rewrite Float32Array_new_Ok by (apply Z.quot_pos; lia). simpl. eauto.
Qed.

Lemma frame_Ok (K : Kernel) (f : fft K) (audioData window : list JS.number)
    (size i : Z) :
  transform_total K -> 0 <= size ->
  exists f' row, frame K f audioData window size i = Ok (f', row).
Proof.
  intros Htotal Hsize. unfold frame.
  destruct (windowed_frame_Ok audioData window size i Hsize) as [data ->]. simpl.
  destruct (Htotal f (createComplexArray K f) data) as [[f' out] ->].
  destruct (magnitude_row_Ok out size Hsize) as [row ->]. simpl. eauto.
Qed.

(** Stores do not change the length of a typed array. *)
Lemma for_range_length (g : Z -> JS.number) (lo hi : Z) (a : list JS.number) :
  length (for_range lo hi (fun j m => JS.Float32Array_set m j (g j)) a)
  = length a.
Proof.
  unfold for_range. generalize (seqZ lo (hi - lo)) as js. intros js.
  revert a. induction js as [| j js IH]; intros a; [reflexivity |].
  simpl. now rewrite IH, Float32Array_set_length.
Qed.

Lemma magnitude_row_length (spectrum row : list JS.number) (size : Z) :
  magnitude_row spectrum size = Ok row ->
  Z.of_nat (length row) = Z.quot size 2.
Proof.
  unfold magnitude_row, JS.Float32Array_new.
  destruct (Z.ltb_spec (Z.quot size 2) 0); [discriminate |]. simpl.
  intros [= <-]. rewrite for_range_length, length_replicate. lia.
Qed.

(** Every row that the builder appends has [windowSize / 2] bins
    (truncated): its spectrograms are uniform. *)
Lemma frame_loop_uniform K fuel f audioData window W H i acc spectogram :
  uniform acc (Z.quot W 2) ->
  frame_loop K fuel f audioData window W H i acc = Some (Ok spectogram) ->
  uniform spectogram (Z.quot W 2).
Proof.
  revert f i acc.
  induction fuel as [| fuel IH]; intros f i acc Hacc; simpl;
    destruct (i <? Z.of_nat (length audioData) - W);
    try discriminate; try (now intros [= <-]).
  unfold frame.
  destruct (windowed_frame audioData window W i) as [data |]; simpl;
    [| discriminate].
  destruct (realTransform K f (createComplexArray K f) data) as [[f' out] |];
    [| discriminate].
  destruct (magnitude_row out W) as [row |] eqn:Hrow; simpl; [| discriminate].
  apply IH. unfold uniform in *. apply Forall_app. split; [exact Hacc |].
  apply Forall_cons. split; [| apply Forall_nil_2].
  eapply magnitude_row_length, Hrow.
Qed.

Lemma createSpectogram_uniform cos K w fuel audioData sampleRate W H spectogram :
  createSpectogram cos K w fuel audioData sampleRate W H = Some (Ok spectogram) ->
  uniform spectogram (Z.quot W 2).
Proof.
  unfold createSpectogram. destruct (FFT_new K w W); [| discriminate].
  destruct (hammingWindow cos W); [| discriminate].
  apply frame_loop_uniform. apply Forall_nil_2.
Qed.

(** ** Counting frame starts *)

Lemma filter_none {A} (P : A -> Prop) `{forall x, Decision (P x)} (l : list A) :
  (forall x, x ∈ l -> ~ P x) -> filter P l = [].
Proof.
  intros Hnone. apply elem_of_nil_inv. intros x Hx.
  apply list_elem_of_filter in Hx as [HP Hin]. now apply (Hnone x).
Qed.

(** Among [H] consecutive integers from a multiple of [H], only the
    first is a multiple of [H]. *)
Lemma starts_in_one_hop (H i m : Z) :
  0 < H -> i mod H = 0 -> 0 < m <= H ->
  filter (fun start => start mod H = 0) (seqZ i m) = [i].
Proof.
  intros HH Hi Hm. rewrite seqZ_cons by lia.
  rewrite filter_cons_True by assumption. f_equal.
  apply filter_none. intros x Hx Hmod. apply elem_of_seqZ in Hx.
  apply Z.mod_divide in Hi as [q Hq]; [| lia].
  apply Z.mod_divide in Hmod as [q' Hq']; [| lia].
  subst i x. assert (q < q') by nia. assert (q' < q + 1) by nia. lia.
Qed.

Lemma starts_from_done (L W H i : Z) :
  L - W <= i -> starts_from L W H i = [].
Proof. intros Hi. unfold starts_from. now rewrite seqZ_nil by lia. Qed.

Lemma starts_from_step (L W H i : Z) :
  0 < H -> i mod H = 0 -> i < L - W ->
  starts_from L W H i = i :: starts_from L W H (i + H).
Proof.
  intros HH Hi Hlt. unfold starts_from.
  destruct (Z.le_gt_cases (L - W - i) H) as [Hshort | Hlong].
  - rewrite starts_in_one_hop by lia. now rewrite (seqZ_nil (i + H)) by lia.
  - replace (L - W - i) with (H + (L - W - (i + H))) by lia.
    rewrite seqZ_app, filter_app by lia.
    rewrite starts_in_one_hop by lia. reflexivity.
Qed.

Lemma frame_starts_from_0 (L W H : Z) : frame_starts L W H = starts_from L W H 0.
Proof. unfold frame_starts, starts_from. now rewrite Z.sub_0_r. Qed.

(** When the hop divides [L - W], the starts are [0, H, ..., L - W - H]:
    the start [L - W] itself is not among them. *)
Lemma frame_starts_exact (W H : Z) (k : nat) :
  0 < H -> length (frame_starts (W + Z.of_nat k * H) W H) = k.
Proof.
  intros HH. unfold frame_starts.
  replace (W + Z.of_nat k * H - W) with (Z.of_nat k * H) by lia.
  induction k as [| k IH]; [reflexivity |].
  replace (Z.of_nat (S k) * H) with (Z.of_nat k * H + H) by lia.
  rewrite seqZ_app, filter_app, length_app, IH by lia.
  rewrite Z.add_0_l, starts_in_one_hop; [simpl; lia | lia | | lia].
  now rewrite Z.mod_mul by lia.
Qed.

(** ** The frame loop *)

Section FrameLoop.

Variable K : Kernel.
Variables audioData window : list JS.number.
Variables windowSize hopSize : Z.

Local Abbreviation L := (Z.of_nat (length audioData)).

Lemma frame_loop_more_fuel fuel fuel' f i acc r :
  frame_loop K fuel f audioData window windowSize hopSize i acc = Some r ->
  (fuel <= fuel')%nat ->
  frame_loop K fuel' f audioData window windowSize hopSize i acc = Some r.
Proof.
  revert fuel' f i acc.
  induction fuel as [| fuel IH]; intros fuel' f i acc Hrun Hle.
  - destruct fuel'; simpl in *;
      destruct (i <? Z.of_nat (length audioData) - windowSize);
      (discriminate || assumption).
  - destruct fuel' as [| fuel']; [lia |]. simpl in *.
    destruct (i <? Z.of_nat (length audioData) - windowSize); [| assumption].
    destruct (frame K f audioData window windowSize i) as [[f' row] | e];
      [| assumption].
    apply IH; [assumption | lia].
Qed.

(** With a positive hop and a transform that does not throw, the loop
    ends and appends one row per remaining frame start. *)
Lemma frame_loop_rows fuel f i acc :
  transform_total K -> 0 <= windowSize -> 0 < hopSize ->
  i mod hopSize = 0 ->
  (length (starts_from L windowSize hopSize i) <= fuel)%nat ->
  exists rows,
    frame_loop K fuel f audioData window windowSize hopSize i acc
    = Some (Ok (acc ++ rows))
    /\ length rows = length (starts_from L windowSize hopSize i).
Proof.
  intros Htotal HW HH. revert f i acc.
  induction fuel as [| fuel IH]; intros f i acc Hi Hfuel.
  - destruct (Z.ltb_spec i (L - windowSize)) as [Hlt | Hge].
    + rewrite starts_from_step in Hfuel by assumption. simpl in Hfuel. lia.
    + exists []. simpl.
      destruct (Z.ltb_spec i (L - windowSize)); [lia |].
      now rewrite app_nil_r, starts_from_done.
  - simpl.
    destruct (Z.ltb_spec i (L - windowSize)) as [Hlt | Hge].
    + rewrite starts_from_step in Hfuel |- * by assumption.
      destruct (frame_Ok K f audioData window windowSize i Htotal HW)
        as (f' & row & ->).
      destruct (IH f' (i + hopSize) (acc ++ [row])) as (rows & Hrun & Hlen).
      * replace (i + hopSize) with (i + 1 * hopSize) by lia.
        now rewrite Z.mod_add by lia.
      * simpl in Hfuel. lia.
      * exists (row :: rows). rewrite Hrun, <- app_assoc. simpl.
        split; [reflexivity | now rewrite Hlen].
    + exists []. now rewrite app_nil_r, starts_from_done.
Qed.

(** A buffer that is no longer than the window gives no frame, whatever
    the hop and however little fuel. *)
Lemma frame_loop_short fuel f acc :
  L <= windowSize ->
  frame_loop K fuel f audioData window windowSize hopSize 0 acc = Some (Ok acc).
Proof.
  intros Hshort. destruct fuel; simpl;
    destruct (Z.ltb_spec 0 (L - windowSize)); (lia || reflexivity).
Qed.

(** With a hop that is not positive the loop never leaves the buffer: it
    is still running after any number of frames. *)
Lemma frame_loop_forever fuel f i acc :
  transform_total K -> 0 <= windowSize -> hopSize <= 0 ->
  i < L - windowSize ->
  frame_loop K fuel f audioData window windowSize hopSize i acc = None.
Proof.
  intros Htotal HW HH. revert f i acc.
  induction fuel as [| fuel IH]; intros f i acc Hi; simpl;
    destruct (Z.ltb_spec i (L - windowSize)); try lia; [reflexivity |].
  destruct (frame_Ok K f audioData window windowSize i Htotal HW)
    as (f' & row & ->).
  apply IH. lia.
Qed.

End FrameLoop.

(** ** Stand-ins for the platform *)

Lemma ECMAScript_cos_fixed_values : ECMAScript_cos cos_fixed_values.
Proof. repeat split. Qed.

Lemma passthrough_total : transform_total passthrough.
Proof. intros f out data. eexists. reflexivity. Qed.

(** ** The number of rows (C2) *)

(** C2. For a window size that is not negative and a positive hop, on a
    transform that accepts the window size and does not throw, the builder
    returns a spectrogram (given as many steps as there are frame starts),
    and it has exactly as many rows as there are integers [start] with
    [0 <= start < L - W] in steps of [H] from 0. When [H] divides [L - W]
    these are [(L - W) / H] rows: the frame that starts at [L - W] is not
    among them. When [L <= W] the spectrogram is empty. *)
Theorem createSpectogram_row_count cos K w audioData sampleRate W H :
  is_Some (FFT_new K w W) ->
  transform_total K ->
  0 <= W -> 0 < H ->
  let L := Z.of_nat (length audioData) in
  exists spectogram,
    (forall fuel,
       (length (frame_starts L W H) <= fuel)%nat ->
       createSpectogram cos K w fuel audioData sampleRate W H
       = Some (Ok spectogram))
    /\ length spectogram = length (frame_starts L W H)
    /\ (forall k : nat, L - W = Z.of_nat k * H -> length spectogram = k)
    /\ (L <= W -> spectogram = []).
Proof.
  intros [f Hf] Htotal HW HH L.
  destruct (frame_loop_rows K audioData
              ((fun i => JS.fround (hamming_coefficient cos W i)) <$> seqZ 0 W)
              W H (length (frame_starts L W H)) f 0 [] Htotal HW HH)
    as (rows & Hrun & Hlen).
  { now apply Z.mod_0_l, Z.neq_sym, Z.lt_neq. }
  { rewrite frame_starts_from_0. reflexivity. }
  simpl in Hrun. rewrite <- frame_starts_from_0 in Hlen.
  exists rows. split; [| split; [exact Hlen | split]].
  - intros fuel Hfuel. unfold createSpectogram.
    rewrite Hf, hammingWindow_Ok by assumption.
    eapply frame_loop_more_fuel; [exact Hrun | exact Hfuel].
  - intros k Hk. rewrite Hlen. fold L.
    replace L with (W + Z.of_nat k * H) by lia.
    now apply frame_starts_exact.
  - intros Hshort. apply length_zero_iff_nil. rewrite Hlen. fold L.
    unfold frame_starts. now rewrite seqZ_nil by lia.
Qed.

Lemma createSpectogram_row_count_witness :
  exists spectogram,
    (forall fuel,
       (length (frame_starts 6 2 2) <= fuel)%nat ->
       createSpectogram cos_fixed_values passthrough 0%nat fuel six_samples
         44100 2 2
       = Some (Ok spectogram))
    /\ length spectogram = length (frame_starts 6 2 2)
    /\ (forall k : nat, 6 - 2 = Z.of_nat k * 2 -> length spectogram = k)
    /\ (6 <= 2 -> spectogram = []).
Proof.
  apply (createSpectogram_row_count cos_fixed_values passthrough 0%nat
           six_samples 44100 2 2).
  - eexists. reflexivity.
  - exact passthrough_total.
  - lia.
  - lia.
Defined.

(** ** Invalid window and hop sizes (C3) *)

(** C3, as stated, fails: no configuration is checked. With [hopSize = 0]
    and a window of 4 the builder returns an empty spectrogram for a buffer
    that is no longer than the window, and for the six-sample buffer it
    raises nothing however long it runs. *)
Lemma createSpectogram_zero_hop_counterexample :
  createSpectogram cos_fixed_values passthrough 0%nat 0
    [num 1; num 2] 44100 4 0
  = Some (Ok [])
  /\ ~ (exists fuel e,
          createSpectogram cos_fixed_values passthrough 0%nat fuel
            six_samples 44100 4 0
          = Some (Err e)).
Proof.
  split; [now vm_compute |].
  intros (fuel & e & Hrun). unfold createSpectogram in Hrun.
  change (FFT_new passthrough 0%nat 4) with (Some (4, 0%nat)) in Hrun.
  rewrite hammingWindow_Ok in Hrun by lia.
  rewrite frame_loop_forever in Hrun; [discriminate | | lia | lia |].
  - exact passthrough_total.
  - simpl. lia.
Qed.

(** C3, amended. The builder checks neither [windowSize] nor [hopSize].
    On a transform whose constructor accepts the window size: a negative
    window size raises a range error before any frame is processed (it is
    raised whatever the buffer and with no step of the frame loop taken);
    a window size that is not negative, odd or zero included, raises
    nothing before the frame loop; with it, a buffer that is no longer
    than the window gives an empty spectrogram for every hop size, and a
    longer buffer with a hop size that is not positive keeps the loop
    running for ever when the transform does not throw. *)
Theorem createSpectogram_unchecked cos K w audioData sampleRate W H :
  is_Some (FFT_new K w W) ->
  let L := Z.of_nat (length audioData) in
  (W < 0 ->
   forall fuel,
     createSpectogram cos K w fuel audioData sampleRate W H
     = Some (Err RangeError))
  /\ (0 <= W -> L <= W ->
      forall fuel,
        createSpectogram cos K w fuel audioData sampleRate W H = Some (Ok []))
  /\ (0 <= W -> W < L -> H <= 0 -> transform_total K ->
      forall fuel,
        createSpectogram cos K w fuel audioData sampleRate W H = None).
Proof.
  intros [f Hf] L. unfold createSpectogram. rewrite Hf. split; [| split].
  - intros HW fuel. now rewrite hammingWindow_negative.
  - intros HW Hshort fuel. rewrite hammingWindow_Ok by assumption.
    now apply frame_loop_short.
  - intros HW Hlong HH Htotal fuel. rewrite hammingWindow_Ok by assumption.
    apply frame_loop_forever; (assumption || (fold L; lia)).
Qed.

Lemma createSpectogram_unchecked_witness :
  (forall fuel,
     createSpectogram cos_fixed_values passthrough 0%nat fuel [num 1; num 2]
       44100 4 0
     = Some (Ok []))
  /\ (forall fuel,
        createSpectogram cos_fixed_values passthrough 0%nat fuel six_samples
          44100 4 0
        = None).
Proof.
  split.
  - destruct (createSpectogram_unchecked cos_fixed_values passthrough 0%nat
                [num 1; num 2] 44100 4 0) as (_ & Hshort & _).
    + eexists. reflexivity.
    + apply Hshort; simpl; lia.
  - destruct (createSpectogram_unchecked cos_fixed_values passthrough 0%nat
                six_samples 44100 4 0) as (_ & _ & Hlong).
    + eexists. reflexivity.
    + apply Hlong; try (simpl; lia). exact passthrough_total.
Defined.

(** A constructor that rejects the window size ends the call at once. *)
Lemma createSpectogram_rejected cos K w fuel audioData sampleRate W H :
  FFT_new K w W = None ->
  createSpectogram cos K w fuel audioData sampleRate W H
  = Some (Err TransformError).
Proof. intros Hf. unfold createSpectogram. now rewrite Hf. Qed.

(** ** Determinism (C7) *)

Lemma frame_loop_deterministic K built_for fresh transform fuel f1 f2
    audioData window W H i acc :
  (forall size f, built_for size f -> createComplexArray K f = fresh size) ->
  (forall size f out data,
     built_for size f ->
     match realTransform K f out data with
     | Some (f', out') =>
         built_for size f' /\ transform size out data = Some out'
     | None => transform size out data = None
     end) ->
  built_for W f1 -> built_for W f2 ->
  frame_loop K fuel f1 audioData window W H i acc
  = frame_loop K fuel f2 audioData window W H i acc.
Proof.
  intros Hfresh Htransform. revert f1 f2 i acc.
  induction fuel as [| fuel IH]; intros f1 f2 i acc H1 H2; [reflexivity |].
  simpl. destruct (i <? Z.of_nat (length audioData) - W); [| reflexivity].
  unfold frame. destruct (windowed_frame audioData window W i) as [data | e];
    simpl; [| reflexivity].
  rewrite (Hfresh W f1 H1), (Hfresh W f2 H2).
  pose proof (Htransform W f1 (fresh W) data H1) as T1.
  pose proof (Htransform W f2 (fresh W) data H2) as T2.
  destruct (realTransform K f1 (fresh W) data) as [[f1' out1] |],
           (realTransform K f2 (fresh W) data) as [[f2' out2] |].
  - destruct T1 as [B1 T1], T2 as [B2 T2].
    assert (out1 = out2) as -> by congruence.
    destruct (magnitude_row out2 W); simpl; [| reflexivity].
    now apply IH.
  - destruct T1 as [_ T1]. congruence.
  - destruct T2 as [_ T2]. congruence.
  - reflexivity.
Qed.

(** C7. When the transform is a deterministic function of its input, two
    runs on the same sample buffer, sample rate, window size, hop size and
    detector parameters give the same spectrogram and the same landmarks
    (or the same error, or are both still running after the same number
    of steps), whatever the hidden state of the library in each run. *)
Theorem pipeline_deterministic cos K (w1 w2 : world K) fuel audioData
    sampleRate W H minFreq maxFreq tN fN thr :
  deterministic K ->
  createSpectogram cos K w1 fuel audioData sampleRate W H
  = createSpectogram cos K w2 fuel audioData sampleRate W H
  /\ build_then_detect cos K w1 fuel audioData sampleRate W H
       minFreq maxFreq tN fN thr
     = build_then_detect cos K w2 fuel audioData sampleRate W H
         minFreq maxFreq tN fN thr.
Proof.
  intros (built_for & accepts & fresh & transform & Hnew & Hfresh & Htransform).
  assert (Hbuild : createSpectogram cos K w1 fuel audioData sampleRate W H
                   = createSpectogram cos K w2 fuel audioData sampleRate W H).
  { unfold createSpectogram.
    pose proof (Hnew w1 W) as N1. pose proof (Hnew w2 W) as N2.
    destruct (FFT_new K w1 W) as [f1 |], (FFT_new K w2 W) as [f2 |].
    - destruct (hammingWindow cos W); [| reflexivity].
      eapply frame_loop_deterministic; [exact Hfresh | exact Htransform | |];
        tauto.
    - destruct N1 as [N1 _]. congruence.
    - destruct N2 as [N2 _]. congruence.
    - reflexivity. }
  split; [exact Hbuild |]. unfold build_then_detect. now rewrite Hbuild.
Qed.

Lemma passthrough_deterministic : deterministic passthrough.
Proof.
  exists (fun size f => fst f = size), power_of_two_above_1,
    (fun size => replicate (Z.to_nat (2 * size)) (S754_zero false)),
    (fun size out data => Some (data ≫= (fun x => [x; S754_zero false]))).
  split; [| split].
  - intros w size. simpl. now destruct (power_of_two_above_1 size).
  - now intros size f <-.
  - now intros size f out data <-.
Qed.

Lemma pipeline_deterministic_witness :
  createSpectogram cos_fixed_values passthrough 0%nat 5 six_samples 44100 2 2
  = createSpectogram cos_fixed_values passthrough 7%nat 5 six_samples 44100 2 2
  /\ build_then_detect cos_fixed_values passthrough 0%nat 5 six_samples 44100
       2 2 0 1 0 0 JS.c_0_5
     = build_then_detect cos_fixed_values passthrough 7%nat 5 six_samples 44100
         2 2 0 1 0 0 JS.c_0_5.
Proof.
  apply (pipeline_deterministic cos_fixed_values passthrough 0%nat 7%nat).
  exact passthrough_deterministic.
Defined.

(** ** Integers as numbers *)

Lemma binary_round_aux_exact (m : positive) (e : Z) :
  Zpos (digits2_pos m) = 53 -> -1074 <= e <= 971 ->
  binary_round_aux 53 1024 false (Zpos m) e loc_Exact = S754_finite false m e.
Proof.
  intros Hd He. unfold binary_round_aux, shr_fexp, fexp, emin.
  cbn [Zdigits2 shr_record_of_loc]. rewrite Hd.
  replace (Z.max (53 + e - 53) (3 - 1024 - 53) - e) with 0 by lia.
  cbn [shr shr_m loc_of_shr_record round_nearest_even Zdigits2 shr_record_of_loc].
  rewrite Hd.
  replace (Z.max (53 + e - 53) (3 - 1024 - 53) - e) with 0 by lia.
  cbn [shr shr_m].
  destruct (Z.leb_spec e (1024 - 53)); [reflexivity | lia].
Qed.

Lemma digits2_pos_iter_xO (p k : positive) :
  Zpos (digits2_pos (Pos.iter xO p k)) = Zpos (digits2_pos p) + Zpos k.
Proof.
  induction k as [| k IH] using Pos.peano_ind.
  - simpl. lia.
  - rewrite Pos.iter_succ. simpl. lia.
Qed.

Lemma digits2_pos_bound (p : positive) (k : Z) :
  0 <= k -> Zpos p < 2 ^ k -> Zpos (digits2_pos p) <= k.
Proof.
  revert k. induction p as [p IH | p IH |]; intros k Hk Hp; simpl;
    (assert (k <> 0) by (intros ->; simpl in Hp; lia)); [| | lia];
    specialize (IH (k - 1) ltac:(lia));
    replace k with (Z.succ (k - 1)) in Hp by lia;
    rewrite Z.pow_succ_r in Hp by lia; lia.
Qed.

(** A positive integer below [2^53] is a positive finite number. *)
Lemma of_Z_positive (z : Z) :
  0 < z < 2 ^ 53 -> exists m e, JS.of_Z z = S754_finite false m e.
Proof.
  intros [Hpos Hlt]. destruct z as [| p | p]; try lia.
  pose proof (digits2_pos_bound p 53 ltac:(lia) Hlt) as Hd.
  unfold JS.of_Z, JS.prec, JS.emax, binary_normalize, binary_round, fexp, emin.
  rewrite Z.add_0_r.
  replace (Z.max (Zpos (digits2_pos p) - 53) (3 - 1024 - 53))
    with (Zpos (digits2_pos p) - 53) by lia.
  unfold shl_align. rewrite Z.sub_0_r.
  destruct (Zpos (digits2_pos p) - 53) as [| k | k] eqn:Hk; try lia.
  - eexists _, _. apply binary_round_aux_exact; lia.
  - eexists _, _. apply binary_round_aux_exact; [| lia].
    rewrite digits2_pos_iter_xO. lia.
Qed.

(** ** Rounding in a binary format *)

(** The window is computed with three rounded operations and stored with
    a fourth rounding. What follows relates the result of a rounding, as
    [SpecFloat] computes it on mantissas and exponents, to the real number
    it denotes: the rounded value is a neighbor of the exact one in the
    format, so it does not pass a number of the format that the exact
    value does not pass. *)

(** *** Powers of two *)

Lemma bpow_gt_0 e : (0 < bpow e)%R.
Proof. apply powerRZ_lt; lra. Qed.

Lemma bpow_plus a b : bpow (a + b) = (bpow a * bpow b)%R.
Proof. apply powerRZ_add; lra. Qed.

Lemma bpow_IZR k : 0 <= k -> bpow k = IZR (2 ^ k).
Proof.
  intros Hk. unfold bpow. destruct k as [| p | p]; [reflexivity | | lia].
  now rewrite <- Zpower_pos_powerRZ.
Qed.

Lemma bpow_le a b : a <= b -> (bpow a <= bpow b)%R.
Proof.
  intros H. replace b with (a + (b - a)) by lia.
  rewrite bpow_plus, (bpow_IZR (b - a)) by lia.
  pose proof (bpow_gt_0 a).
  assert (1 <= IZR (2 ^ (b - a)))%R.
  { apply IZR_le. pose proof (Z.pow_pos_nonneg 2 (b - a)). lia. }
  nra.
Qed.

Lemma bpow_lt a b : a < b -> (bpow a < bpow b)%R.
Proof.
  intros H. replace b with (a + (b - a)) by lia.
  rewrite bpow_plus, (bpow_IZR (b - a)) by lia.
  pose proof (bpow_gt_0 a).
  assert (2 <= IZR (2 ^ (b - a)))%R.
  { apply IZR_le. replace (b - a) with (Z.succ (b - a - 1)) by lia.
    rewrite Z.pow_succ_r by lia.
    pose proof (Z.pow_pos_nonneg 2 (b - a - 1)). lia. }
  nra.
Qed.

Lemma bpow_lt_inv a b : (bpow a < bpow b)%R -> a < b.
Proof.
  intros H. destruct (Z_lt_le_dec a b) as [| Hle]; [assumption |].
  apply bpow_le in Hle. lra.
Qed.

(** The same number on a smaller exponent. *)
Lemma F2R_shift m e k : 0 <= k -> F2R (m * 2 ^ k) (e - k) = F2R m e.
Proof.
  intros Hk. unfold F2R. rewrite mult_IZR, <- bpow_IZR by lia.
  replace e with ((e - k) + k) at 2 by lia. rewrite bpow_plus. ring.
Qed.

Lemma F2R_le m1 m2 e : (F2R m1 e <= F2R m2 e)%R <-> m1 <= m2.
Proof.
  unfold F2R. pose proof (bpow_gt_0 e). split; intros Hle.
  - apply le_IZR. nra.
  - apply IZR_le in Hle. nra.
Qed.

Lemma F2R_lt m1 m2 e : (F2R m1 e < F2R m2 e)%R <-> m1 < m2.
Proof.
  unfold F2R. pose proof (bpow_gt_0 e). split; intros Hlt.
  - apply lt_IZR. nra.
  - apply IZR_lt in Hlt. nra.
Qed.

(** *** The number of binary digits *)

Lemma digits2_pos_lt m : Zpos m < 2 ^ Zpos (digits2_pos m).
Proof.
  induction m as [m IH | m IH |]; simpl digits2_pos;
    rewrite ?Pos2Z.inj_succ, ?Z.pow_succ_r by lia; lia.
Qed.

Lemma digits2_pos_ge m : 2 ^ (Zpos (digits2_pos m) - 1) <= Zpos m.
Proof.
  induction m as [m IH | m IH |]; simpl digits2_pos;
    rewrite ?Pos2Z.inj_succ; [| | simpl; lia];
    replace (Z.succ (Zpos (digits2_pos m)) - 1)
      with (Z.succ (Zpos (digits2_pos m) - 1)) by lia;
    rewrite Z.pow_succ_r by lia; lia.
Qed.

Lemma digits2_pos_gt m k : 0 <= k -> 2 ^ k <= Zpos m -> k < Zpos (digits2_pos m).
Proof.
  intros Hk Hle. pose proof (digits2_pos_lt m) as Hlt.
  apply (Z.pow_lt_mono_r_iff 2); lia.
Qed.

Lemma F2R_digits_lt m e : (F2R (Zpos m) e < bpow (Zpos (digits2_pos m) + e))%R.
Proof.
  rewrite bpow_plus, bpow_IZR by lia. pose proof (bpow_gt_0 e).
  pose proof (IZR_lt _ _ (digits2_pos_lt m)). unfold F2R. nra.
Qed.

Lemma F2R_digits_ge m e : (bpow (Zpos (digits2_pos m) - 1 + e) <= F2R (Zpos m) e)%R.
Proof.
  rewrite bpow_plus, bpow_IZR by lia. pose proof (bpow_gt_0 e).
  pose proof (IZR_le _ _ (digits2_pos_ge m)). unfold F2R. nra.
Qed.

(** *** Shifting a mantissa to the right *)

Lemma iter_pos_nat {A} (f : A -> A) p x :
  SpecFloat.iter_pos f p x = Nat.iter (Pos.to_nat p) f x.
Proof.
  revert x. induction p as [p IH | p IH |]; intros x; simpl SpecFloat.iter_pos.
  - rewrite !IH, Pos2Nat.inj_xI.
    replace (S (2 * Pos.to_nat p))%nat
      with (Pos.to_nat p + (Pos.to_nat p + 1))%nat by lia.
    rewrite !Nat.iter_add. reflexivity.
  - rewrite !IH, Pos2Nat.inj_xO.
    replace (2 * Pos.to_nat p)%nat
      with (Pos.to_nat p + Pos.to_nat p)%nat by lia.
    now rewrite Nat.iter_add.
  - reflexivity.
Qed.

Lemma shr_1_m mrs : 0 <= shr_m mrs -> shr_m (shr_1 mrs) = shr_m mrs / 2.
Proof.
  destruct mrs as [m r s]. simpl. intros Hm.
  destruct m as [| [p | p |] | p]; cbn [shr_m];
    [reflexivity | | | reflexivity | lia].
  - apply (Z.div_unique _ _ _ 1); lia.
  - apply (Z.div_unique _ _ _ 0); lia.
Qed.

(** A shift loses nothing when the digit it drops is 0. *)
Lemma shr_1_exact mrs :
  0 <= shr_m mrs -> shr_r mrs = false -> shr_s mrs = false ->
  shr_m mrs mod 2 = 0 ->
  shr_r (shr_1 mrs) = false /\ shr_s (shr_1 mrs) = false.
Proof.
  destruct mrs as [m r s]. simpl. intros Hm -> -> Hmod.
  destruct m as [| [p | p |] | p]; simpl; try lia; try (split; reflexivity).
  - rewrite Pos2Z.inj_xI in Hmod.
    replace (2 * Zpos p + 1) with (1 + Zpos p * 2) in Hmod by lia.
    rewrite Z.mod_add in Hmod by lia. discriminate Hmod.
  - discriminate Hmod.
Qed.

Lemma shr_iter_m k mrs :
  0 <= shr_m mrs ->
  shr_m (Nat.iter k shr_1 mrs) = shr_m mrs / 2 ^ Z.of_nat k.
Proof.
  intros Hm. induction k as [| k IH].
  - simpl. now rewrite Z.div_1_r.
  - rewrite Nat.iter_succ, shr_1_m, IH.
    + rewrite Nat2Z.inj_succ, Z.pow_succ_r by lia.
      rewrite Z.div_div by lia. f_equal. lia.
    + rewrite IH. apply Z.div_pos; [lia |]. apply Z.pow_pos_nonneg; lia.
Qed.

Lemma shr_iter_exact k m :
  0 <= m -> m mod 2 ^ Z.of_nat k = 0 ->
  let mrs := Nat.iter k shr_1 (Build_shr_record m false false) in
  shr_r mrs = false /\ shr_s mrs = false.
Proof.
  intros Hm. induction k as [| k IH]; intros Hmod; [now split |].
  cbv zeta. rewrite Nat.iter_succ.
  rewrite Nat2Z.inj_succ, Z.pow_succ_r in Hmod by lia.
  assert (Hpow : 0 < 2 ^ Z.of_nat k) by (apply Z.pow_pos_nonneg; lia).
  assert (Hk : m mod 2 ^ Z.of_nat k = 0).
  { apply Z.mod_divide in Hmod; [| lia]. apply Z.mod_divide; [lia |].
    destruct Hmod as [c Hc]. exists (c * 2). lia. }
  destruct (IH Hk) as [Hr Hs].
  apply shr_1_exact; try assumption.
  - rewrite shr_iter_m by (simpl; lia). simpl. apply Z.div_pos; lia.
  - rewrite shr_iter_m by (simpl; lia). simpl.
    apply Z.mod_divide in Hmod; [| lia]. destruct Hmod as [c Hc].
    rewrite Hc.
    replace (c * (2 * 2 ^ Z.of_nat k)) with (c * 2 * 2 ^ Z.of_nat k) by lia.
    rewrite Z.div_mul by lia. now rewrite Z.mod_mul by lia.
Qed.

Lemma round_nearest_even_bounds q l :
  q <= round_nearest_even q l <= q + 1.
Proof.
  destruct l as [| []]; simpl; try lia. destruct (Z.even q); lia.
Qed.

(** Shifting [m] by [n] digits and rounding gives the quotient of [m] by
    [2^n] or the next integer, and the quotient when the division is
    exact. *)
Lemma shr_round m ex n :
  0 <= m -> 0 <= n ->
  let mrs := fst (shr (Build_shr_record m false false) ex n) in
  let m1 := round_nearest_even (shr_m mrs) (loc_of_shr_record mrs) in
  snd (shr (Build_shr_record m false false) ex n) = ex + n
  /\ m / 2 ^ n <= m1 <= m / 2 ^ n + 1
  /\ (m mod 2 ^ n = 0 -> m1 = m / 2 ^ n).
Proof.
  intros Hm Hn. destruct n as [| p | p]; [| | lia]; simpl shr.
  - cbn [fst snd shr_m loc_of_shr_record round_nearest_even].
    rewrite Z.div_1_r. split; [lia |]. split; [lia | reflexivity].
  - cbn [fst snd]. rewrite iter_pos_nat.
    pose proof (shr_iter_m (Pos.to_nat p) (Build_shr_record m false false) Hm)
      as Hq.
    rewrite positive_nat_Z in Hq. simpl shr_m in Hq.
    split; [reflexivity |]. cbv zeta. rewrite Hq.
    split; [apply round_nearest_even_bounds |].
    intros Hmod.
    destruct (shr_iter_exact (Pos.to_nat p) m Hm) as [Hr Hs];
      [now rewrite positive_nat_Z |].
    cbv zeta in Hr, Hs.
    destruct (Nat.iter (Pos.to_nat p) shr_1 (Build_shr_record m false false))
      as [m' r s]. simpl in Hr, Hs, Hq. subst. reflexivity.
Qed.

(** Shifting to the left. *)
Lemma Zpos_iter_xO m d : Zpos (Pos.iter xO m d) = Zpos m * 2 ^ Zpos d.
Proof.
  induction d as [| d IH] using Pos.peano_ind.
  - simpl. lia.
  - rewrite Pos.iter_succ, Pos2Z.inj_xO, IH, Pos2Z.inj_succ, Z.pow_succ_r by lia.
    lia.
Qed.

Lemma Zdigits2_le a k : 0 <= a < 2 ^ k -> 0 <= k -> Zdigits2 a <= k.
Proof.
  intros [Ha Hlt] Hk. destruct a as [| p | p]; [exact Hk | | lia].
  now apply digits2_pos_bound.
Qed.

Lemma Zdigits2_lt a : 0 <= a -> 0 <= Zdigits2 a /\ a < 2 ^ Zdigits2 a.
Proof.
  intros Ha. destruct a as [| p | p]; [simpl; lia | | lia].
  split; [simpl; lia | apply digits2_pos_lt].
Qed.

(** The mantissa after a shift, whatever the digits that were dropped
    before. *)
Lemma shr_m_record_of_loc m l : shr_m (shr_record_of_loc m l) = m.
Proof. now destruct l as [| []]. Qed.

Lemma shr_spec mrs e n :
  0 <= shr_m mrs ->
  shr_m (fst (shr mrs e n)) = shr_m mrs / 2 ^ Z.max n 0
  /\ snd (shr mrs e n) = e + Z.max n 0.
Proof.
  intros Hm. destruct n as [| p | p]; cbn [shr fst snd].
  - simpl. rewrite Z.div_1_r. lia.
  - rewrite iter_pos_nat, shr_iter_m, positive_nat_Z by exact Hm.
    replace (Z.max (Zpos p) 0) with (Zpos p) by lia. split; reflexivity.
  - replace (Z.max (Zneg p) 0) with 0 by lia. simpl. rewrite Z.div_1_r. lia.
Qed.

(** *** The rounding of a format *)

Section Rounding.

(** A format: [prec] digits, exponents below [emax]. *)
Variables prec emax : Z.
Hypothesis prec_gt_0 : 0 < prec.
Hypothesis prec_lt_emax : prec < emax.

Lemma fexp_ge_emin e : emin prec emax <= fexp prec emax e.
Proof. unfold fexp. lia. Qed.

Lemma fexp_monotone e1 e2 :
  e1 <= e2 -> fexp prec emax e1 <= fexp prec emax e2.
Proof. unfold fexp. lia. Qed.

Lemma canonical_mantissa_fexp m e :
  canonical_mantissa prec emax m e = true ->
  fexp prec emax (Zpos (digits2_pos m) + e) = e.
Proof. unfold canonical_mantissa. intros H. now apply Z.eqb_eq. Qed.

Lemma bounded_canonical m e :
  bounded prec emax m e = true ->
  canonical_mantissa prec emax m e = true /\ e <= emax - prec.
Proof.
  unfold bounded. intros H. apply andb_true_iff in H as [Hc He].
  split; [assumption | now apply Z.leb_le].
Qed.

Lemma bounded_lt_emax m e :
  bounded prec emax m e = true -> (F2R (Zpos m) e < bpow emax)%R.
Proof.
  intros H. apply bounded_canonical in H as [Hc He].
  apply canonical_mantissa_fexp in Hc. unfold fexp, emin in Hc.
  eapply Rlt_le_trans; [apply F2R_digits_lt |]. apply bpow_le. lia.
Qed.

(** Of two canonical numbers, the one with the smaller exponent is the
    smaller. *)
Lemma canonical_exponent_lt m1 e1 m2 e2 :
  canonical_mantissa prec emax m1 e1 = true ->
  canonical_mantissa prec emax m2 e2 = true ->
  e1 < e2 -> (F2R (Zpos m1) e1 < F2R (Zpos m2) e2)%R.
Proof.
  intros H1 H2 Hlt.
  apply canonical_mantissa_fexp in H1, H2. unfold fexp, emin in H1, H2.
  eapply Rlt_le_trans; [apply F2R_digits_lt |].
  eapply Rle_trans; [| apply F2R_digits_ge]. apply bpow_le. lia.
Qed.

(** The second step of the rounding: a mantissa that has grown to
    [2^prec] is brought back to [prec] digits. *)
Lemma renormalize sx m1 g :
  0 <= m1 <= 2 ^ prec ->
  emin prec emax <= g ->
  g = emin prec emax \/ 2 ^ (prec - 1) <= m1 ->
  rounds_to prec emax
    (let '(mrs'', e'') := shr_fexp prec emax m1 g loc_Exact in
     match shr_m mrs'' with
     | Z0 => S754_zero sx
     | Zpos m =>
         if e'' <=? emax - prec then S754_finite sx m e'' else S754_infinity sx
     | Zneg _ => S754_nan
     end) sx (F2R m1 g).
Proof.
  intros Hm1 Hg Hnorm. unfold shr_fexp.
  assert (Hemax : emin prec emax <= emax - prec) by (unfold emin; lia).
  destruct m1 as [| p | p]; [| | lia].
  - (* the mantissa is 0 *)
    cbn [Zdigits2 shr_record_of_loc].
    assert (Hn : fexp prec emax (0 + g) - g <= 0) by (unfold fexp; lia).
    destruct (fexp prec emax (0 + g) - g) as [| n | n] eqn:Hn'; try lia;
      cbn [shr shr_m]; left; (split; [reflexivity | unfold F2R; simpl; lra]).
  - cbn [Zdigits2 shr_record_of_loc].
    destruct (Z.eq_dec (Zpos p) (2 ^ prec)) as [Hcarry | Hcarry].
    + (* the mantissa is [2^prec] *)
      assert (Hd : Zpos (digits2_pos p) = prec + 1).
      { apply Z.le_antisymm.
        - apply digits2_pos_bound; [lia |]. rewrite Hcarry.
          apply Z.pow_lt_mono_r; lia.
        - assert (prec < Zpos (digits2_pos p)); [| lia].
          apply digits2_pos_gt; lia. }
      rewrite Hd.
      replace (fexp prec emax (prec + 1 + g) - g) with 1 by (unfold fexp; lia).
      cbn [shr SpecFloat.iter_pos].
      pose proof (shr_1_m (Build_shr_record (Zpos p) false false)) as Hhalf.
      cbn [shr_m] in Hhalf. rewrite Hhalf by lia.
      assert (Hpow : 2 ^ prec = 2 ^ (prec - 1) * 2).
      { replace prec with (Z.succ (prec - 1)) at 1 by lia.
        rewrite Z.pow_succ_r by lia. lia. }
      assert (Hquot : Zpos p / 2 = 2 ^ (prec - 1))
        by (rewrite Hcarry, Hpow; apply Z.div_mul; lia).
      rewrite Hquot.
      assert (Hpos : 0 < 2 ^ (prec - 1)) by (apply Z.pow_pos_nonneg; lia).
      destruct (2 ^ (prec - 1)) as [| h | h] eqn:Hh; try lia.
      assert (Hval : F2R (Zpos h) (g + 1) = F2R (Zpos p) g).
      { rewrite <- (F2R_shift (Zpos h) (g + 1) 1) by lia.
        f_equal; [change (2 ^ 1) with 2; lia | lia]. }
      assert (Hdh : Zpos (digits2_pos h) = prec).
      { apply Z.le_antisymm.
        - apply digits2_pos_bound; [lia |]. rewrite <- Hh.
          apply Z.pow_lt_mono_r; lia.
        - assert (prec - 1 < Zpos (digits2_pos h)); [| lia].
          apply digits2_pos_gt; lia. }
      destruct (Z.leb_spec (g + 1) (emax - prec)) as [Hle | Hgt].
      * right; left. exists h, (g + 1). split; [reflexivity |].
        split; [| exact Hval].
        unfold bounded, canonical_mantissa. rewrite Hdh.
        apply andb_true_iff. split; [apply Z.eqb_eq | apply Z.leb_le];
          unfold fexp; lia.
      * right; right. split; [reflexivity |]. rewrite <- Hval.
        eapply Rle_trans; [| apply F2R_digits_ge]. apply bpow_le. lia.
    + (* the mantissa is below [2^prec] *)
      assert (Hd : Zpos (digits2_pos p) <= prec)
        by (apply digits2_pos_bound; lia).
      assert (Hcan : fexp prec emax (Zpos (digits2_pos p) + g) = g).
      { destruct Hnorm as [-> | Hnorm]; [unfold fexp; lia |].
        assert (prec - 1 < Zpos (digits2_pos p))
          by (apply digits2_pos_gt; lia).
        unfold fexp. lia. }
      rewrite Hcan, Z.sub_diag. cbn [shr shr_m].
      destruct (Z.leb_spec g (emax - prec)) as [Hle | Hgt].
      * right; left. exists p, g. split; [reflexivity |].
        split; [| reflexivity].
        unfold bounded, canonical_mantissa.
        apply andb_true_iff. split; [now apply Z.eqb_eq | now apply Z.leb_le].
      * right; right. split; [reflexivity |].
        destruct Hnorm as [-> | Hnorm]; [lia |].
        assert (prec - 1 < Zpos (digits2_pos p))
          by (apply digits2_pos_gt; lia).
        eapply Rle_trans; [| apply F2R_digits_ge]. apply bpow_le. lia.
Qed.

(** Rounding a mantissa that has at least the digits of the format: the
    result is [m1 * 2^g], where [g] is the exponent that the format gives
    to the magnitude and [m1] is the mantissa shifted to it, rounded to
    one of the two integers around. *)
Lemma binary_round_aux_spec sx mx ex :
  let g := fexp prec emax (Zpos (digits2_pos mx) + ex) in
  ex <= g ->
  exists m1,
    Zpos mx / 2 ^ (g - ex) <= m1 <= Zpos mx / 2 ^ (g - ex) + 1
    /\ (Zpos mx mod 2 ^ (g - ex) = 0 -> m1 = Zpos mx / 2 ^ (g - ex))
    /\ rounds_to prec emax
         (binary_round_aux prec emax sx (Zpos mx) ex loc_Exact) sx (F2R m1 g).
Proof.
  intros g Hg. unfold binary_round_aux, shr_fexp at 1.
  cbn [Zdigits2 shr_record_of_loc]. fold g.
  destruct (shr_round (Zpos mx) ex (g - ex)) as (He' & Hm1 & Hexact); [lia.. |].
  destruct (shr (Build_shr_record (Zpos mx) false false) ex (g - ex))
    as [mrs' e'] eqn:Hshr.
  cbn [fst snd] in He', Hm1, Hexact.
  replace e' with g by lia.
  set (m1 := round_nearest_even (shr_m mrs') (loc_of_shr_record mrs')) in *.
  exists m1. split; [exact Hm1 |]. split; [exact Hexact |].
  set (n := g - ex) in *. set (d := Zpos (digits2_pos mx)) in *.
  assert (Hn : 0 <= n) by lia.
  assert (Hpow : 0 < 2 ^ n) by (apply Z.pow_pos_nonneg; lia).
  pose proof (digits2_pos_lt mx) as Hlt. pose proof (digits2_pos_ge mx) as Hge.
  fold d in Hlt, Hge.
  assert (Hq0 : 0 <= Zpos mx / 2 ^ n) by (apply Z.div_pos; lia).
  apply renormalize.
  - split; [lia |].
    assert (Zpos mx / 2 ^ n < 2 ^ prec); [| lia].
    apply Z.div_lt_upper_bound; [lia |].
    rewrite <- Z.pow_add_r by lia.
    eapply Z.lt_le_trans; [exact Hlt |].
    apply Z.pow_le_mono_r; [lia |]. unfold n, g, fexp. lia.
  - apply fexp_ge_emin.
  - destruct (Z.eq_dec g (emin prec emax)) as [| Hne]; [now left | right].
    assert (Hnd : n = d - prec) by (unfold n, g, fexp in *; lia).
    assert (2 ^ (prec - 1) <= Zpos mx / 2 ^ n); [| lia].
    apply Z.div_le_lower_bound; [lia |].
    rewrite <- Z.pow_add_r by lia.
    replace (n + (prec - 1)) with (d - 1) by lia. exact Hge.
Qed.

(** The rounded value does not pass a number of the format that the
    exact value does not pass. *)
Lemma round_upper mx ex m1 mh eh :
  let g := fexp prec emax (Zpos (digits2_pos mx) + ex) in
  ex <= g ->
  m1 <= Zpos mx / 2 ^ (g - ex) + 1 ->
  (Zpos mx mod 2 ^ (g - ex) = 0 -> m1 = Zpos mx / 2 ^ (g - ex)) ->
  canonical_mantissa prec emax mh eh = true ->
  (F2R (Zpos mx) ex <= F2R (Zpos mh) eh)%R ->
  (F2R m1 g <= F2R (Zpos mh) eh)%R.
Proof.
  intros g Hg Hm1 Hexact Hcan Hle.
  apply canonical_mantissa_fexp in Hcan.
  assert (Hgeh : g <= eh).
  { rewrite <- Hcan. apply fexp_monotone.
    assert (Zpos (digits2_pos mx) - 1 + ex < Zpos (digits2_pos mh) + eh); [| lia].
    apply bpow_lt_inv.
    eapply Rle_lt_trans; [apply F2R_digits_ge |].
    eapply Rle_lt_trans; [exact Hle | apply F2R_digits_lt]. }
  set (n := g - ex) in *.
  assert (Hpow : 0 < 2 ^ n) by (apply Z.pow_pos_nonneg; lia).
  set (K := Zpos mh * 2 ^ (eh - g)).
  assert (HK : F2R (Zpos mh) eh = F2R K g).
  { unfold K. rewrite <- (F2R_shift (Zpos mh) eh (eh - g)) by lia.
    f_equal. lia. }
  rewrite HK in Hle |- *. apply F2R_le.
  rewrite <- (F2R_shift K g n) in Hle by lia.
  replace (g - n) with ex in Hle by lia. apply F2R_le in Hle.
  destruct (Z.eq_dec (Zpos mx) (K * 2 ^ n)) as [Heq | Hne].
  - rewrite Hexact; rewrite Heq.
    + rewrite Z.div_mul by lia. lia.
    + apply Z.mod_mul. lia.
  - assert (Zpos mx / 2 ^ n < K); [| lia].
    apply Z.div_lt_upper_bound; lia.
Qed.

Lemma round_lower mx ex m1 ml el :
  let g := fexp prec emax (Zpos (digits2_pos mx) + ex) in
  ex <= g ->
  Zpos mx / 2 ^ (g - ex) <= m1 ->
  canonical_mantissa prec emax ml el = true ->
  (F2R (Zpos ml) el <= F2R (Zpos mx) ex)%R ->
  (F2R (Zpos ml) el <= F2R m1 g)%R.
Proof.
  intros g Hg Hm1 Hcan Hle.
  pose proof (canonical_mantissa_fexp _ _ Hcan) as Hcan'.
  set (n := g - ex) in *.
  assert (Hpow : 0 < 2 ^ n) by (apply Z.pow_pos_nonneg; lia).
  destruct (Z_le_gt_dec g el) as [Hgel | Hgel].
  - set (K := Zpos ml * 2 ^ (el - g)).
    assert (HK : F2R (Zpos ml) el = F2R K g).
    { unfold K. rewrite <- (F2R_shift (Zpos ml) el (el - g)) by lia.
      f_equal. lia. }
    rewrite HK in Hle |- *. apply F2R_le.
    rewrite <- (F2R_shift K g n) in Hle by lia.
    replace (g - n) with ex in Hle by lia. apply F2R_le in Hle.
    assert (K <= Zpos mx / 2 ^ n); [| lia].
    apply Z.div_le_lower_bound; lia.
  - set (d := Zpos (digits2_pos mx)) in *.
    assert (Hdl : Zpos (digits2_pos ml) + el < d + ex).
    { destruct (Z_lt_le_dec (Zpos (digits2_pos ml) + el) (d + ex)) as [| Hge];
        [assumption |].
      apply fexp_monotone in Hge. fold g in Hge. lia. }
    pose proof (fexp_ge_emin (Zpos (digits2_pos ml) + el)) as Hemin.
    assert (Hnd : n = d - prec) by (unfold n, g, fexp in *; lia).
    eapply Rle_trans; [apply Rlt_le, F2R_digits_lt |].
    apply Rle_trans with (F2R (2 ^ (prec - 1)) g).
    + unfold F2R. rewrite <- bpow_IZR, <- bpow_plus by lia.
      apply bpow_le. unfold n in Hnd. lia.
    + apply F2R_le.
      assert (2 ^ (prec - 1) <= Zpos mx / 2 ^ n); [| lia].
      apply Z.div_le_lower_bound; [lia |].
      rewrite <- Z.pow_add_r by lia.
      replace (n + (prec - 1)) with (d - 1) by lia. apply digits2_pos_ge.
Qed.

(** Rounding, bounded from above by a number of the format. *)
Lemma binary_round_aux_upper sx mx ex mh eh :
  ex <= fexp prec emax (Zpos (digits2_pos mx) + ex) ->
  bounded prec emax mh eh = true ->
  (F2R (Zpos mx) ex <= F2R (Zpos mh) eh)%R ->
  let x := binary_round_aux prec emax sx (Zpos mx) ex loc_Exact in
  x = S754_zero sx
  \/ exists m e, x = S754_finite sx m e
                 /\ bounded prec emax m e = true
                 /\ (F2R (Zpos m) e <= F2R (Zpos mh) eh)%R.
Proof.
  intros Hg Hb Hle x.
  destruct (binary_round_aux_spec sx mx ex Hg) as (m1 & Hm1 & Hexact & Hr).
  pose proof (bounded_canonical _ _ Hb) as [Hcan _].
  pose proof (round_upper mx ex m1 mh eh Hg ltac:(lia) Hexact Hcan Hle) as Hup.
  destruct Hr as [[? _] | [(m & e & ? & ? & Hv) | [_ Hinf]]].
  - now left.
  - right. exists m, e. rewrite Hv. auto.
  - pose proof (bounded_lt_emax _ _ Hb). lra.
Qed.

(** Rounding, between two numbers of the format. *)
Lemma binary_round_aux_between sx mx ex ml el mh eh :
  ex <= fexp prec emax (Zpos (digits2_pos mx) + ex) ->
  canonical_mantissa prec emax ml el = true ->
  bounded prec emax mh eh = true ->
  (F2R (Zpos ml) el <= F2R (Zpos mx) ex <= F2R (Zpos mh) eh)%R ->
  exists m e,
    binary_round_aux prec emax sx (Zpos mx) ex loc_Exact = S754_finite sx m e
    /\ bounded prec emax m e = true
    /\ (F2R (Zpos ml) el <= F2R (Zpos m) e <= F2R (Zpos mh) eh)%R.
Proof.
  intros Hg Hl Hb [Hlo Hhi].
  destruct (binary_round_aux_spec sx mx ex Hg) as (m1 & Hm1 & Hexact & Hr).
  pose proof (bounded_canonical _ _ Hb) as [Hcan _].
  pose proof (round_upper mx ex m1 mh eh Hg ltac:(lia) Hexact Hcan Hhi) as Hup.
  pose proof (round_lower mx ex m1 ml el Hg ltac:(lia) Hl Hlo) as Hdown.
  assert (Hpos : (0 < F2R (Zpos ml) el)%R).
  { unfold F2R. pose proof (bpow_gt_0 el).
    assert (0 < IZR (Zpos ml))%R by (apply IZR_lt; lia). nra. }
  destruct Hr as [[_ Hz] | [(m & e & ? & ? & Hv) | [_ Hinf]]].
  - lra.
  - exists m, e. rewrite Hv. auto.
  - pose proof (bounded_lt_emax _ _ Hb). lra.
Qed.

(** [binary_round] first gives the mantissa the digits of the format. *)
Lemma shl_align_fexp mx ex :
  let '(mz, ez) :=
    shl_align mx ex (fexp prec emax (Zpos (digits2_pos mx) + ex)) in
  F2R (Zpos mz) ez = F2R (Zpos mx) ex
  /\ ez <= fexp prec emax (Zpos (digits2_pos mz) + ez).
Proof.
  unfold shl_align.
  destruct (fexp prec emax (Zpos (digits2_pos mx) + ex) - ex) as [| d | d] eqn:Hd.
  - split; [reflexivity | lia].
  - split; [reflexivity | lia].
  - rewrite digits2_pos_iter_xO, Zpos_iter_xO.
    replace (fexp prec emax (Zpos (digits2_pos mx) + ex)) with (ex - Zpos d) by lia.
    split; [apply F2R_shift; lia |].
    replace (Zpos (digits2_pos mx) + Zpos d + (ex - Zpos d))
      with (Zpos (digits2_pos mx) + ex) by lia.
    lia.
Qed.

Lemma binary_round_upper sx mx ex mh eh :
  bounded prec emax mh eh = true ->
  (F2R (Zpos mx) ex <= F2R (Zpos mh) eh)%R ->
  let x := binary_round prec emax sx mx ex in
  x = S754_zero sx
  \/ exists m e, x = S754_finite sx m e
                 /\ bounded prec emax m e = true
                 /\ (F2R (Zpos m) e <= F2R (Zpos mh) eh)%R.
Proof.
  intros Hb Hle. unfold binary_round.
  pose proof (shl_align_fexp mx ex) as Halign.
  destruct (shl_align mx ex (fexp prec emax (Zpos (digits2_pos mx) + ex)))
    as [mz ez].
  destruct Halign as [Hv Hg]. rewrite <- Hv in Hle.
  now apply binary_round_aux_upper.
Qed.

Lemma binary_round_between sx mx ex ml el mh eh :
  canonical_mantissa prec emax ml el = true ->
  bounded prec emax mh eh = true ->
  (F2R (Zpos ml) el <= F2R (Zpos mx) ex <= F2R (Zpos mh) eh)%R ->
  exists m e,
    binary_round prec emax sx mx ex = S754_finite sx m e
    /\ bounded prec emax m e = true
    /\ (F2R (Zpos ml) el <= F2R (Zpos m) e <= F2R (Zpos mh) eh)%R.
Proof.
  intros Hl Hb Hle. unfold binary_round.
  pose proof (shl_align_fexp mx ex) as Halign.
  destruct (shl_align mx ex (fexp prec emax (Zpos (digits2_pos mx) + ex)))
    as [mz ez].
  destruct Halign as [Hv Hg]. rewrite <- Hv in Hle.
  now apply binary_round_aux_between.
Qed.

(** The order of two positive numbers of the format is the order of the
    real numbers they denote. *)
Lemma SFcompare_canonical m1 e1 m2 e2 :
  canonical_mantissa prec emax m1 e1 = true ->
  canonical_mantissa prec emax m2 e2 = true ->
  SFcompare (S754_finite false m1 e1) (S754_finite false m2 e2) = Some Lt
  <-> (F2R (Zpos m1) e1 < F2R (Zpos m2) e2)%R.
Proof.
  intros H1 H2. cbn [SFcompare].
  destruct (Z.compare_spec e1 e2) as [-> | Hlt | Hgt].
  - rewrite F2R_lt. change (Pos.compare_cont Eq m1 m2) with (m1 ?= m2)%positive.
    split; intros H.
    + injection H as H. change (m1 < m2)%positive in H. lia.
    + f_equal. change (m1 < m2)%positive. lia.
  - split; [intros _ | reflexivity]. now apply canonical_exponent_lt.
  - split; [discriminate |]. intros Hlt.
    pose proof (canonical_exponent_lt _ _ _ _ H2 H1 Hgt). lra.
Qed.

(** Rounding a magnitude below [2^emax] gives neither NaN nor an
    infinity, wherever the exact value lies between the mantissas. *)
Lemma binary_round_aux_finite sx mz ez lz :
  0 <= mz -> Zdigits2 mz + ez < emax -> ez <= emax - prec ->
  isFinite (binary_round_aux prec emax sx mz ez lz) = true.
Proof.
  intros Hmz Hd He. unfold binary_round_aux, shr_fexp.
  set (n1 := fexp prec emax (Zdigits2 mz + ez) - ez).
  destruct (shr_spec (shr_record_of_loc mz lz) ez n1) as [Hq He'];
    [now rewrite shr_m_record_of_loc |].
  rewrite shr_m_record_of_loc in Hq.
  destruct (shr (shr_record_of_loc mz lz) ez n1) as [mrs' e'].
  cbn [fst snd] in Hq, He'.
  pose proof (round_nearest_even_bounds (shr_m mrs') (loc_of_shr_record mrs'))
    as Hm1.
  set (m1 := round_nearest_even (shr_m mrs') (loc_of_shr_record mrs')) in *.
  rewrite Hq in Hm1.
  destruct (Zdigits2_lt mz Hmz) as [Hdz Hlt].
  set (dz := Zdigits2 mz) in *. set (k := Z.max n1 0) in *.
  assert (Hpow : 0 < 2 ^ k) by (apply Z.pow_pos_nonneg; lia).
  assert (Hq0 : 0 <= mz / 2 ^ k) by (apply Z.div_pos; lia).
  assert (Hd1 : Zdigits2 m1 + e' <= emax).
  { destruct (Z_le_gt_dec k dz) as [Hk | Hk].
    - assert (Zdigits2 m1 <= dz - k + 1); [| lia].
      apply Zdigits2_le; [| lia]. split; [lia |].
      assert (mz / 2 ^ k < 2 ^ (dz - k)).
      { apply Z.div_lt_upper_bound; [lia |].
        rewrite <- Z.pow_add_r by lia. now replace (k + (dz - k)) with dz by lia. }
      rewrite Z.pow_add_r by lia. change (2 ^ 1) with 2. lia.
    - assert (mz / 2 ^ k = 0) as Hzero.
      { apply Z.div_small. split; [lia |].
        eapply Z.lt_le_trans; [exact Hlt |]. apply Z.pow_le_mono_r; lia. }
      assert (Zdigits2 m1 <= 1) by (apply Zdigits2_le; simpl; lia).
      unfold k, n1, fexp, emin in *. lia. }
  set (n2 := fexp prec emax (Zdigits2 m1 + e') - e').
  destruct (shr_spec (shr_record_of_loc m1 loc_Exact) e' n2) as [Hq2 He''];
    [rewrite shr_m_record_of_loc; lia |].
  rewrite shr_m_record_of_loc in Hq2.
  destruct (shr (shr_record_of_loc m1 loc_Exact) e' n2) as [mrs'' e''].
  cbn [fst snd] in Hq2, He''.
  assert (Hpow2 : 0 < 2 ^ Z.max n2 0) by (apply Z.pow_pos_nonneg; lia).
  assert (Hq20 : 0 <= m1 / 2 ^ Z.max n2 0) by (apply Z.div_pos; lia).
  destruct (shr_m mrs'') as [| m | m]; [reflexivity | | lia].
  assert (Hle : e'' <= emax - prec) by (unfold n2, k, n1, fexp, emin in *; lia).
  apply Z.leb_le in Hle. now rewrite Hle.
Qed.

End Rounding.

(** *** Arithmetic on real values *)

Lemma F2R_plus a b e : F2R (a + b) e = (F2R a e + F2R b e)%R.
Proof. unfold F2R. rewrite plus_IZR. ring. Qed.

Lemma F2R_minus a b e : F2R (a - b) e = (F2R a e - F2R b e)%R.
Proof. unfold F2R. rewrite minus_IZR. ring. Qed.

Lemma F2R_mult a b e1 e2 : F2R (a * b) (e1 + e2) = (F2R a e1 * F2R b e2)%R.
Proof. unfold F2R. rewrite mult_IZR, bpow_plus. ring. Qed.

Lemma F2R_pos m e : (0 < F2R (Zpos m) e)%R.
Proof.
  unfold F2R. pose proof (bpow_gt_0 e).
  assert (0 < IZR (Zpos m))%R by (apply IZR_lt; lia). nra.
Qed.

Lemma F2R_one k : 0 <= k -> F2R (2 ^ k) (- k) = 1%R.
Proof.
  intros Hk. unfold F2R. rewrite <- bpow_IZR, <- bpow_plus by lia.
  now replace (k + - k) with 0 by lia.
Qed.

(** Numbers on a common exponent are compared as integers. *)
Lemma F2R_le_Z e0 m1 e1 m2 e2 :
  e0 <= e1 -> e0 <= e2 ->
  (m1 * 2 ^ (e1 - e0) <=? m2 * 2 ^ (e2 - e0)) = true ->
  (F2R m1 e1 <= F2R m2 e2)%R.
Proof.
  intros H1 H2 Hle. apply Z.leb_le in Hle.
  rewrite <- (F2R_shift m1 e1 (e1 - e0)), <- (F2R_shift m2 e2 (e2 - e0)) by lia.
  replace (e1 - (e1 - e0)) with e0 by lia.
  replace (e2 - (e2 - e0)) with e0 by lia.
  now apply F2R_le.
Qed.

Lemma F2R_eq_Z e0 m1 e1 m2 e2 :
  e0 <= e1 -> e0 <= e2 ->
  (m1 * 2 ^ (e1 - e0) =? m2 * 2 ^ (e2 - e0)) = true ->
  F2R m1 e1 = F2R m2 e2.
Proof.
  intros H1 H2 Heq. apply Z.eqb_eq in Heq.
  rewrite <- (F2R_shift m1 e1 (e1 - e0)), <- (F2R_shift m2 e2 (e2 - e0)) by lia.
  replace (e1 - (e1 - e0)) with e0 by lia.
  replace (e2 - (e2 - e0)) with e0 by lia.
  now rewrite Heq.
Qed.

(** *** binary64: the comparison and the operations of line 39 *)

(** [>=] on positive numbers. *)
Lemma ge_finite m1 e1 m2 e2 :
  canonical_mantissa 53 1024 m1 e1 = true ->
  canonical_mantissa 53 1024 m2 e2 = true ->
  JS.ge (S754_finite false m1 e1) (S754_finite false m2 e2) = true
  <-> (F2R (Zpos m2) e2 <= F2R (Zpos m1) e1)%R.
Proof.
  intros H1 H2.
  pose proof (SFcompare_canonical 53 1024 m1 e1 m2 e2 H1 H2) as Hlt.
  unfold JS.ge, JS.IsLessThan.
  destruct (SFcompare (S754_finite false m1 e1) (S754_finite false m2 e2))
    as [[| |] |] eqn:Hc.
  - split; [intros _ | reflexivity].
    apply Rnot_lt_le. intros H. apply Hlt in H. discriminate H.
  - split; [discriminate |]. intros Hle.
    assert (F2R (Zpos m1) e1 < F2R (Zpos m2) e2)%R by now apply Hlt. lra.
  - split; [intros _ | reflexivity].
    apply Rnot_lt_le. intros H. apply Hlt in H. discriminate H.
  - cbn [SFcompare] in Hc. discriminate Hc.
Qed.

(** Two negative numbers compare as their magnitudes, the other way
    round. *)
Lemma SFcompare_negative m1 e1 m2 e2 :
  SFcompare (S754_finite true m1 e1) (S754_finite true m2 e2)
  = SFcompare (S754_finite false m2 e2) (S754_finite false m1 e1).
Proof.
  cbn [SFcompare]. rewrite (Z.compare_antisym e1 e2).
  destruct (e1 ?= e2); cbn [CompOpp]; try reflexivity.
  change (Pos.compare_cont Eq m1 m2) with (m1 ?= m2)%positive.
  change (Pos.compare_cont Eq m2 m1) with (m2 ?= m1)%positive.
  now rewrite (Pos.compare_antisym m1 m2).
Qed.

(** A number of [[-1, 1]] that is not a zero: its magnitude is at most 1. *)
Lemma in_unit_range_finite s m e :
  in_unit_range (S754_finite s m e) ->
  bounded 53 1024 m e = true
  /\ (F2R (Zpos m) e <= 1)%R.
Proof.
  intros (Hvalid & Hlo & Hhi). cbn [valid_binary] in Hvalid.
  split; [exact Hvalid |].
  destruct (bounded_canonical _ _ _ _ Hvalid) as [Hcan _].
  rewrite <- (F2R_one 52) by lia.
  assert (Hone : canonical_mantissa 53 1024 (2 ^ 52)%positive (-52) = true)
    by reflexivity.
  destruct s.
  - unfold JS.ge, JS.IsLessThan in Hlo. cbn [SFopp JS.c_1 negb] in Hlo.
    rewrite SFcompare_negative in Hlo.
    now apply (ge_finite (2 ^ 52) (-52) m e).
  - now apply (ge_finite (2 ^ 52) (-52) m e).
Qed.

(** The operands of a sum or a difference are brought to the smaller of
    their exponents. *)
Lemma shl_align_min mx ex ez :
  ez <= ex -> F2R (Zpos (fst (shl_align mx ex ez))) ez = F2R (Zpos mx) ex.
Proof.
  intros H. unfold shl_align.
  destruct (ez - ex) as [| d | d] eqn:Hd; cbn [fst]; try lia.
  - now replace ez with ex by lia.
  - rewrite Zpos_iter_xO. replace ez with (ex - Zpos d) by lia.
    apply F2R_shift. lia.
Qed.

(** [0.46 * c] for a [c] of magnitude at most 1. *)
Lemma mul_0_46_range s m e :
  bounded 53 1024 m e = true ->
  (F2R (Zpos m) e <= 1)%R ->
  JS.mul JS.c_0_46 (S754_finite s m e) = S754_zero s
  \/ exists mp ep,
       JS.mul JS.c_0_46 (S754_finite s m e) = S754_finite s mp ep
       /\ bounded 53 1024 mp ep = true
       /\ (F2R (Zpos mp) ep <= F2R 0x1d70a3d70a3d71 (-54))%R.
Proof.
  intros Hb Hle. unfold JS.mul, JS.c_0_46, JS.prec, JS.emax.
  cbn [SFmul xorb].
  apply binary_round_aux_upper; [lia | lia | | reflexivity |].
  - assert (52 < Zpos (digits2_pos (0x1d70a3d70a3d71 * m))).
    { apply digits2_pos_gt; [lia |]. rewrite Pos2Z.inj_mul. lia. }
    unfold fexp, emin. lia.
  - rewrite Pos2Z.inj_mul, F2R_mult.
    pose proof (F2R_pos 0x1d70a3d70a3d71 (-54)). nra.
Qed.

(** [0.54 - p] for a [p] of magnitude at most 0.46, and below 0.46 when
    [p] is negative. *)
Lemma sub_0_54_range (s : bool) mp ep :
  bounded 53 1024 mp ep = true ->
  (F2R (Zpos mp) ep
   <= F2R (if s then 0x1d70a3d70a3d70 else 0x1d70a3d70a3d71)%Z (-54))%R ->
  exists md ed,
    JS.sub JS.c_0_54 (S754_finite s mp ep) = S754_finite false md ed
    /\ bounded 53 1024 md ed = true
    /\ (F2R 0x147ae147ae147c (-56) <= F2R (Zpos md) ed <= 1)%R.
Proof.
  intros Hb Hle. unfold JS.sub, JS.c_0_54, JS.prec, JS.emax. cbn [SFsub].
  set (ez := Z.min (-53) ep).
  pose proof (shl_align_min 0x1147ae147ae148 (-53) ez ltac:(lia)) as HA.
  pose proof (shl_align_min mp ep ez ltac:(lia)) as HB.
  set (A := Zpos (fst (shl_align 0x1147ae147ae148 (-53) ez))) in *.
  set (B := Zpos (fst (shl_align mp ep ez))) in *.
  pose proof (F2R_pos mp ep) as Hp.
  assert (H54 : F2R 0x1147ae147ae148 (-53) = F2R 0x228f5c28f5c290 (-54))
    by (now apply (F2R_eq_Z (-54))).
  assert (Hlo : F2R 0x147ae147ae147c (-56) = F2R 0x51eb851eb851f (-54))
    by (now apply (F2R_eq_Z (-56))).
  assert (Hone : F2R (2 ^ 54) (-54) = 1%R) by (now apply (F2R_one 54)).
  assert (HD : (F2R 0x147ae147ae147c (-56)
                <= F2R (cond_Zopp false A - cond_Zopp s B) ez <= 1)%R).
  { rewrite F2R_minus. destruct s; cbn [cond_Zopp].
    - replace (F2R (- B) ez) with (- F2R B ez)%R
        by (unfold F2R; rewrite opp_IZR; ring).
      rewrite HA, HB, H54, Hlo, <- Hone.
      change (2 ^ 54) with (0x228f5c28f5c290 + 0x1d70a3d70a3d70).
      rewrite F2R_plus.
      assert (F2R 0x51eb851eb851f (-54) <= F2R 0x228f5c28f5c290 (-54))%R
        by (now apply (F2R_le_Z (-54))).
      lra.
    - rewrite HA, HB, H54, Hlo, <- Hone.
      change 0x51eb851eb851f with (0x228f5c28f5c290 - 0x1d70a3d70a3d71).
      rewrite F2R_minus.
      assert (F2R 0x228f5c28f5c290 (-54) <= F2R (2 ^ 54) (-54))%R
        by (now apply (F2R_le_Z (-54))).
      lra. }
  destruct (cond_Zopp false A - cond_Zopp s B) as [| dd | dd] eqn:Hdd.
  - exfalso. pose proof (F2R_pos 0x147ae147ae147c (-56)).
    unfold F2R at 2 in HD. simpl in HD. lra.
  - cbn [binary_normalize].
    assert (H1 : F2R 0x10000000000000 (-52) = 1%R) by (now apply (F2R_one 52)).
    rewrite <- H1 in HD |- *.
    apply binary_round_between; [lia | lia | reflexivity | reflexivity | exact HD].
  - exfalso. pose proof (F2R_pos 0x147ae147ae147c (-56)).
    pose proof (F2R_pos dd ez).
    replace (F2R (Zneg dd) ez) with (- F2R (Zpos dd) ez)%R in HD
      by (unfold F2R; change (Zneg dd) with (- Zpos dd); rewrite opp_IZR; ring).
    lra.
Qed.

(** The store into the [Float32Array], for a value between
    [0.54 - 0.46] and 1. *)
Lemma fround_range m e :
  bounded 53 1024 m e = true ->
  (F2R 0x147ae147ae147c (-56) <= F2R (Zpos m) e <= 1)%R ->
  exists m' e',
    JS.fround (S754_finite false m e) = S754_finite false m' e'
    /\ bounded 53 1024 m' e' = true
    /\ (F2R 0x147ae140000000 (-56) <= F2R (Zpos m') e' <= 1)%R.
Proof.
  intros Hb [Hlo Hhi]. unfold JS.fround, JS.prec, JS.emax.
  assert (H32 : F2R 0xa3d70a (-27) = F2R 0x147ae140000000 (-56))
    by (now apply (F2R_eq_Z (-56))).
  assert (Hstep : (F2R 0x147ae140000000 (-56) <= F2R 0x147ae147ae147c (-56))%R)
    by (now apply (F2R_le_Z (-56))).
  assert (H1 : F2R 0x800000 (-23) = 1%R) by (now apply (F2R_one 23)).
  assert (H1' : F2R 0x10000000000000 (-52) = 1%R) by (now apply (F2R_one 52)).
  destruct (binary_round_between 24 128 ltac:(lia) ltac:(lia) false m e
              0xa3d70a (-27) 0x800000 (-23))
    as (m1 & e1 & -> & Hb1 & Hlo1 & Hhi1); [reflexivity | reflexivity | |].
  { rewrite H32, H1. lra. }
  rewrite H32 in Hlo1. rewrite H1 in Hhi1. rewrite <- H1' in Hhi1 |- *.
  apply binary_round_between; [lia | lia | reflexivity | reflexivity | lra].
Qed.

(** Line 39 for a cosine in [[-1, 1]]: what the array holds lies between
    0.07999999821186066 and 1. *)
Lemma coefficient_range c :
  in_unit_range c ->
  JS.ge (JS.fround (JS.sub JS.c_0_54 (JS.mul JS.c_0_46 c))) first_coefficient
  = true
  /\ JS.ge JS.c_1 (JS.fround (JS.sub JS.c_0_54 (JS.mul JS.c_0_46 c))) = true.
Proof.
  intros Hc. destruct c as [s | s | | s m e].
  - destruct s; split; vm_compute; reflexivity.
  - destruct Hc as (_ & Hlo & Hhi). destruct s;
      [vm_compute in Hlo; discriminate Hlo | vm_compute in Hhi; discriminate Hhi].
  - destruct Hc as (_ & Hlo & _). vm_compute in Hlo. discriminate Hlo.
  - destruct (in_unit_range_finite _ _ _ Hc) as [Hb Hle].
    assert (Hrange : forall md ed,
      bounded 53 1024 md ed = true ->
      (F2R 0x147ae147ae147c (-56) <= F2R (Zpos md) ed <= 1)%R ->
      JS.ge (JS.fround (S754_finite false md ed)) first_coefficient = true
      /\ JS.ge JS.c_1 (JS.fround (S754_finite false md ed)) = true).
    { intros md ed Hbd Hd.
      destruct (fround_range md ed Hbd Hd) as (m' & e' & -> & Hb' & Hlo' & Hhi').
      destruct (bounded_canonical _ _ _ _ Hb') as [Hcan _].
      unfold first_coefficient, JS.c_1. split.
      - apply ge_finite; [exact Hcan | reflexivity | exact Hlo'].
      - apply ge_finite; [reflexivity | exact Hcan |].
        assert (H1 : F2R 0x10000000000000 (-52) = 1%R) by (now apply (F2R_one 52)).
        now rewrite H1. }
    destruct (mul_0_46_range s m e Hb Hle) as [-> | (mp & ep & -> & Hbp & Hp)].
    + destruct s; split; vm_compute; reflexivity.
    + destruct s.
      * (* a negative cosine *)
        destruct (Pos.eq_dec mp 0x1d70a3d70a3d71%positive) as [-> | Hmp];
          [destruct (Z.eq_dec ep (-54)) as [-> | Hep] |].
        -- split; vm_compute; reflexivity.
        -- destruct (sub_0_54_range true 0x1d70a3d70a3d71 ep Hbp)
             as (md & ed & -> & Hbd & Hd); [| now apply Hrange].
           destruct (bounded_canonical _ _ _ _ Hbp) as [Hcan _].
           destruct (Z_lt_le_dec ep (-54)) as [Hlt | Hge].
           ++ apply Rlt_le.
              apply (canonical_exponent_lt 53 1024); [exact Hcan | reflexivity | exact Hlt].
           ++ assert (Hgt : -54 < ep) by lia.
              pose proof (canonical_exponent_lt 53 1024 0x1d70a3d70a3d71 (-54)
                            0x1d70a3d70a3d71 ep eq_refl Hcan Hgt). lra.
        -- destruct (sub_0_54_range true mp ep Hbp)
             as (md & ed & -> & Hbd & Hd); [| now apply Hrange].
           destruct (bounded_canonical _ _ _ _ Hbp) as [Hcan _].
           destruct (Z.compare_spec ep (-54)) as [-> | Hlt | Hgt].
           ++ apply F2R_le. apply F2R_le in Hp. lia.
           ++ apply Rlt_le.
              apply (canonical_exponent_lt 53 1024); [exact Hcan | reflexivity | exact Hlt].
           ++ pose proof (canonical_exponent_lt 53 1024 0x1d70a3d70a3d71 (-54)
                            mp ep eq_refl Hcan Hgt). lra.
      * (* a positive cosine *)
        destruct (sub_0_54_range false mp ep Hbp Hp)
          as (md & ed & -> & Hbd & Hd).
        now apply Hrange.
Qed.

(** *** The argument of the cosine *)

(** The quotient of two numbers of moderate size is neither NaN nor
    infinite. *)
Lemma div_finite s1 m1 e1 s2 m2 e2 :
  Zpos (digits2_pos m1) + e1 - e2 < 1024 ->
  e1 - e2 <= 971 ->
  isFinite (JS.div (S754_finite s1 m1 e1) (S754_finite s2 m2 e2)) = true.
Proof.
  intros Hd He. unfold JS.div, JS.prec, JS.emax. cbn [SFdiv].
  unfold SFdiv_core_binary. cbn [Zdigits2].
  set (d1 := Zpos (digits2_pos m1)) in *.
  set (e' := Z.min (fexp 53 1024 (d1 + e1 - (Zpos (digits2_pos m2) + e2)))
               (e1 - e2)).
  set (s := e1 - e2 - e').
  set (m' := match s with
             | 0 => Zpos m1
             | Zpos _ => Z.shiftl (Zpos m1) s
             | Zneg _ => 0
             end).
  assert (Hs : 0 <= s) by (unfold s, e'; lia).
  assert (Hm' : m' = Zpos m1 * 2 ^ s).
  { unfold m'. destruct s as [| p | p] eqn:Hsp; [simpl; lia | | lia].
    apply Z.shiftl_mul_pow2. lia. }
  pose proof (Z_div_mod m' (Zpos m2) ltac:(lia)) as Hdiv.
  destruct (Z.div_eucl m' (Zpos m2)) as [q r]. destruct Hdiv as [Hqr Hr].
  assert (Hpow : 0 < 2 ^ s) by (apply Z.pow_pos_nonneg; lia).
  assert (Hq : 0 <= q <= m') by nia.
  apply binary_round_aux_finite; [lia | lia | lia | |].
  - assert (Zdigits2 q <= d1 + s); [| unfold s in *; lia].
    apply Zdigits2_le; [| unfold d1; lia]. split; [lia |].
    eapply Z.le_lt_trans; [apply Hq |]. rewrite Hm', Z.pow_add_r by (unfold d1; lia).
    pose proof (digits2_pos_lt m1). fold d1 in H. nia.
  - unfold e'. lia.
Qed.

(** A positive integer below [2^53] as a number: 53 digits. *)
Lemma of_Z_shape z :
  0 < z < 2 ^ 53 ->
  exists m e,
    JS.of_Z z = S754_finite false m e
    /\ Zpos (digits2_pos m) = 53 /\ -52 <= e <= 0.
Proof.
  intros [Hpos Hlt]. destruct z as [| p | p]; try lia.
  pose proof (digits2_pos_bound p 53 ltac:(lia) Hlt) as Hd.
  unfold JS.of_Z, JS.prec, JS.emax, binary_normalize, binary_round, fexp, emin.
  rewrite Z.add_0_r.
  replace (Z.max (Zpos (digits2_pos p) - 53) (3 - 1024 - 53))
    with (Zpos (digits2_pos p) - 53) by lia.
  unfold shl_align. rewrite Z.sub_0_r.
  destruct (Zpos (digits2_pos p) - 53) as [| k | k] eqn:Hk; try lia.
  - exists p, 0. split; [apply binary_round_aux_exact; lia | lia].
  - exists (Pos.iter xO p k), (Zneg k).
    pose proof (digits2_pos_iter_xO p k) as Hdk.
    split; [apply binary_round_aux_exact; lia | lia].
Qed.

(** The argument of the cosine is a number that is neither NaN nor
    infinite. *)
Lemma angle_finite size i :
  1 < size <= 2 ^ 53 -> 0 <= i < size ->
  isFinite (JS.div (JS.mul (JS.mul JS.c_2 JS.PI) (JS.of_Z i))
              (JS.of_Z (size - 1))) = true.
Proof.
  intros Hsize Hi.
  destruct (of_Z_shape (size - 1)) as (m2 & e2 & -> & Hd2 & He2); [lia |].
  replace (JS.mul JS.c_2 JS.PI) with (S754_finite false 0x1921fb54442d18 (-50))
    by (vm_compute; reflexivity).
  destruct (Z.eq_dec i 0) as [-> | Hi0]; [reflexivity |].
  destruct (of_Z_shape i) as (mi & ei & -> & Hdi & Hei); [lia |].
  unfold JS.mul, JS.prec, JS.emax. cbn [SFmul xorb].
  pose proof (digits2_pos_lt mi) as Hmi. pose proof (digits2_pos_ge mi) as Hmi'.
  rewrite Hdi in Hmi, Hmi'.
  assert (Hprod : 2 ^ 104 <= Zpos (0x1921fb54442d18 * mi) < 2 ^ 106).
  { rewrite Pos2Z.inj_mul.
    change (2 ^ 104) with (2 ^ 52 * 2 ^ (53 - 1)).
    change (2 ^ 106) with (2 ^ 53 * 2 ^ 53). nia. }
  assert (Hdp : 104 < Zpos (digits2_pos (0x1921fb54442d18 * mi)) <= 106).
  { split; [apply digits2_pos_gt; lia | apply digits2_pos_bound; lia]. }
  destruct (binary_round_aux_upper 53 1024 ltac:(lia) ltac:(lia) false
              (0x1921fb54442d18 * mi) (-50 + ei) 0x10000000000000 4)
    as [-> | (mt & et & -> & Hbt & Hle)].
  - unfold fexp, emin. lia.
  - reflexivity.
  - eapply Rle_trans; [apply Rlt_le, F2R_digits_lt |].
    eapply Rle_trans; [| apply F2R_digits_ge].
    apply bpow_le. change (Zpos (digits2_pos 0x10000000000000)) with 53. lia.
  - reflexivity.
  - assert (Zpos (digits2_pos mt) - 1 + et < 57).
    { apply bpow_lt_inv.
      eapply Rle_lt_trans; [apply F2R_digits_ge |].
      eapply Rle_lt_trans; [exact Hle |].
      eapply Rlt_le_trans; [apply F2R_digits_lt |].
      apply bpow_le. change (Zpos (digits2_pos 0x10000000000000)) with 53. lia. }
    apply div_finite; lia.
Qed.

(** ** The window coefficients (C6, C9) *)

(** At index 0 the argument of the cosine is [+0], for every window
    size from 2 on. *)
Lemma hamming_coefficient_0 (cos : JS.number -> JS.number) (size : Z) :
  ECMAScript_cos cos -> 1 < size <= 2 ^ 53 ->
  JS.fround (hamming_coefficient cos size 0) = first_coefficient.
Proof.
  intros (_ & _ & Hzero) Hsize. unfold hamming_coefficient.
  destruct (of_Z_positive (size - 1)) as (m & e & ->); [lia |].
  change (JS.div (JS.mul (JS.mul JS.c_2 JS.PI) (JS.of_Z 0)) (S754_finite false m e))
    with (S754_zero false).
  rewrite Hzero. now vm_compute.
Qed.

(** At window size 1 the argument of the cosine is [0 / 0]. *)
Lemma hamming_coefficient_size_1 (cos : JS.number -> JS.number) :
  ECMAScript_cos cos ->
  JS.fround (hamming_coefficient cos 1 0) = JS.NaN.
Proof.
  intros (Hnan & _ & _). unfold hamming_coefficient.
  change (JS.div (JS.mul (JS.mul JS.c_2 JS.PI) (JS.of_Z 0)) (JS.of_Z (1 - 1)))
    with JS.NaN.
  rewrite Hnan. reflexivity.
Qed.

Lemma read_fmap_seqZ (g : Z -> JS.number) (size i : Z) :
  0 <= i < size -> JS.read (g <$> seqZ 0 size) i = JS.Num (g i).
Proof.
  intros Hi. unfold JS.read, JS.get.
  destruct (Z.ltb_spec i 0); [lia |].
  rewrite list_lookup_fmap, lookup_seqZ_lt by lia. simpl.
  now rewrite Z2Nat.id by lia.
Qed.

(** Line 39 is the expression, evaluated in binary64. *)
Lemma hamming_coefficient_expression cos size i :
  hamming_coefficient cos size i = coefficient_expression (binary64 cos) size i.
Proof. reflexivity. Qed.

(** On the real numbers the expression is the formula of the design
    document. *)
Lemma exact_coefficient size i :
  coefficient_expression reals size i
  = (0.54 - 0.46 * cos (2 * PI * IZR i / IZR (size - 1)))%R.
Proof. reflexivity. Qed.

(** In exact arithmetic the expression is symmetric about the midpoint. *)
Lemma exact_coefficient_symmetric (size i : Z) :
  1 < size ->
  coefficient_expression reals size (size - 1 - i)
  = coefficient_expression reals size i.
Proof.
  intros Hsize. rewrite !exact_coefficient. f_equal. f_equal.
  assert (Hd : IZR (size - 1) <> 0%R) by (apply not_0_IZR; lia).
  set (d := size - 1) in *.
  replace (2 * PI * IZR (d - i) / IZR d)%R
    with (- (2 * PI * IZR i / IZR d) + 2 * INR 1 * PI)%R.
  - rewrite cos_period. apply cos_neg.
  - rewrite minus_IZR. simpl. field. exact Hd.
Qed.

(** The stand-ins are cosines as far as the hypotheses go. *)
Lemma cos_fixed_values_in_range : cos_in_range cos_fixed_values.
Proof.
  intros x Hx. destruct x; try discriminate Hx;
    (split; [| split]); vm_compute; reflexivity.
Qed.

(** The arguments of the cosine at the two indices, whatever the
    cosine. *)
Lemma angles_59168 (cos : JS.number -> JS.number) :
  angle_expression (binary64 cos) 59168 19370 = angle_19370
  /\ angle_expression (binary64 cos) 59168 (59168 - 1 - 19370) = angle_39797.
Proof. split; vm_compute; reflexivity. Qed.

(** At size 59168, a cosine right to one unit in the last place makes the
    coefficients at 19370 and at 39797 differ by one binary32 step:
    0.7549371123313904 and 0.7549371719360352. *)
Lemma coefficients_59168 cos :
  faithful_at_59168 cos ->
  JS.fround (hamming_coefficient cos 59168 19370)
  = S754_finite false 0x182871e0000000 (-53)
  /\ JS.fround (hamming_coefficient cos 59168 39797)
     = S754_finite false 0x18287200000000 (-53).
Proof.
  intros [Hi Hj]. rewrite !hamming_coefficient_expression.
  unfold coefficient_expression.
  destruct (angles_59168 cos) as [Ha Hb].
  change (59168 - 1 - 19370) with 39797 in Hb. rewrite Ha, Hb.
  cbn [a_sub a_mul a_cos a_0_54 a_0_46 binary64].
  split.
  - destruct Hi as [-> | [-> | ->]]; vm_compute; reflexivity.
  - destruct Hj as [-> | [-> | ->]]; vm_compute; reflexivity.
Qed.

Lemma cos_nearest_at_59168_ECMAScript : ECMAScript_cos cos_nearest_at_59168.
Proof. repeat split; intros []; reflexivity. Qed.

Lemma cos_nearest_at_59168_in_range : cos_in_range cos_nearest_at_59168.
Proof.
  intros x Hx. unfold cos_nearest_at_59168.
  destruct (is_number x angle_19370);
    [split; [| split]; vm_compute; reflexivity |].
  destruct (is_number x angle_39797);
    [split; [| split]; vm_compute; reflexivity |].
  now apply cos_fixed_values_in_range.
Qed.

Lemma cos_nearest_at_59168_faithful : faithful_at_59168 cos_nearest_at_59168.
Proof. split; right; left; vm_compute; reflexivity. Qed.

(** The window of size 59168 at the two indices. *)
Lemma hammingWindow_59168 cos w :
  faithful_at_59168 cos ->
  hammingWindow cos 59168 = Ok w ->
  JS.read w 19370 = JS.Num (S754_finite false 0x182871e0000000 (-53))
  /\ JS.read w (59168 - 1 - 19370)
     = JS.Num (S754_finite false 0x18287200000000 (-53)).
Proof.
  intros Hcos Hw. rewrite hammingWindow_Ok in Hw by lia.
  assert (Hw' : (fun i => JS.fround (hamming_coefficient cos 59168 i))
                  <$> seqZ 0 59168 = w) by congruence.
  subst w. rewrite !read_fmap_seqZ by lia.
  destruct (coefficients_59168 cos Hcos) as [-> Hj].
  change (59168 - 1 - 19370) with 39797. rewrite Hj. split; reflexivity.
Qed.

(** C6, as stated, fails in two places.

    The lower bound, and the equality with the formula. With the cosine
    of [+0] equal to 1, the first coefficient is [0.54 - 0.46] in binary64,
    0.08000000000000002, which the [Float32Array] stores as
    0.07999999821186066: a value below 0.08, the value of the formula at
    0. So not every window of a size above 1 has all its values in
    [0.08, 1.0].

    The symmetry. The arguments of the cosine at [i] and at
    [size - 1 - i] are two rounded numbers, and the cosines of the two
    differ in their last digits. At size 59168 every cosine whose error is
    at most one unit in the last place gives the coefficient
    0.7549371123313904 at 19370 and 0.7549371719360352 at 39797. So not
    every window of a size above 1 is symmetric, even for a cosine that
    takes its values in [-1, 1]. *)
Lemma hammingWindow_coefficients_counterexample :
  JS.fround (JS.sub JS.c_0_54 (JS.mul JS.c_0_46 JS.c_1)) = first_coefficient
  /\ JS.lt first_coefficient JS.c_0_08 = true
  /\ ~ (forall cos size,
          ECMAScript_cos cos -> 1 < size ->
          exists w, hammingWindow cos size = Ok w /\ in_hamming_range w)
  /\ (forall cos,
        angle_expression (binary64 cos) 59168 19370 = angle_19370
        /\ angle_expression (binary64 cos) 59168 (59168 - 1 - 19370)
           = angle_39797)
  /\ (forall cos w,
        faithful_at_59168 cos ->
        hammingWindow cos 59168 = Ok w ->
        JS.read w 19370 = JS.Num (S754_finite false 0x182871e0000000 (-53))
        /\ JS.read w (59168 - 1 - 19370)
           = JS.Num (S754_finite false 0x18287200000000 (-53)))
  /\ ~ (forall cos size i,
          ECMAScript_cos cos -> cos_in_range cos ->
          1 < size -> 0 <= i < size ->
          exists w,
            hammingWindow cos size = Ok w
            /\ JS.read w i = JS.read w (size - 1 - i)).
Proof.
  split; [now vm_compute |]. split; [now vm_compute |].
  split; [| split; [| split]].
  - intros Hclaim.
    destruct (Hclaim cos_fixed_values 2 ECMAScript_cos_fixed_values)
      as (w & Hw & Hrange); [lia |].
    rewrite hammingWindow_Ok in Hw by lia.
    assert (Hw' : (fun i => JS.fround (hamming_coefficient cos_fixed_values 2 i))
                    <$> seqZ 0 2 = w) by congruence.
    subst w. rewrite seqZ_cons, fmap_cons in Hrange by lia.
    apply Forall_cons in Hrange as [[Hlow _] _].
    rewrite (hamming_coefficient_0 _ 2 ECMAScript_cos_fixed_values) in Hlow by lia.
    vm_compute in Hlow. discriminate Hlow.
  - exact angles_59168.
  - exact hammingWindow_59168.
  - intros Hclaim.
    destruct (Hclaim cos_nearest_at_59168 59168 19370
                cos_nearest_at_59168_ECMAScript cos_nearest_at_59168_in_range)
      as (w & Hw & Hsym); [lia | lia |].
    destruct (hammingWindow_59168 _ _ cos_nearest_at_59168_faithful Hw)
      as [Hi Hj].
    rewrite Hi, Hj in Hsym. discriminate Hsym.
Qed.

(** C6, amended. For every size from 2 on (below [2^32]) and a cosine
    that takes its values in [-1, 1], the window has length exactly
    [size]; its coefficient at [i] is the binary32 rounding of
    [0.54 - 0.46 * cos(2*pi*i/(size-1))] evaluated in binary64; every
    coefficient lies in [0.07999999821186066, 1.0], and the first one is
    0.07999999821186066, just below 0.08. The coefficients at [i] and at
    [size - 1 - i] are equal whenever the cosine returns the same number
    at their two arguments, and the expression is symmetric about the
    midpoint when it is evaluated on real numbers. *)
Theorem hammingWindow_coefficients cos size :
  ECMAScript_cos cos ->
  cos_in_range cos ->
  1 < size < 2 ^ 32 ->
  exists w,
    hammingWindow cos size = Ok w
    /\ Z.of_nat (length w) = size
    /\ (forall i,
          0 <= i < size ->
          JS.read w i
          = JS.Num (JS.fround (coefficient_expression (binary64 cos) size i)))
    /\ in_stored_range w
    /\ JS.read w 0 = JS.Num first_coefficient
    /\ JS.lt first_coefficient JS.c_0_08 = true
    /\ (forall i,
          0 <= i < size ->
          cos (angle_expression (binary64 cos) size i)
          = cos (angle_expression (binary64 cos) size (size - 1 - i)) ->
          JS.read w i = JS.read w (size - 1 - i))
    /\ (forall i,
          0 <= i < size ->
          coefficient_expression reals size (size - 1 - i)
          = coefficient_expression reals size i).
Proof.
  intros Hcos Hrange Hsize.
  assert (Hsize' : 1 < size <= 2 ^ 53) by lia.
  eexists. split; [apply hammingWindow_Ok; lia |].
  split; [rewrite length_fmap, length_seqZ; lia |].
  split; [intros i Hi; now rewrite read_fmap_seqZ by lia |].
  split.
  { apply Forall_fmap, Forall_forall. intros i Hi.
    apply elem_of_seqZ in Hi. cbn [compose]. unfold hamming_coefficient.
    apply coefficient_range, Hrange, angle_finite; lia. }
  split; [rewrite read_fmap_seqZ by lia; f_equal;
          now apply hamming_coefficient_0 |].
  split; [now vm_compute |].
  split.
  - intros i Hi Heq. rewrite !read_fmap_seqZ by lia.
    rewrite !hamming_coefficient_expression. unfold coefficient_expression.
    cbn [a_cos binary64] in Heq |- *. now rewrite Heq.
  - intros i Hi. apply exact_coefficient_symmetric. lia.
Qed.

Lemma hammingWindow_coefficients_witness :
  exists w,
    hammingWindow cos_fixed_values 1024 = Ok w
    /\ Z.of_nat (length w) = 1024
    /\ (forall i,
          0 <= i < 1024 ->
          JS.read w i
          = JS.Num (JS.fround
                      (coefficient_expression (binary64 cos_fixed_values) 1024 i)))
    /\ in_stored_range w
    /\ JS.read w 0 = JS.Num first_coefficient
    /\ JS.lt first_coefficient JS.c_0_08 = true
    /\ (forall i,
          0 <= i < 1024 ->
          cos_fixed_values (angle_expression (binary64 cos_fixed_values) 1024 i)
          = cos_fixed_values
              (angle_expression (binary64 cos_fixed_values) 1024 (1024 - 1 - i)) ->
          JS.read w i = JS.read w (1024 - 1 - i))
    /\ (forall i,
          0 <= i < 1024 ->
          coefficient_expression reals 1024 (1024 - 1 - i)
          = coefficient_expression reals 1024 i).
Proof.
  apply (hammingWindow_coefficients cos_fixed_values 1024).
  - exact ECMAScript_cos_fixed_values.
  - exact cos_fixed_values_in_range.
  - lia.
Defined.

Lemma hammingWindow_1_NaN (cos : JS.number -> JS.number) :
  ECMAScript_cos cos -> hammingWindow cos 1 = Ok [JS.NaN].
Proof.
  intros Hcos. rewrite hammingWindow_Ok by lia.
  change (seqZ 0 1) with [0]. simpl.
  now rewrite hamming_coefficient_size_1.
Qed.

(** C9, as stated, fails: for size 1 nothing is defined apart. The
    formula divides [2*pi*0] by [1 - 1], which is NaN, and it is not the
    case that the single coefficient is a number whatever the cosine. *)
Lemma hammingWindow_size_1_counterexample :
  JS.div (JS.mul (JS.mul JS.c_2 JS.PI) (JS.of_Z 0)) (JS.of_Z (1 - 1)) = JS.NaN
  /\ ~ (forall cos,
          ECMAScript_cos cos ->
          exists x, hammingWindow cos 1 = Ok [x] /\ x <> JS.NaN).
Proof.
  split; [reflexivity |]. intros Hclaim.
  destruct (Hclaim cos_fixed_values ECMAScript_cos_fixed_values)
    as (x & Hx & Hnum).
  rewrite hammingWindow_1_NaN in Hx by exact ECMAScript_cos_fixed_values.
  injection Hx as <-. now apply Hnum.
Qed.

(** C9, amended. For size 1 the window computation has no case of its
    own: the division by zero in the formula gives NaN, the cosine of NaN
    is NaN, and the window is the single coefficient NaN. *)
Theorem hammingWindow_size_1 cos :
  ECMAScript_cos cos ->
  JS.div (JS.mul (JS.mul JS.c_2 JS.PI) (JS.of_Z 0)) (JS.of_Z (1 - 1)) = JS.NaN
  /\ hammingWindow cos 1 = Ok [JS.NaN].
Proof.
  intros Hcos. split; [reflexivity | now apply hammingWindow_1_NaN].
Qed.

Lemma hammingWindow_size_1_witness :
  JS.div (JS.mul (JS.mul JS.c_2 JS.PI) (JS.of_Z 0)) (JS.of_Z (1 - 1)) = JS.NaN
  /\ hammingWindow cos_fixed_values 1 = Ok [JS.NaN].
Proof.
  apply (hammingWindow_size_1 cos_fixed_values).
  exact ECMAScript_cos_fixed_values.
Defined.

(** * Further properties *)

(** ** The detector *)

(** X1. A negative time radius. The time loop starts at the row of index
    [timeNeighborhood], which no spectrogram has, and reading its length
    raises: the detector returns for no input. *)
Theorem findPeaks_negative_time_radius spec minFreq maxFreq tN fN thr :
  tN < 0 ->
  findPeaks spec minFreq maxFreq tN fN thr = Err TypeError_row.
Proof.
  intros HtN. unfold findPeaks. rewrite seqZ_cons by lia.
  cbn [t_loop]. unfold JS.get.
  now destruct (Z.ltb_spec tN 0); [| lia].
Qed.

Lemma findPeaks_negative_time_radius_witness :
  findPeaks one_spike 0 4 (-1) 1 JS.c_0_5 = Err TypeError_row.
Proof. apply findPeaks_negative_time_radius. lia. Defined.

Lemma StronglySorted_seqZ (a n : Z) : StronglySorted Z.lt (seqZ a n).
Proof.
  destruct (Z_le_gt_dec n 0) as [Hn | Hn]; [rewrite seqZ_nil by lia; constructor |].
  rewrite <- (Z2Nat.id n) by lia. generalize (Z.to_nat n) as k. clear.
  intros k. revert a. induction k as [| k IH]; intros a; [constructor |].
  rewrite Nat2Z.inj_succ, seqZ_cons by lia.
  replace (Z.pred (Z.succ (Z.of_nat k))) with (Z.of_nat k) by lia.
  constructor; [apply IH |].
  apply Forall_forall. intros x Hx. apply elem_of_seqZ in Hx. lia.
Qed.

Lemma StronglySorted_filter {A} (R : relation A) (P : A -> Prop)
    `{forall x, Decision (P x)} (l : list A) :
  StronglySorted R l -> StronglySorted R (filter P l).
Proof.
  induction 1 as [| x l Hl IH Hx]; [constructor |].
  rewrite filter_cons. destruct (decide (P x)); [| exact IH].
  constructor; [exact IH |].
  apply Forall_forall. intros y Hy. apply list_elem_of_filter in Hy as [_ Hy].
  rewrite Forall_forall in Hx. now apply Hx.
Qed.

Lemma row_landmarks_time spec minFreq maxFreq tN fN thr t row p :
  p ∈ row_landmarks spec minFreq maxFreq tN fN thr t row -> time p = t.
Proof.
  unfold row_landmarks. intros Hp.
  apply list_elem_of_fmap in Hp as (f & -> & _). reflexivity.
Qed.

Lemma landmarks_of_sorted spec minFreq maxFreq tN fN thr ts :
  StronglySorted Z.lt ts ->
  StronglySorted scan_before (landmarks_of spec minFreq maxFreq tN fN thr ts).
Proof.
  unfold landmarks_of.
  induction 1 as [| t ts Hts IH Ht]; [constructor |].
  cbn [mbind list_bind]. apply StronglySorted_app_2; [| | exact IH].
  - intros p q Hp Hq. left.
    destruct (JS.get spec t) as [row |]; [| now apply elem_of_nil in Hp].
    apply row_landmarks_time in Hp. rewrite Hp.
    apply list_elem_of_bind in Hq as (t' & Hq & Ht').
    destruct (JS.get spec t') as [row' |]; [| now apply elem_of_nil in Hq].
    apply row_landmarks_time in Hq. rewrite Hq.
    rewrite Forall_forall in Ht. now apply Ht.
  - destruct (JS.get spec t) as [row |]; [| constructor].
    unfold row_landmarks.
    apply (StronglySorted_fmap _ Z.lt).
    + intros f1 f2 Hlt. right. now split.
    + apply StronglySorted_filter, StronglySorted_seqZ.
Qed.

(** X2. The landmarks come in scan order: sorted by time and, within a
    row, by frequency. In particular no position is returned twice. *)
Theorem findPeaks_scan_order spec minFreq maxFreq tN fN thr :
  0 <= tN ->
  exists peaks,
    findPeaks spec minFreq maxFreq tN fN thr = Ok peaks
    /\ StronglySorted scan_before peaks.
Proof.
  intros HtN. eexists. split; [now apply findPeaks_total |].
  apply landmarks_of_sorted, StronglySorted_seqZ.
Qed.

Lemma findPeaks_scan_order_witness :
  exists peaks,
    findPeaks tied 0 4 0 0 JS.c_0_5 = Ok peaks
    /\ StronglySorted scan_before peaks.
Proof. apply findPeaks_scan_order. lia. Defined.

(** X3. The band only selects. The landmarks of a band are the landmarks
    of any wider band that lie in it: whether a cell is a landmark does not
    depend on the band. *)
Theorem findPeaks_band spec minFreq maxFreq minFreq' maxFreq' tN fN thr :
  0 <= tN -> minFreq <= minFreq' -> maxFreq' <= maxFreq ->
  exists wide narrow,
    findPeaks spec minFreq maxFreq tN fN thr = Ok wide
    /\ findPeaks spec minFreq' maxFreq' tN fN thr = Ok narrow
    /\ forall p,
         p ∈ narrow <-> p ∈ wide /\ minFreq' <= freq p < maxFreq'.
Proof.
  intros HtN Hmin Hmax. eexists _, _.
  split; [now apply findPeaks_total |].
  split; [now apply findPeaks_total |].
  intros [t f value]. rewrite !elem_of_landmarks by assumption.
  unfold in_scan_region. cbn [freq]. split.
  - intros ((Ht & Hf) & Hrest). split; [| lia]. split; [| exact Hrest].
    split; [exact Ht | lia].
  - intros (((Ht & Hf) & Hrest) & Hband). split; [| exact Hrest].
    split; [exact Ht | lia].
Qed.

Lemma findPeaks_band_witness :
  exists wide narrow,
    findPeaks tied 0 4 1 1 JS.c_0_5 = Ok wide
    /\ findPeaks tied 1 3 1 1 JS.c_0_5 = Ok narrow
    /\ forall p, p ∈ narrow <-> p ∈ wide /\ 1 <= freq p < 3.
Proof. apply findPeaks_band; lia. Defined.

(** ** The builder, and the two functions together *)

(** The number of multiples of [H] from 0 below [n]. *)
Lemma count_starts (n H : Z) :
  0 < H ->
  length (filter (fun start => start mod H = 0) (seqZ 0 n))
  = Z.to_nat ((n + H - 1) / H).
Proof.
  intros HH. destruct (Z_le_gt_dec n 0) as [Hn | Hn].
  - rewrite seqZ_nil by lia. simpl.
    assert ((n + H - 1) / H <= 0); [| lia].
    assert ((n + H - 1) / H < 1); [| lia].
    apply Z.div_lt_upper_bound; lia.
  - pose proof (Z.div_mod n H ltac:(lia)) as Hdiv.
    pose proof (Z.mod_pos_bound n H HH) as Hr.
    pose proof (Z.div_pos n H ltac:(lia) HH) as Hq.
    set (q := n / H) in *. set (r := n mod H) in *.
    replace n with (Z.of_nat (Z.to_nat q) * H + r) at 1 by lia.
    rewrite seqZ_app, filter_app, length_app by lia.
    pose proof (frame_starts_exact 0 H (Z.to_nat q) HH) as Hfull.
    unfold frame_starts in Hfull.
    replace (0 + Z.of_nat (Z.to_nat q) * H - 0)
      with (Z.of_nat (Z.to_nat q) * H) in Hfull by lia.
    rewrite Hfull, Z.add_0_l.
    destruct (Z.eq_dec r 0) as [Hr0 | Hr0].
    + rewrite Hr0. simpl. rewrite Nat.add_0_r. f_equal.
      apply (Z.div_unique _ _ _ (H - 1)); lia.
    + rewrite starts_in_one_hop; [| lia | now rewrite Z.mod_mul by lia | lia].
      simpl. replace ((n + H - 1) / H) with (q + 1); [lia |].
      apply (Z.div_unique _ _ _ (r - 1)); lia.
Qed.

(** X4. The shape of the spectrogram. For a window size that is not
    negative and that the constructor accepts, a positive hop and a
    transform that does not throw, the builder returns a spectrogram of
    [ceil((L - W) / H)] rows (none when [L <= W]), and every row has
    [W / 2] magnitudes, truncated: for an odd [W] the last pass of the
    magnitude loop writes past the end of the row, which is ignored. *)
Theorem createSpectogram_shape cos K w f audioData sampleRate W H :
  FFT_new K w W = Some f ->
  transform_total K ->
  0 <= W -> 0 < H ->
  let L := Z.of_nat (length audioData) in
  let rows := Z.to_nat ((L - W + H - 1) / H) in
  exists spectogram,
    (forall fuel,
       (rows <= fuel)%nat ->
       createSpectogram cos K w fuel audioData sampleRate W H
       = Some (Ok spectogram))
    /\ length spectogram = rows
    /\ uniform spectogram (Z.quot W 2).
Proof.
  intros Hf Htotal HW HH L rows.
  assert (Hcount : length (starts_from L W H 0) = rows).
  { unfold starts_from, rows. rewrite Z.sub_0_r. now apply count_starts. }
  destruct (frame_loop_rows K audioData
              ((fun i => JS.fround (hamming_coefficient cos W i)) <$> seqZ 0 W)
              W H rows f 0 [] Htotal HW HH)
    as (spectogram & Hrun & Hlen).
  { now apply Z.mod_0_l, Z.neq_sym, Z.lt_neq. }
  { fold L. now rewrite Hcount. }
  simpl in Hrun. fold L in Hlen. rewrite Hcount in Hlen.
  assert (Hbuild : forall fuel,
            (rows <= fuel)%nat ->
            createSpectogram cos K w fuel audioData sampleRate W H
            = Some (Ok spectogram)).
  { intros fuel Hfuel. unfold createSpectogram.
    rewrite Hf, hammingWindow_Ok by assumption.
    eapply frame_loop_more_fuel; [exact Hrun | exact Hfuel]. }
  exists spectogram. split; [exact Hbuild |]. split; [exact Hlen |].
  eapply createSpectogram_uniform, (Hbuild rows). lia.
Qed.

Lemma createSpectogram_shape_witness :
  exists spectogram,
    (forall fuel,
       (2 <= fuel)%nat ->
       createSpectogram cos_fixed_values passthrough 0%nat fuel six_samples
         44100 2 2
       = Some (Ok spectogram))
    /\ length spectogram = 2%nat
    /\ uniform spectogram 1.
Proof.
  apply (createSpectogram_shape cos_fixed_values passthrough 0%nat (2, 0%nat)
           six_samples 44100 2 2).
  - reflexivity.
  - exact passthrough_total.
  - lia.
  - lia.
Defined.

(** X5. The two functions together. On a spectrogram that the builder
    returns, with a lowest bin that is not below the frequency radius,
    every landmark has its whole neighborhood inside the spectrogram: the
    rows are of one length, so no neighbor falls off a shorter row, and
    none falls below bin 0. *)
Theorem pipeline_full_neighborhood cos K w fuel audioData sampleRate W H
    minFreq maxFreq tN fN thr spec peaks t f a :
  createSpectogram cos K w fuel audioData sampleRate W H = Some (Ok spec) ->
  no_NaN spec ->
  0 <= tN -> fN <= minFreq ->
  findPeaks spec minFreq maxFreq tN fN thr = Ok peaks ->
  Peak t f a ∈ peaks ->
  full_neighborhood spec tN fN t f.
Proof.
  intros Hbuild Hnan HtN Hlow Hrun Hin.
  apply (scan_region_full_neighborhood spec (Z.quot W 2) minFreq maxFreq);
    [eapply createSpectogram_uniform, Hbuild | assumption | assumption |].
  eapply landmark_in_scan_region; eassumption.
Qed.

Lemma pipeline_full_neighborhood_witness :
  exists spec,
    createSpectogram cos_fixed_values passthrough 0%nat 5 seven_samples 44100
      2 2
    = Some (Ok spec)
    /\ full_neighborhood spec 1 0 1 0.
Proof.
  eexists. split; [vm_compute; reflexivity |].
  eapply (pipeline_full_neighborhood cos_fixed_values passthrough 0%nat 5
            seven_samples 44100 2 2 0 1 1 0 (num 0)).
  - vm_compute. reflexivity.
  - apply no_NaN_Forall. repeat constructor; discriminate.
  - lia.
  - lia.
  - vm_compute. reflexivity.
  - left.
Defined.

(** X6. A recording that is no longer than the window has no landmark:
    the builder returns the empty spectrogram and the detector, with a
    time radius that is not negative, returns the empty list on it. *)
Theorem pipeline_short_recording cos K w f fuel audioData sampleRate W H
    minFreq maxFreq tN fN thr :
  FFT_new K w W = Some f ->
  0 <= W -> Z.of_nat (length audioData) <= W -> 0 <= tN ->
  build_then_detect cos K w fuel audioData sampleRate W H minFreq maxFreq
    tN fN thr
  = Some (Ok []).
Proof.
  intros Hf HW Hshort HtN. unfold build_then_detect, createSpectogram.
  rewrite Hf, hammingWindow_Ok by assumption.
  rewrite frame_loop_short by assumption.
  unfold findPeaks. now rewrite seqZ_nil by (simpl; lia).
Qed.

Lemma pipeline_short_recording_witness :
  build_then_detect cos_fixed_values passthrough 0%nat 0 [num 1; num 2] 44100
    2 0 30 300 3 3 JS.c_0_5
  = Some (Ok []).
Proof.
  apply (pipeline_short_recording cos_fixed_values passthrough 0%nat (2, 0%nat)).
  - reflexivity.
  - lia.
  - simpl. lia.
  - lia.
Defined.

(** ** The sign of the magnitudes *)

Lemma binary_round_aux_sign prec emax sx mx ex lx :
  has_sign sx (binary_round_aux prec emax sx mx ex lx).
Proof.
  unfold binary_round_aux.
  destruct (shr_fexp prec emax mx ex lx) as [mrs' e'].
  destruct (shr_fexp prec emax _ e' loc_Exact) as [mrs'' e''].
  destruct (shr_m mrs''); [reflexivity | | exact I].
  destruct (e'' <=? emax - prec); reflexivity.
Qed.

Lemma binary_round_sign prec emax sx mx ex :
  has_sign sx (binary_round prec emax sx mx ex).
Proof.
  unfold binary_round. destruct (shl_align _ _ _) as [mz ez].
  apply binary_round_aux_sign.
Qed.

Lemma fround_sign s x : has_sign s x -> has_sign s (JS.fround x).
Proof.
  destruct x as [s' | s' | | s' m e]; try (intros Hx; exact Hx).
  cbn [has_sign]. intros ->. unfold JS.fround.
  pose proof (binary_round_sign 24 128 s m e) as H32.
  destruct (binary_round 24 128 s m e) as [| | | s32 m32 e32]; try exact H32.
  cbn [has_sign] in H32. subst s32. apply binary_round_sign.
Qed.

Lemma mul_square_sign x : has_sign false (JS.mul x x).
Proof.
  destruct x as [[] | [] | | [] m e]; try reflexivity;
    apply binary_round_aux_sign.
Qed.

Lemma add_sign x y :
  has_sign false x -> has_sign false y -> has_sign false (JS.add x y).
Proof.
  destruct x as [sx | sx | | sx mx ex], y as [sy | sy | | sy my ey];
    cbn [has_sign]; intros Hx Hy; subst; try reflexivity; try exact I.
  unfold JS.add. cbn [SFadd cond_Zopp]. cbn [Z.add binary_normalize].
  apply binary_round_sign.
Qed.

Lemma sqrt_sign x : has_sign false x -> has_sign false (JS.sqrt x).
Proof.
  destruct x as [s | s | | s m e]; cbn [has_sign]; intros Hx; subst;
    try reflexivity; try exact I.
  unfold JS.sqrt. cbn [SFsqrt].
  destruct (SFsqrt_core_binary JS.prec JS.emax (Zpos m) e) as [[mz ez] lz].
  apply binary_round_aux_sign.
Qed.

(** Stores of values with a property keep it on the whole array. *)
Lemma for_range_Forall (P : JS.number -> Prop) (g : Z -> JS.number)
    (lo hi : Z) (a : list JS.number) :
  (forall j, P (JS.fround (g j))) ->
  Forall P a ->
  Forall P (for_range lo hi (fun j m => JS.Float32Array_set m j (g j)) a).
Proof.
  intros Hg. unfold for_range. generalize (seqZ lo (hi - lo)) as js.
  intros js. revert a. induction js as [| j js IH]; intros a Ha; [exact Ha |].
  simpl. apply IH. unfold JS.Float32Array_set.
  destruct (j <? 0); [exact Ha |]. now apply Forall_insert.
Qed.

Lemma magnitude_row_sign (spectrum row : list JS.number) (size : Z) :
  magnitude_row spectrum size = Ok row -> Forall (has_sign false) row.
Proof.
  unfold magnitude_row, JS.Float32Array_new.
  destruct (Z.quot size 2 <? 0); [discriminate |]. simpl. intros [= <-].
  apply (for_range_Forall (has_sign false)
           (fun j =>
              JS.sqrt
                (JS.add
                   (JS.mul (JS.ToNumber (JS.read spectrum (2 * j)))
                      (JS.ToNumber (JS.read spectrum (2 * j))))
                   (JS.mul (JS.ToNumber (JS.read spectrum (2 * j + 1)))
                      (JS.ToNumber (JS.read spectrum (2 * j + 1))))))).
  - intros j. apply fround_sign, sqrt_sign, add_sign; apply mul_square_sign.
  - apply Forall_replicate. reflexivity.
Qed.

Lemma frame_loop_sign K fuel f audioData window W H i acc spectogram :
  Forall (Forall (has_sign false)) acc ->
  frame_loop K fuel f audioData window W H i acc = Some (Ok spectogram) ->
  Forall (Forall (has_sign false)) spectogram.
Proof.
  revert f i acc.
  induction fuel as [| fuel IH]; intros f i acc Hacc; simpl;
    destruct (i <? Z.of_nat (length audioData) - W);
    try discriminate; try (now intros [= <-]).
  unfold frame.
  destruct (windowed_frame audioData window W i) as [data |]; simpl;
    [| discriminate].
  destruct (realTransform K f (createComplexArray K f) data) as [[f' out] |];
    [| discriminate].
  destruct (magnitude_row out W) as [row |] eqn:Hrow; simpl; [| discriminate].
  apply IH. apply Forall_app. split; [exact Hacc |].
  apply Forall_cons. split; [| apply Forall_nil_2].
  eapply magnitude_row_sign, Hrow.
Qed.

(** X7. No magnitude is negative. Whatever the transform writes into the
    spectrum (numbers of any sign, infinities, NaN, or too few values),
    every cell of the spectrogram is NaN or has a clear sign bit: [+0], a
    positive number or [+Infinity], never [-0]. *)
Theorem createSpectogram_not_negative cos K w fuel audioData sampleRate W H
    spectogram :
  createSpectogram cos K w fuel audioData sampleRate W H
  = Some (Ok spectogram) ->
  Forall (Forall (has_sign false)) spectogram.
Proof.
  unfold createSpectogram. destruct (FFT_new K w W); [| discriminate].
  destruct (hammingWindow cos W); [| discriminate].
  apply frame_loop_sign. apply Forall_nil_2.
Qed.

Lemma createSpectogram_not_negative_witness :
  exists spectogram,
    createSpectogram cos_fixed_values passthrough 0%nat 5 seven_samples 44100
      2 2
    = Some (Ok spectogram)
    /\ Forall (Forall (has_sign false)) spectogram.
Proof.
  eexists. split; [vm_compute; reflexivity |].
  apply (createSpectogram_not_negative cos_fixed_values passthrough 0%nat 5
           seven_samples 44100 2 2).
  vm_compute. reflexivity.
Defined.

(** ** Decoding the samples *)

Lemma byte_Z_range b : 0 <= byte_Z b < 256.
Proof.
  unfold byte_Z. pose proof (Byte.to_N_bounded b). lia.
Qed.

Lemma readInt16LE_Ok buffer i :
  0 <= i < Z.quot (Z.of_nat (length buffer)) 2 ->
  readInt16LE buffer (i * 2) = Ok (int16_at buffer i)
  /\ -32768 <= int16_at buffer i <= 32767.
Proof.
  intros Hi. unfold int16_at, readInt16LE.
  assert (Hlen : i * 2 + 1 < Z.of_nat (length buffer)).
  { pose proof (Z.quot_rem' (Z.of_nat (length buffer)) 2) as Hq.
    pose proof (Z.rem_nonneg (Z.of_nat (length buffer)) 2 ltac:(lia) ltac:(lia)).
    lia. }
  destruct (proj2 (get_is_Some buffer (i * 2)) ltac:(lia)) as [low ->].
  destruct (proj2 (get_is_Some buffer (i * 2 + 1)) ltac:(lia)) as [high ->].
  split; [reflexivity |].
  pose proof (byte_Z_range low). pose proof (byte_Z_range high).
  cbv zeta. destruct (Z.ltb_spec (byte_Z low + byte_Z high * 256) 32768); lia.
Qed.

(** The loop reads inside the buffer: it raises nothing, and it is the
    counted loop that stores the quotients. *)
Lemma convert_loop_for_range buffer lo n floatData :
  0 <= lo -> lo + n <= Z.quot (Z.of_nat (length buffer)) 2 ->
  convert_loop buffer (seqZ lo n) floatData
  = Ok (for_range lo (lo + n)
          (fun i w =>
             JS.Float32Array_set w i
               (JS.div (JS.of_Z (int16_at buffer i)) c_32768))
          floatData).
Proof.
  intros Hlo Hhi. unfold for_range. replace (lo + n - lo) with n by lia.
  destruct (Z_le_gt_dec n 0) as [Hn | Hn]; [now rewrite seqZ_nil by lia |].
  rewrite <- (Z2Nat.id n) in Hhi |- * by lia.
  generalize dependent (Z.to_nat n). intros k. clear Hn n.
  revert lo floatData Hlo.
  induction k as [| k IH]; intros lo floatData Hlo Hhi; [reflexivity |].
  rewrite Nat2Z.inj_succ, seqZ_cons by lia.
  replace (Z.pred (Z.succ (Z.of_nat k))) with (Z.of_nat k) by lia.
  cbn [convert_loop foldl].
  destruct (readInt16LE_Ok buffer lo) as [-> _]; [lia |]. cbn [rbind].
  apply IH; lia.
Qed.

(** *** Numbers that a format holds are not rounded *)

Section Exact.

Variables prec emax : Z.
Hypothesis prec_gt_0 : 0 < prec.
Hypothesis prec_lt_emax : prec < emax.

(** A number has one canonical form. *)
Lemma canonical_unique m1 e1 m2 e2 :
  canonical_mantissa prec emax m1 e1 = true ->
  canonical_mantissa prec emax m2 e2 = true ->
  F2R (Zpos m1) e1 = F2R (Zpos m2) e2 ->
  m1 = m2 /\ e1 = e2.
Proof.
  intros H1 H2 Heq. destruct (Z.compare_spec e1 e2) as [-> | Hlt | Hgt].
  - split; [| reflexivity].
    assert (Zpos m1 <= Zpos m2) by (apply (F2R_le _ _ e2); lra).
    assert (Zpos m2 <= Zpos m1) by (apply (F2R_le _ _ e2); lra).
    lia.
  - pose proof (canonical_exponent_lt prec emax _ _ _ _ H1 H2 Hlt). lra.
  - pose proof (canonical_exponent_lt prec emax _ _ _ _ H2 H1 Hgt). lra.
Qed.

(** Rounding a number of the format gives the number. *)
Lemma binary_round_aux_canonical s mx ex mr er :
  ex <= fexp prec emax (Zpos (digits2_pos mx) + ex) ->
  bounded prec emax mr er = true ->
  F2R (Zpos mx) ex = F2R (Zpos mr) er ->
  binary_round_aux prec emax s (Zpos mx) ex loc_Exact = S754_finite s mr er.
Proof.
  intros Hg Hb Heq.
  destruct (bounded_canonical _ _ _ _ Hb) as [Hcan _].
  destruct (binary_round_aux_between prec emax prec_gt_0 prec_lt_emax
              s mx ex mr er mr er Hg Hcan Hb)
    as (m & e & -> & Hbm & Hlo & Hhi); [lra |].
  destruct (bounded_canonical _ _ _ _ Hbm) as [Hcanm _].
  destruct (canonical_unique m e mr er Hcanm Hcan) as [-> ->]; [lra |].
  reflexivity.
Qed.

Lemma binary_round_canonical s mx ex mr er :
  bounded prec emax mr er = true ->
  F2R (Zpos mx) ex = F2R (Zpos mr) er ->
  binary_round prec emax s mx ex = S754_finite s mr er.
Proof.
  intros Hb Heq.
  destruct (bounded_canonical _ _ _ _ Hb) as [Hcan _].
  destruct (binary_round_between prec emax prec_gt_0 prec_lt_emax
              s mx ex mr er mr er Hcan Hb)
    as (m & e & -> & Hbm & Hlo & Hhi); [lra |].
  destruct (bounded_canonical _ _ _ _ Hbm) as [Hcanm _].
  destruct (canonical_unique m e mr er Hcanm Hcan) as [-> ->]; [lra |].
  reflexivity.
Qed.

(** A mantissa of at most [prec] digits, on an exponent that leaves room,
    has a form with [prec] digits in the format. *)
Lemma canonical_of_small p e0 :
  Zpos (digits2_pos p) <= prec ->
  emin prec emax <= e0 - (prec - Zpos (digits2_pos p)) <= emax - prec ->
  exists mr,
    bounded prec emax mr (e0 - (prec - Zpos (digits2_pos p))) = true
    /\ F2R (Zpos mr) (e0 - (prec - Zpos (digits2_pos p))) = F2R (Zpos p) e0
    /\ Zpos (digits2_pos mr) = prec.
Proof.
  intros Hd He. set (d := prec - Zpos (digits2_pos p)) in *.
  assert (Hbounded : forall mr,
            Zpos (digits2_pos mr) = prec ->
            bounded prec emax mr (e0 - d) = true).
  { intros mr Hmr. unfold bounded, canonical_mantissa. rewrite Hmr.
    apply andb_true_iff. split; [apply Z.eqb_eq | apply Z.leb_le];
      unfold fexp; lia. }
  destruct d as [| k | k] eqn:Hk; [| | lia].
  - exists p. rewrite Z.sub_0_r in *.
    split; [apply Hbounded; lia |]. split; [reflexivity | lia].
  - exists (Pos.iter xO p k).
    assert (Hdk : Zpos (digits2_pos (Pos.iter xO p k)) = prec)
      by (rewrite digits2_pos_iter_xO; lia).
    split; [now apply Hbounded |]. split; [| exact Hdk].
    rewrite Zpos_iter_xO. apply F2R_shift. lia.
Qed.

End Exact.

Lemma F2R_exponent m e d : F2R m (e + d) = (F2R m e * bpow d)%R.
Proof. unfold F2R. rewrite bpow_plus. ring. Qed.

(** A nonzero integer below [2^53] in magnitude, as a number. *)
Lemma of_Z_canonical k :
  k <> 0 -> Z.abs k < 2 ^ 53 ->
  exists m e,
    JS.of_Z k = S754_finite (k <? 0) m e
    /\ Zpos (digits2_pos m) = 53 /\ -52 <= e <= 0
    /\ F2R (Zpos m) e = F2R (Z.abs k) 0.
Proof.
  intros Hk Hlt.
  assert (Hp : forall s p,
            Zpos p < 2 ^ 53 ->
            exists m e,
              binary_round 53 1024 s p 0 = S754_finite s m e
              /\ Zpos (digits2_pos m) = 53 /\ -52 <= e <= 0
              /\ F2R (Zpos m) e = F2R (Zpos p) 0).
  { intros s p Hlt'.
    pose proof (digits2_pos_bound p 53 ltac:(lia) Hlt') as Hd.
    destruct (canonical_of_small 53 1024 p 0 Hd) as (mr & Hb & Hv & Hdm);
      [unfold emin; lia |].
    exists mr, (0 - (53 - Zpos (digits2_pos p))).
    split; [now apply binary_round_canonical |].
    split; [exact Hdm |]. split; [lia | exact Hv]. }
  unfold JS.of_Z, JS.prec, JS.emax.
  destruct k as [| p | p]; [lia | |]; cbn [binary_normalize Z.ltb Z.compare Z.abs];
    now apply Hp.
Qed.

(** The quotient by [32768.0] of a number of 53 digits: the exponent goes
    down by 15, nothing is rounded. *)
Lemma div_32768 s m e :
  Zpos (digits2_pos m) = 53 -> -52 <= e <= 0 ->
  JS.div (S754_finite s m e) c_32768 = S754_finite s m (e - 15).
Proof.
  intros Hd He. unfold JS.div, c_32768, JS.prec, JS.emax. cbn [SFdiv].
  unfold SFdiv_core_binary. cbn [Zdigits2]. rewrite Hd.
  change (Zpos (digits2_pos 0x10000000000000)) with 53.
  replace (Z.min (fexp 53 1024 (53 + e - (53 + -37))) (e - -37))
    with (e - 16) by (unfold fexp, emin; lia).
  replace (e - -37 - (e - 16)) with 53 by lia.
  assert (Hdiv : Z.div_eucl (Z.shiftl (Zpos m) 53) 0x10000000000000
                 = (Zpos m~0, 0)).
  { rewrite Z.shiftl_mul_pow2 by lia.
    pose proof (Z_div_mod (Zpos m * 2 ^ 53) 0x10000000000000 ltac:(lia)) as H.
    destruct (Z.div_eucl (Zpos m * 2 ^ 53) 0x10000000000000) as [q r].
    destruct H as [Hqr Hr].
    change (2 ^ 53) with (2 * 0x10000000000000) in Hqr.
    assert (q = Zpos m~0 /\ r = 0) as [-> ->]; [| reflexivity]. nia. }
  rewrite Hdiv. change (new_location 0x10000000000000 0) with loc_Exact.
  rewrite xorb_false_r.
  assert (Hd2 : Zpos (digits2_pos m~0) = 54) by (simpl digits2_pos; lia).
  apply (binary_round_aux_canonical 53 1024); [lia | lia | | |].
  - rewrite Hd2. unfold fexp, emin. lia.
  - unfold bounded, canonical_mantissa. rewrite Hd.
    apply andb_true_iff. split; [apply Z.eqb_eq | apply Z.leb_le];
      unfold fexp, emin; lia.
  - rewrite <- (F2R_shift (Zpos m) (e - 15) 1) by lia.
    f_equal; [change (2 ^ 1) with 2; lia | lia].
Qed.

(** A binary64 number that binary32 holds as well is stored as it is. *)
Lemma fround_exact s m e m32 e32 :
  bounded 53 1024 m e = true ->
  bounded 24 128 m32 e32 = true ->
  F2R (Zpos m) e = F2R (Zpos m32) e32 ->
  JS.fround (S754_finite s m e) = S754_finite s m e.
Proof.
  intros Hb Hb32 Heq. unfold JS.fround, JS.prec, JS.emax.
  rewrite (binary_round_canonical 24 128 ltac:(lia) ltac:(lia) s m e m32 e32)
    by assumption.
  now apply binary_round_canonical.
Qed.

(** Line 111 for a 16-bit sample that is not 0: the number stored is
    [sample / 32768], exactly. *)
Lemma sample_exact k :
  -32768 <= k <= 32767 -> k <> 0 ->
  exists m e,
    JS.fround (JS.div (JS.of_Z k) c_32768) = S754_finite (k <? 0) m e
    /\ bounded 53 1024 m e = true
    /\ F2R (Zpos m) e = F2R (Z.abs k) (-15).
Proof.
  intros Hk Hk0.
  destruct (of_Z_canonical k Hk0) as (m & e & -> & Hd & He & Hv); [lia |].
  rewrite div_32768 by assumption.
  assert (Hb : bounded 53 1024 m (e - 15) = true).
  { unfold bounded, canonical_mantissa. rewrite Hd.
    apply andb_true_iff. split; [apply Z.eqb_eq | apply Z.leb_le];
      unfold fexp, emin; lia. }
  assert (Hv' : F2R (Zpos m) (e - 15) = F2R (Z.abs k) (-15)).
  { replace (e - 15) with (e + -15) by lia.
    rewrite F2R_exponent, Hv. replace (-15) with (0 + -15) at 2 by lia.
    now rewrite F2R_exponent. }
  exists m, (e - 15). split; [| split; [exact Hb | exact Hv']].
  destruct (Z.abs k) as [| p | p] eqn:Hp; [lia | | lia].
  assert (Hdp : Zpos (digits2_pos p) <= 16)
    by (apply digits2_pos_bound; lia).
  destruct (canonical_of_small 24 128 p (-15)) as (m32 & Hb32 & Hv32 & _);
    [lia | unfold emin; lia |].
  apply (fround_exact _ m (e - 15) m32 _ Hb Hb32).
  now rewrite Hv32.
Qed.

(** *** What [readAudioFile] resolves with *)

(** The integer of a sample from its two bytes, in two's complement. *)
Lemma int16_at_bytes buffer i low high :
  0 <= i ->
  JS.get buffer (2 * i) = Some low ->
  JS.get buffer (2 * i + 1) = Some high ->
  int16_at buffer i
  = (byte_Z low + 256 * byte_Z high + 32768) mod 65536 - 32768.
Proof.
  intros Hi Hlow Hhigh. unfold int16_at, readInt16LE.
  replace (i * 2) with (2 * i) by lia. rewrite Hlow, Hhigh. cbv zeta.
  pose proof (byte_Z_range low). pose proof (byte_Z_range high).
  destruct (Z.ltb_spec (byte_Z low + byte_Z high * 256) 32768).
  - rewrite Z.mod_small by lia. lia.
  - replace (byte_Z low + 256 * byte_Z high + 32768)
      with (byte_Z low + 256 * byte_Z high - 32768 + 1 * 65536) by lia.
    rewrite Z.mod_add by lia. rewrite Z.mod_small by lia. lia.
Qed.

(** The data that the handler resolves with. *)
Lemma readAudioFile_end_data format_sampleRate audioData :
  readAudioFile_end format_sampleRate audioData
  = Ok (Audio format_sampleRate
          ((fun i => JS.fround
                       (JS.div (JS.of_Z (int16_at (concat audioData) i)) c_32768))
             <$> seqZ 0 (Z.quot (Z.of_nat (length (concat audioData))) 2))).
Proof.
  unfold readAudioFile_end.
  set (buffer := concat audioData).
  assert (Hn : 0 <= Z.quot (Z.of_nat (length buffer)) 2)
    by (apply Z.quot_pos; lia).
  rewrite Float32Array_new_Ok by exact Hn. cbn [rbind].
  rewrite length_replicate, Z2Nat.id by exact Hn.
  rewrite convert_loop_for_range by lia. cbn [rbind].
  rewrite Z.add_0_l.
  now rewrite (for_range_fill
                 (fun i => JS.div (JS.of_Z (int16_at buffer i)) c_32768)) by exact Hn.
Qed.

(** The number stored for a 16-bit sample. *)
Lemma sample_value k :
  -32768 <= k <= 32767 ->
  let x := JS.fround (JS.div (JS.of_Z k) c_32768) in
  isFinite x = true
  /\ valid_binary 53 1024 x = true
  /\ (to_R x * 32768 = IZR k)%R
  /\ JS.ge x (SFopp JS.c_1) = true
  /\ JS.lt x JS.c_1 = true.
Proof.
  intros Hk. destruct (Z.eq_dec k 0) as [-> | Hk0].
  { cbv zeta. change (JS.fround (JS.div (JS.of_Z 0) c_32768)) with (S754_zero false).
    repeat split; try reflexivity. cbn [to_R]. lra. }
  destruct (sample_exact k Hk Hk0) as (m & e & Hx & Hb & Hv).
  cbv zeta. rewrite Hx.
  destruct (bounded_canonical _ _ _ _ Hb) as [Hcan _].
  assert (Hone : canonical_mantissa 53 1024 0x10000000000000 (-52) = true)
    by reflexivity.
  assert (H1 : F2R 0x10000000000000 (-52) = 1%R) by (now apply (F2R_one 52)).
  assert (Hscale : (F2R (Z.abs k) (-15) * 32768 = IZR (Z.abs k))%R).
  { unfold F2R. change (-15) with (- (15)).
    assert (Hpow : (bpow (- (15)) * 32768 = 1)%R).
    { change 32768%R with (IZR (2 ^ 15)). rewrite <- (bpow_IZR 15) by lia.
      rewrite <- bpow_plus. reflexivity. }
    rewrite Rmult_assoc, Hpow. ring. }
  split; [reflexivity |]. split; [exact Hb |].
  destruct (Z.ltb_spec k 0) as [Hneg | Hpos].
  - (* a negative sample *)
    split; [| split].
    + cbn [to_R]. rewrite Hv.
      assert (IZR (Z.abs k) = - IZR k)%R
        by (rewrite Z.abs_neq by lia; apply opp_IZR).
      lra.
    + change (SFopp JS.c_1) with (S754_finite true 0x10000000000000 (-52)).
      unfold JS.ge, JS.IsLessThan. rewrite SFcompare_negative.
      apply (ge_finite _ _ m e Hone Hcan). rewrite H1, Hv.
      assert (IZR (Z.abs k) <= 32768)%R by (apply IZR_le; lia). lra.
    + reflexivity.
  - (* a positive sample *)
    split; [| split].
    + cbn [to_R]. rewrite Hv.
      assert (IZR (Z.abs k) = IZR k) by (now rewrite Z.abs_eq by lia).
      lra.
    + reflexivity.
    + unfold JS.lt, JS.IsLessThan, JS.c_1.
      assert (Hlt : SFcompare (S754_finite false m e)
                      (S754_finite false 0x10000000000000 (-52)) = Some Lt).
      { apply (SFcompare_canonical 53 1024 _ _ _ _ Hcan Hone).
        rewrite H1, Hv.
        assert (IZR (Z.abs k) < 32768)%R by (apply IZR_lt; lia). lra. }
      now rewrite Hlt.
Qed.

(** X8. The handler of ['end'] raises nothing, whatever the chunks: every
    read of the loop is inside the buffer. It resolves with the sample rate
    of the format and with [trunc(bytes / 2)] samples, so that a last odd
    byte is dropped; every sample is a number (no NaN, no infinity). *)
Theorem readAudioFile_resolves format_sampleRate audioData :
  exists floatData,
    readAudioFile_end format_sampleRate audioData
    = Ok (Audio format_sampleRate floatData)
    /\ Z.of_nat (length floatData)
       = Z.quot (Z.of_nat (length (concat audioData))) 2
    /\ Forall (fun x => isFinite x = true) floatData.
Proof.
  rewrite readAudioFile_end_data. eexists. split; [reflexivity |].
  assert (Hn : 0 <= Z.quot (Z.of_nat (length (concat audioData))) 2)
    by (apply Z.quot_pos; lia).
  split; [rewrite length_fmap, length_seqZ; lia |].
  apply Forall_fmap, Forall_forall. intros i Hi.
  apply elem_of_seqZ in Hi. cbn.
  destruct (readInt16LE_Ok (concat audioData) i) as [_ Hr]; [lia |].
  apply (sample_value _ Hr).
Qed.

(** X9. The sample of index [i] is made of the bytes [2 * i] (low) and
    [2 * i + 1] (high) of the concatenated chunks, also when a chunk ends
    between the two. The number stored is the 16-bit two's complement
    integer of the two bytes divided by 32768, exactly: neither the
    division nor the store into the [Float32Array] rounds. It is at least
    -1 and less than 1: 1.0 is never stored. *)
Theorem readAudioFile_sample format_sampleRate audioData r i low high :
  readAudioFile_end format_sampleRate audioData = Ok r ->
  0 <= i ->
  JS.get (concat audioData) (2 * i) = Some low ->
  JS.get (concat audioData) (2 * i + 1) = Some high ->
  exists x,
    JS.read (data r) i = JS.Num x
    /\ (to_R x * 32768
        = IZR ((byte_Z low + 256 * byte_Z high + 32768) mod 65536 - 32768))%R
    /\ JS.ge x (SFopp JS.c_1) = true
    /\ JS.lt x JS.c_1 = true.
Proof.
  intros Hr Hi Hlow Hhigh. rewrite readAudioFile_end_data in Hr.
  assert (Hdata : data r
                  = (fun i => JS.fround
                       (JS.div (JS.of_Z (int16_at (concat audioData) i)) c_32768))
                      <$> seqZ 0 (Z.quot (Z.of_nat (length (concat audioData))) 2))
    by (injection Hr; intros <-; reflexivity).
  rewrite Hdata. clear Hr Hdata.
  assert (Hlen : 2 * i + 1 < Z.of_nat (length (concat audioData)))
    by (apply (get_is_Some (concat audioData) (2 * i + 1)); eauto).
  assert (Hi' : 0 <= i < Z.quot (Z.of_nat (length (concat audioData))) 2).
  { pose proof (Z.quot_rem' (Z.of_nat (length (concat audioData))) 2).
    pose proof (Z.rem_bound_pos (Z.of_nat (length (concat audioData))) 2
                  ltac:(lia) ltac:(lia)).
    lia. }
  rewrite read_fmap_seqZ by exact Hi'.
  eexists. split; [reflexivity |].
  destruct (readInt16LE_Ok (concat audioData) i Hi') as [_ Hrange].
  destruct (sample_value _ Hrange) as (_ & _ & Hv & Hge & Hlt).
  rewrite <- (int16_at_bytes _ i low high Hi Hlow Hhigh).
  split; [exact Hv |]. split; [exact Hge | exact Hlt].
Qed.

Lemma readAudioFile_sample_witness :
  readAudioFile_end 44100 three_chunks
  = Ok (Audio 44100 [S754_finite true 0x10000000000000 (-52);
                     S754_finite false 0x1fffc000000000 (-53)])
  /\ JS.get (concat three_chunks) (2 * 1) = Some Byte.xff
  /\ JS.get (concat three_chunks) (2 * 1 + 1) = Some Byte.x7f
  /\ exists x,
       JS.read [S754_finite true 0x10000000000000 (-52);
                S754_finite false 0x1fffc000000000 (-53)] 1 = JS.Num x
       /\ (to_R x * 32768 = IZR 32767)%R
       /\ JS.ge x (SFopp JS.c_1) = true
       /\ JS.lt x JS.c_1 = true.
Proof.
  split; [vm_compute; reflexivity |].
  split; [reflexivity |]. split; [reflexivity |].
  apply (readAudioFile_sample 44100 three_chunks
           (Audio 44100 [S754_finite true 0x10000000000000 (-52);
                         S754_finite false 0x1fffc000000000 (-53)])
           1 Byte.xff Byte.x7f).
  - vm_compute. reflexivity.
  - lia.
  - reflexivity.
  - reflexivity.
Defined.

Lemma byte_Z_inj a b : byte_Z a = byte_Z b -> a = b.
Proof.
  unfold byte_Z. intros H. apply N2Z.inj in H.
  pose proof (Byte.of_to_N a) as Ha. rewrite H, Byte.of_to_N in Ha.
  congruence.
Qed.

(** Two samples that are the same integer have the same bytes. *)
Lemma int16_at_inj buffer1 buffer2 i low1 high1 low2 high2 :
  0 <= i ->
  JS.get buffer1 (2 * i) = Some low1 ->
  JS.get buffer1 (2 * i + 1) = Some high1 ->
  JS.get buffer2 (2 * i) = Some low2 ->
  JS.get buffer2 (2 * i + 1) = Some high2 ->
  int16_at buffer1 i = int16_at buffer2 i ->
  low1 = low2 /\ high1 = high2.
Proof.
  intros Hi Hl1 Hh1 Hl2 Hh2.
  rewrite (int16_at_bytes _ _ _ _ Hi Hl1 Hh1), (int16_at_bytes _ _ _ _ Hi Hl2 Hh2).
  pose proof (byte_Z_range low1). pose proof (byte_Z_range high1).
  pose proof (byte_Z_range low2). pose proof (byte_Z_range high2).
  intros Heq.
  assert (Hmod : forall v, 0 <= v < 65536 ->
            (v + 32768) mod 65536
            = if v <? 32768 then v + 32768 else v - 32768).
  { intros v Hv. destruct (Z.ltb_spec v 32768).
    - apply Z.mod_small. lia.
    - replace (v + 32768) with (v - 32768 + 1 * 65536) by lia.
      rewrite Z.mod_add by lia. apply Z.mod_small. lia. }
  rewrite !Hmod in Heq by lia.
  assert (byte_Z low1 + 256 * byte_Z high1 = byte_Z low2 + 256 * byte_Z high2).
  { destruct (Z.ltb_spec (byte_Z low1 + 256 * byte_Z high1) 32768),
      (Z.ltb_spec (byte_Z low2 + 256 * byte_Z high2) 32768); lia. }
  split; apply byte_Z_inj; lia.
Qed.

(** The number stored for a sample determines the sample. *)
Lemma sample_inj k1 k2 :
  -32768 <= k1 <= 32767 -> -32768 <= k2 <= 32767 ->
  JS.fround (JS.div (JS.of_Z k1) c_32768)
  = JS.fround (JS.div (JS.of_Z k2) c_32768) ->
  k1 = k2.
Proof.
  intros H1 H2 Heq.
  destruct (sample_value k1 H1) as (_ & _ & Hv1 & _).
  destruct (sample_value k2 H2) as (_ & _ & Hv2 & _).
  rewrite Heq in Hv1. apply eq_IZR. lra.
Qed.

(** X10. Decoding loses nothing: two recordings with an even number of
    bytes that give the same samples have the same bytes, however the
    bytes were split into chunks and whatever the sample rates. *)
Theorem readAudioFile_lossless rate1 rate2 audioData1 audioData2 r1 r2 :
  readAudioFile_end rate1 audioData1 = Ok r1 ->
  readAudioFile_end rate2 audioData2 = Ok r2 ->
  Z.even (Z.of_nat (length (concat audioData1))) = true ->
  Z.even (Z.of_nat (length (concat audioData2))) = true ->
  data r1 = data r2 ->
  concat audioData1 = concat audioData2.
Proof.
  intros Hr1 Hr2 He1 He2 Hdata.
  rewrite readAudioFile_end_data in Hr1, Hr2.
  set (b1 := concat audioData1) in *. set (b2 := concat audioData2) in *.
  assert (Hd1 : data r1
                = (fun i => JS.fround (JS.div (JS.of_Z (int16_at b1 i)) c_32768))
                    <$> seqZ 0 (Z.quot (Z.of_nat (length b1)) 2))
    by (injection Hr1; intros <-; reflexivity).
  assert (Hd2 : data r2
                = (fun i => JS.fround (JS.div (JS.of_Z (int16_at b2 i)) c_32768))
                    <$> seqZ 0 (Z.quot (Z.of_nat (length b2)) 2))
    by (injection Hr2; intros <-; reflexivity).
  rewrite Hd1, Hd2 in Hdata. clear Hr1 Hr2 Hd1 Hd2.
  assert (Hq : forall n, 0 <= n -> Z.even n = true -> n = 2 * Z.quot n 2).
  { intros n Hn Hev. apply Z.even_spec in Hev. destruct Hev as [m ->].
    rewrite (Z.mul_comm 2 m), Z.quot_mul by lia. lia. }
  pose proof (Hq (Z.of_nat (length b1)) ltac:(lia) He1) as Hl1.
  pose proof (Hq (Z.of_nat (length b2)) ltac:(lia) He2) as Hl2.
  assert (Hn1 : 0 <= Z.quot (Z.of_nat (length b1)) 2) by (apply Z.quot_pos; lia).
  assert (Hn2 : 0 <= Z.quot (Z.of_nat (length b2)) 2) by (apply Z.quot_pos; lia).
  assert (Hn : Z.quot (Z.of_nat (length b1)) 2 = Z.quot (Z.of_nat (length b2)) 2).
  { apply (f_equal length) in Hdata.
    rewrite !length_fmap, !length_seqZ in Hdata. lia. }
  apply list_eq. intros j.
  destruct (Z_lt_le_dec (Z.of_nat j) (Z.of_nat (length b1))) as [Hj | Hj];
    [| rewrite !lookup_ge_None_2 by lia; reflexivity].
  set (i := Z.of_nat j / 2).
  assert (Hi : 0 <= i < Z.quot (Z.of_nat (length b1)) 2).
  { subst i. split; [apply Z.div_pos; lia |].
    apply Z.div_lt_upper_bound; lia. }
  assert (Hsame : int16_at b1 i = int16_at b2 i).
  { pose proof (f_equal (fun a => JS.read a i) Hdata) as Hread. cbv beta in Hread.
    rewrite !read_fmap_seqZ in Hread by lia.
    destruct (readInt16LE_Ok b1 i Hi) as [_ Hk1].
    destruct (readInt16LE_Ok b2 i ltac:(lia)) as [_ Hk2].
    apply (sample_inj _ _ Hk1 Hk2). congruence. }
  destruct (proj2 (get_is_Some b1 (2 * i)) ltac:(lia)) as [low1 Hlow1].
  destruct (proj2 (get_is_Some b1 (2 * i + 1)) ltac:(lia)) as [high1 Hhigh1].
  destruct (proj2 (get_is_Some b2 (2 * i)) ltac:(lia)) as [low2 Hlow2].
  destruct (proj2 (get_is_Some b2 (2 * i + 1)) ltac:(lia)) as [high2 Hhigh2].
  destruct (int16_at_inj b1 b2 i _ _ _ _ ltac:(lia) Hlow1 Hhigh1 Hlow2 Hhigh2 Hsame)
    as [-> ->].
  assert (Hget : forall (b : list Byte.byte) z, 0 <= z ->
            JS.get b z = b !! Z.to_nat z).
  { intros b z Hz. unfold JS.get. now destruct (Z.ltb_spec z 0); [lia |]. }
  rewrite Hget in Hlow1, Hhigh1, Hlow2, Hhigh2 by lia.
  pose proof (Z.div_mod (Z.of_nat j) 2 ltac:(lia)) as Hdm.
  pose proof (Z.mod_pos_bound (Z.of_nat j) 2 ltac:(lia)) as Hm.
  fold i in Hdm.
  destruct (Z.eq_dec (Z.of_nat j mod 2) 0) as [H0 | H0].
  - replace j with (Z.to_nat (2 * i)) by lia. now rewrite Hlow1, Hlow2.
  - replace j with (Z.to_nat (2 * i + 1)) by lia. now rewrite Hhigh1, Hhigh2.
Qed.

Lemma readAudioFile_lossless_witness :
  readAudioFile_end 44100 [[Byte.x00]; [Byte.x80; Byte.xff]; [Byte.x7f]]
  = Ok (Audio 44100 [S754_finite true 0x10000000000000 (-52);
                     S754_finite false 0x1fffc000000000 (-53)])
  /\ readAudioFile_end 8000 [[Byte.x00; Byte.x80; Byte.xff; Byte.x7f]]
     = Ok (Audio 8000 [S754_finite true 0x10000000000000 (-52);
                       S754_finite false 0x1fffc000000000 (-53)])
  /\ concat [[Byte.x00]; [Byte.x80; Byte.xff]; [Byte.x7f]]
     = concat [[Byte.x00; Byte.x80; Byte.xff; Byte.x7f]].
Proof.
  split; [vm_compute; reflexivity |]. split; [vm_compute; reflexivity |].
  apply (readAudioFile_lossless 44100 8000
           [[Byte.x00]; [Byte.x80; Byte.xff]; [Byte.x7f]]
           [[Byte.x00; Byte.x80; Byte.xff; Byte.x7f]]
           (Audio 44100 [S754_finite true 0x10000000000000 (-52);
                         S754_finite false 0x1fffc000000000 (-53)])
           (Audio 8000 [S754_finite true 0x10000000000000 (-52);
                        S754_finite false 0x1fffc000000000 (-53)]));
    vm_compute; reflexivity.
Defined.
